(** * ProtoTree: tree routing, leaf selection, leaf learning, rationalization

    A shallow embedding of [src/proto/models.py] and [src/prototree/models.py].

    Conventions.
    - Tensor entries are real numbers ([R]); a tensor of shape [(bs,)] is a
      [list R], a tensor of shape [(bs, k)] is a [Tensor2] (rows of length [k]).
      Element-wise operations are [zip_with]; they agree with torch on operands
      of equal shape, which is the only way the program uses them.
    - Python exceptions are the left summand of [exn + A].
    - A node object is identified by its position in the tree: the branch
      decisions from the node up to the root ([true] = right).  The tree shape
      is immutable; the mutable leaf statistics live in a store indexed by leaf
      position. *)

From Stdlib Require Import Reals Lra.
From stdpp Require Import strings functions gmap list.
Open Scope R_scope.

(** ** Exceptions *)

Inductive exn : Set := ValueError | KeyError | IndexError | TypeError | RuntimeError.

Definition raise {A} (e : exn) : exn + A := inl e.
Definition ret {A} (a : A) : exn + A := inr a.

#[export] Instance exn_bind : MBind (sum exn) := λ A B (k : A → exn + B) m,
  match m with inl e => inl e | inr a => k a end.

(** [ [f(a) for a in l] ] where [f] may raise: the first failure wins. *)
Fixpoint for_each {A B} (f : A → exn + B) (l : list A) : exn + list B :=
  match l with
  | [] => ret []
  | a :: l' => b ← f a ; bs ← for_each f l' ; ret (b :: bs)
  end.

(** [d[k]] on a dict. *)
Definition dict_get `{Countable K} {V} (d : gmap K V) (k : K) : exn + V :=
  match d !! k with Some v => ret v | None => raise KeyError end.

(** [l[i]] on a sequence or a 1-d tensor. *)
Definition seq_get {A} (l : list A) (i : nat) : exn + A :=
  match l !! i with Some v => ret v | None => raise IndexError end.

(** ** Tensors *)

Abbreviation Tensor := (list R).

Record Tensor2 := mkTensor2 { n_cols : nat; rows : list (list R) }.

Definition wf_tensor2 (t : Tensor2) : Prop :=
  Forall (λ r : list R, length r = n_cols t) (rows t).

Definition zeros_like (t : Tensor) : Tensor := map (λ _, 0) t.
Definition tadd (a b : Tensor) : Tensor := zip_with Rplus a b.
Definition tneg (a : Tensor) : Tensor := map Ropp a.

(** [t[:, i]] *)
Definition column (t : Tensor2) (i : nat) : exn + Tensor :=
  if decide (i < n_cols t)%nat then ret (map (λ r, nth i r 0) (rows t))
  else raise IndexError.

(** [log(1 - exp(x))].  For [x >= 0] torch yields [-inf] or [nan], which the
    reals do not have; statements that depend on the value are restricted to
    [x < 0]. *)
Definition log1mexp (x : R) : R := ln (1 - exp x).

Definition neg_log_2 : R := - ln 2.

(** Values of [torch.log(one_hot)] and of sums with them: a real or [-inf]. *)
Inductive LogVal := NegInf | Finite (x : R).

Definition lv_add (a b : LogVal) : LogVal :=
  match a, b with Finite x, Finite y => Finite (x + y) | _, _ => NegInf end.
Definition lv_sub_fin (a : LogVal) (y : R) : LogVal :=
  match a with Finite x => Finite (x - y) | NegInf => NegInf end.
Definition lv_exp (a : LogVal) : R :=
  match a with Finite x => exp x | NegInf => 0 end.
Definition lv_log (x : R) : LogVal :=
  if Rgt_dec x 0 then Finite (ln x) else NegInf.

Definition Rsum (l : list R) : R := foldr Rplus 0 l.

(** [torch.logsumexp] of a vector: [-inf] when every entry is [-inf] (also for
    the empty vector), the log of the sum of exponentials otherwise. *)
Definition logsumexp (l : list LogVal) : LogVal := lv_log (Rsum (map lv_exp l)).

(** [torch.argmax] of a non-empty vector: the index of the first maximal
    value. *)
Fixpoint argmax_from (best_i : nat) (best : R) (i : nat) (l : list R) : nat :=
  match l with
  | [] => best_i
  | x :: l' =>
      if Rgt_dec x best then argmax_from i x (S i) l'
      else argmax_from best_i best (S i) l'
  end.

Definition argmax (l : list R) : exn + nat :=
  match l with
  | [] => raise IndexError
  | x :: l' => ret (argmax_from 0 x 1 l')
  end.

(** ** Nodes ([node.py] is not among the sources) *)

(** Modelled from the spec: the tree is a binary structure of internal nodes
    with exactly two children and of leaves ([node.py], missing). *)
Inductive Tree := TLeaf | TInternal (left right : Tree).

(** Modelled from the spec: a node has a stable identity, usable as a mapping
    key, which is its structural position: the branch decisions from the node
    up to the root ([true] = right child). *)
Abbreviation NodeRef := (list bool).

(** Modelled from the spec: a node object, as its identity and the subtree
    reachable from it through [left] and [right]. *)
Record Node := mkNode { position : NodeRef; subtree : Tree }.

(** Modelled from the spec: [is_leaf] and [is_internal] tell the two variants
    of a node apart. *)
Definition is_leaf (n : Node) : bool :=
  match subtree n with TLeaf => true | TInternal _ _ => false end.
Definition is_internal (n : Node) : bool := negb (is_leaf n).

(** Modelled from the spec: [is_right_child] is fixed by the position below the
    parent; the spec leaves it undefined for the root ([false] here, no
    statement depends on it). *)
Definition is_right_child (p : NodeRef) : bool :=
  match p with b :: _ => b | [] => false end.

(** Modelled from the spec: [ancestors] is the chain of internal nodes above a
    node, ordered from the root down to the node's parent. *)
Fixpoint ancestors (p : NodeRef) : list NodeRef :=
  match p with
  | [] => []
  | _ :: parent => ancestors parent ++ [parent]
  end.

(** Modelled from the spec: [descendants] lists every node of the subtree, the
    node itself included. *)
Fixpoint descendants_at (t : Tree) (p : NodeRef) : list Node :=
  mkNode p t ::
  match t with
  | TLeaf => []
  | TInternal l r => descendants_at l (false :: p) ++ descendants_at r (true :: p)
  end.
Definition descendants (n : Node) : list Node := descendants_at (subtree n) (position n).

(** Modelled from the spec: [descendant_internal_nodes], in the fixed traversal
    order that assigns the prototype indices (pre-order here). *)
Definition descendant_internal_nodes (n : Node) : list Node :=
  filter (λ d, is_internal d = true) (descendants n).

(** Modelled from the spec: [leaves], in the leaf enumeration order (left to
    right). *)
Fixpoint leaves_at (t : Tree) (p : NodeRef) : list NodeRef :=
  match t with
  | TLeaf => [p]
  | TInternal l r => leaves_at l (false :: p) ++ leaves_at r (true :: p)
  end.
Definition leaves (n : Node) : list NodeRef := leaves_at (subtree n) (position n).

(** Modelled from the spec: [create_tree(depth, num_classes)] builds the perfect
    binary tree of the given depth and fails for [depth < 1] (the spec's
    DomainError). *)
Fixpoint perfect (depth : nat) : Tree :=
  match depth with
  | O => TLeaf
  | S d => TInternal (perfect d) (perfect d)
  end.
Definition create_tree (depth : nat) : exn + Node :=
  match depth with
  | O => raise ValueError
  | S _ => ret (mkNode [] (perfect depth))
  end.

(** Modelled from the spec: [NodeProbabilities] holds [log_p_arrival] and
    [log_p_right] (absent for a leaf); [log_p_left] is derived as
    [log(1 - exp(log_p_right))], and the arrival at a child is the arrival at
    the node plus the log-probability of the branch taken. *)
Record NodeProbabilities := mkProbs {
  log_p_arrival : Tensor;
  log_p_right : option Tensor
}.

(** Modelled from the spec: [NodeProbabilities.log_p_left]; a node without
    [log_p_right] has none. *)
Definition log_p_left (np : NodeProbabilities) : exn + Tensor :=
  match log_p_right np with
  | Some r => ret (map log1mexp r)
  | None => raise TypeError
  end.

(** Modelled from the spec: [NodeProbabilities.log_p_arrival_left], the arrival
    at the left child. *)
Definition log_p_arrival_left (np : NodeProbabilities) : exn + Tensor :=
  l ← log_p_left np ; ret (tadd (log_p_arrival np) l).

(** Modelled from the spec: [NodeProbabilities.log_p_arrival_right], the
    arrival at the right child. *)
Definition log_p_arrival_right (np : NodeProbabilities) : exn + Tensor :=
  match log_p_right np with
  | Some r => ret (tadd (log_p_arrival np) r)
  | None => raise TypeError
  end.

(** Modelled from the spec: [NodeProbabilities.batch_size], the number of
    samples that [log_p_arrival] covers. *)
Definition batch_size (np : NodeProbabilities) : nat := length (log_p_arrival np).

(** Modelled from the spec: a leaf owns a class parameter vector and the update
    counter of the moving average. *)
Record LeafState := mkLeaf {
  dist_params : list R;
  dist_param_update_count : nat
}.

(** The leaf objects' mutable fields, by leaf position. *)
Abbreviation LeafStore := (NodeRef → LeafState).

(** ** Collaborators

    Code of other modules that the two model files call ([node.py],
    [img_similarity.py]) and whose result the statements below never inspect:
    taken as parameters. *)
Class Collaborators := {
  Image : Type;
  DistMap : Type;
  Patches : Type;
  PatchMatch : Type;
  (** the best-matching patch of an image for one prototype's distance map *)
  closest_patch : Image → DistMap → Patches → PatchMatch;
  (** [Leaf.y_logits()], a function of the leaf's [dist_params] *)
  y_logits : list R → Tensor;
  (** [Leaf.predicted_label()] *)
  predicted_label : list R → nat;
  (** [Node.forward(node_to_probs)], the distributed logits *)
  node_forward : Node → LeafStore → gmap NodeRef NodeProbabilities → Tensor2
}.

(** Modelled from the spec: an [ImageProtoSimilarity] pairs one internal node
    with the best-matching patch of one image ([img_similarity.py], missing). *)
Record ImageProtoSimilarity `{Collaborators} := mkSimilarity {
  internal_node : NodeRef;
  closest : PatchMatch
}.

(** Modelled from the spec: [img_proto_similarity] pairs the ancestor it is
    given with the best-matching patch. *)
Definition img_proto_similarity `{Collaborators}
    (node : NodeRef) (x_i : Image) (node_distances : DistMap) (patches_i : Patches)
    : ImageProtoSimilarity :=
  mkSimilarity _ node (closest_patch x_i node_distances patches_i).

(** [torch.cat(rows, dim=0)] of row vectors [(1, k)]: fails on an empty list and
    on rows of different lengths. *)
Definition cat_rows (l : list Tensor) : exn + Tensor2 :=
  match l with
  | [] => raise RuntimeError
  | r :: _ =>
      if forallb (λ r', Nat.eqb (length r') (length r)) l
      then ret (mkTensor2 (length r) l)
      else raise RuntimeError
  end.

(** [torch.cat(cols, dim=1)] of column vectors [(bs, 1)]: fails on an empty list
    and on columns of different lengths. *)
Definition cat_cols (l : list Tensor) : exn + Tensor2 :=
  match l with
  | [] => raise RuntimeError
  | c :: _ =>
      if forallb (λ c', Nat.eqb (length c') (length c)) l
      then ret (mkTensor2 (length l)
                  (map (λ i, map (λ c', nth i c' 0) l) (seq 0 (length c))))
      else raise RuntimeError
  end.

(** [F.one_hot(y, num_classes)]: fails on a label outside [0, num_classes). *)
Definition one_hot (y : list nat) (num_classes : nat) : exn + list (list R) :=
  for_each (λ label,
    if decide (label < num_classes)%nat
    then ret (map (λ c, if Nat.eqb c label then 1 else 0) (seq 0 num_classes))
    else raise RuntimeError) y.

(** [torch.softmax] and [F.log_softmax] of one row. *)
Definition softmax (row : Tensor) : Tensor :=
  map (λ x, exp x / Rsum (map exp row)) row.
Definition log_softmax (row : Tensor) : Tensor :=
  map (λ x, x - ln (Rsum (map exp row))) row.


(** [a == b] on 1-d integer tensors, with torch's broadcasting: shapes must be
    equal unless one of them is [(1,)]. *)
Definition tensor_eq (a b : list nat) : exn + list bool :=
  if decide (length a = length b) then ret (zip_with Nat.eqb a b)
  else if decide (length a = 1%nat) then ret (map (Nat.eqb (nth 0 a 0%nat)) b)
  else if decide (length b = 1%nat) then ret (map (λ u, Nat.eqb u (nth 0 b 0%nat)) a)
  else raise RuntimeError.

(** [t.sum()] of a boolean tensor. *)
Definition tensor_sum (t : list bool) : nat := length (filter (λ b, b = true) t).
(** ** [src/proto/models.py] *)
Module Proto.
Section Models.
Context `{Collaborators}.

Record LeafRationalization := mkRationalization {
  ancestor_similarities : list ImageProtoSimilarity;
  leaf : NodeRef
}.

Definition proto_presents (lr : LeafRationalization) : list bool :=
  let internal_children := map internal_node (tail (ancestor_similarities lr)) in
  let leaf_single_list := [leaf lr] in
  let ancestor_children := internal_children ++ leaf_single_list in
  map is_right_child ancestor_children.

Record TreeSection := mkTreeSection {
  num_classes : nat;
  tree_root : Node;
  node_to_proto_idx : gmap NodeRef nat;
  leaf_pruning_threshold : R;
  leaf_opt_ewma_alpha : R
}.

(** [TreeSection.__init__]; the positions of distinct nodes differ, so the
    dict comprehension never overwrites a key. *)
Definition new_tree_section (num_classes depth : nat) (threshold alpha : R)
    : exn + TreeSection :=
  root ← create_tree depth ;
  ret (mkTreeSection num_classes root
         (list_to_map (imap (λ idx node, (position node, idx))
                            (descendant_internal_nodes root)))
         threshold alpha).

Record ProtoTree := mkProtoTree {
  tree_section : TreeSection;
  training : bool
}.

Definition get_node_to_log_p_right (ts : TreeSection) (similarities : Tensor2)
    : exn + gmap NodeRef Tensor :=
  items ← for_each (λ '(node, i), c ← column similarities i ; ret (node, tneg c))
                   (map_to_list (node_to_proto_idx ts)) ;
  ret (list_to_map items).

(** The inner function of [_node_to_probs_from_p_right]; [result] is the dict
    it mutates. *)
Fixpoint add_strict_descendants (node_to_log_p_right : gmap NodeRef Tensor)
    (node : Tree) (p : NodeRef) (result : gmap NodeRef NodeProbabilities)
    : exn + gmap NodeRef NodeProbabilities :=
  match node with
  | TLeaf => ret result
  | TInternal l r =>
      n_probs ← dict_get result p ;
      let log_p_right_right := node_to_log_p_right !! (true :: p) in
      let log_p_right_left := node_to_log_p_right !! (false :: p) in
      log_p_arrival_left ← log_p_arrival_left n_probs ;
      log_p_arrival_right ← log_p_arrival_right n_probs ;
      let result := <[false :: p := mkProbs log_p_arrival_left log_p_right_left]> result in
      let result := <[true :: p := mkProbs log_p_arrival_right log_p_right_right]> result in
      result ← add_strict_descendants node_to_log_p_right l (false :: p) result ;
      add_strict_descendants node_to_log_p_right r (true :: p) result
  end.

Definition _node_to_probs_from_p_right (node_to_log_p_right : gmap NodeRef Tensor)
    (root : Node) : exn + gmap NodeRef NodeProbabilities :=
  root_log_p_right ← dict_get node_to_log_p_right (position root) ;
  let root_probs := mkProbs (zeros_like root_log_p_right) (Some root_log_p_right) in
  let result := {[ position root := root_probs ]} in
  add_strict_descendants node_to_log_p_right (subtree root) (position root) result.

Definition get_node_to_probs (ts : TreeSection) (similarities : Tensor2)
    : exn + gmap NodeRef NodeProbabilities :=
  node_to_log_p_right ← get_node_to_log_p_right ts similarities ;
  _node_to_probs_from_p_right node_to_log_p_right (tree_root ts).

(** The inner function of [_get_predicting_leaves_greedily]; the [while] loop
    descends one level per iteration. *)
Fixpoint get_leaf_for_sample (node_to_probs : gmap NodeRef NodeProbabilities)
    (cur_node : Tree) (p : NodeRef) (sample_idx : nat) : exn + NodeRef :=
  match cur_node with
  | TLeaf => ret p
  | TInternal l r =>
      cur_probs ← dict_get node_to_probs p ;
      lefts ← log_p_left cur_probs ;
      log_p_left ← seq_get lefts sample_idx ;
      if Rgt_dec log_p_left neg_log_2
      then get_leaf_for_sample node_to_probs l (false :: p) sample_idx
      else get_leaf_for_sample node_to_probs r (true :: p) sample_idx
  end.

Definition _get_predicting_leaves_greedily (root : Node)
    (node_to_probs : gmap NodeRef NodeProbabilities) : exn + list NodeRef :=
  root_probs ← dict_get node_to_probs (position root) ;
  let batch_size := batch_size root_probs in
  for_each (get_leaf_for_sample node_to_probs (subtree root) (position root))
           (seq 0 batch_size).

Definition _get_max_p_arrival_leaves (leaves : list NodeRef)
    (node_to_probs : gmap NodeRef NodeProbabilities) : exn + list NodeRef :=
  log_p_arrivals ← for_each (λ leaf, np ← dict_get node_to_probs leaf ;
                                      ret (log_p_arrival np)) leaves ;
  log_p_arrivals ← cat_cols log_p_arrivals ;
  predicting_leaf_idx ← for_each argmax (rows log_p_arrivals) ;
  for_each (seq_get leaves) predicting_leaf_idx.

Definition get_predicting_leaves (root : Node)
    (node_to_probs : gmap NodeRef NodeProbabilities) (sampling_strategy : string)
    : exn + list NodeRef :=
  if decide (sampling_strategy = "sample_max"%string)
  then _get_max_p_arrival_leaves (leaves root) node_to_probs
  else if decide (sampling_strategy = "greedy"%string)
  then _get_predicting_leaves_greedily root node_to_probs
  else raise ValueError.

(** [ProtoTree.forward]; [similarities] is what the prototype layer returned for
    the batch. *)
Definition forward (self : ProtoTree) (store : LeafStore) (similarities : Tensor2)
    (strategy : string)
    : exn + (Tensor2 * gmap NodeRef NodeProbabilities * option (list NodeRef)) :=
  node_to_probs ← get_node_to_probs (tree_section self) similarities ;
  if decide (strategy = "distributed"%string) then
    let predicting_leaves := None in
    let logits := node_forward (tree_root (tree_section self)) store node_to_probs in
    ret (logits, node_to_probs, predicting_leaves)
  else if negb (training self) &&
          (bool_decide (strategy = "sample_max"%string)
           || bool_decide (strategy = "greedy"%string)) then
    predicting_leaves ← get_predicting_leaves (tree_root (tree_section self))
                                              node_to_probs strategy ;
    logits ← cat_rows (map (λ leaf, y_logits (dist_params (store leaf)))
                           predicting_leaves) ;
    ret (logits, node_to_probs, Some predicting_leaves)
  else raise ValueError.

(** [ProtoTree.rationalize]; [patches] and [dists] are what the prototype layer
    returned for the batch [x]. *)
Definition rationalize (ts : TreeSection) (x : list Image)
    (predicting_leaves : list NodeRef) (dists : list (list DistMap))
    (patches : list Patches) : exn + list LeafRationalization :=
  for_each (λ '(x_i, predicting_leaf, dists_i, patches_i),
    let leaf_ancestors := ancestors predicting_leaf in
    ancestor_similarities ← for_each (λ leaf_ancestor,
        node_proto_idx ← dict_get (node_to_proto_idx ts) leaf_ancestor ;
        node_distances ← seq_get dists_i node_proto_idx ;
        ret (img_proto_similarity leaf_ancestor x_i node_distances patches_i))
      leaf_ancestors ;
    ret (mkRationalization ancestor_similarities predicting_leaf))
  (zip (zip (zip x predicting_leaves) dists) patches).

(** The broadcast sum [log_p_arrival + leaf_logits + y_true_logits - logits], of
    shape [(batch_size, num_classes)], for operands of the shapes
    [(batch_size, 1)], [(num_classes,)] and twice [(batch_size, num_classes)]
    that the program gives them.  On operands of other shapes torch
    broadcasts or raises [RuntimeError]; the statements about the update are
    restricted to the shapes above. *)
Definition log_contributions (log_p_arrival leaf_logits : Tensor)
    (y_true_logits : list (list LogVal)) (logits : Tensor2) : list (list LogVal) :=
  zip_with (λ a '(y_row, l_row),
      zip_with (λ ll '(y, l), lv_sub_fin (lv_add (Finite (a + ll)) y) l)
               leaf_logits (zip y_row l_row))
    log_p_arrival (zip y_true_logits (rows logits)).

(** [torch.logsumexp(m, dim=0)] *)
Definition logsumexp_dim0 (num_classes : nat) (m : list (list LogVal)) : list LogVal :=
  map (λ c, logsumexp (map (λ row, nth c row NegInf) m)) (seq 0 num_classes).

Definition dist_update_of (log_p_arrival leaf_logits : Tensor)
    (y_true_logits : list (list LogVal)) (logits : Tensor2) : Tensor :=
  let log_dist_update :=
    logsumexp_dim0 (n_cols logits)
      (log_contributions log_p_arrival leaf_logits y_true_logits logits) in
  map lv_exp log_dist_update.

Definition _update_leaf_distribution (ts : TreeSection) (store : LeafStore)
    (leaf : NodeRef) (node_to_prob : gmap NodeRef NodeProbabilities)
    (logits : Tensor2) (y_true_logits : list (list LogVal)) : exn + LeafStore :=
  np ← dict_get node_to_prob leaf ;
  let log_p_arrival := log_p_arrival np in
  let leaf_logits := y_logits (dist_params (store leaf)) in
  let dist_update := dist_update_of log_p_arrival leaf_logits y_true_logits logits in
  let count := S (dist_param_update_count (store leaf)) in
  let count_alpha := 1 / INR count in
  let alpha := Rmax count_alpha (leaf_opt_ewma_alpha ts) in
  let params := map (λ d, d * (1 - alpha)) (dist_params (store leaf)) in
  let params := zip_with Rplus params dist_update in
  ret (<[leaf := mkLeaf params count]> store).

(** The [for leaf in self.leaves] loop. *)
Fixpoint update_each (ts : TreeSection) (store : LeafStore) (ls : list NodeRef)
    (node_to_prob : gmap NodeRef NodeProbabilities) (logits : Tensor2)
    (y_true_logits : list (list LogVal)) : exn + LeafStore :=
  match ls with
  | [] => ret store
  | leaf :: ls' =>
      store ← _update_leaf_distribution ts store leaf node_to_prob logits y_true_logits ;
      update_each ts store ls' node_to_prob logits y_true_logits
  end.

Definition update_leaf_distributions (ts : TreeSection) (store : LeafStore)
    (y_true : list nat) (logits : Tensor2)
    (node_to_prob : gmap NodeRef NodeProbabilities) : exn + LeafStore :=
  let num_classes := n_cols logits in
  y_true_one_hot ← one_hot y_true num_classes ;
  let y_true_logits := map (map lv_log) y_true_one_hot in
  update_each ts store (leaves (tree_root ts)) node_to_prob logits y_true_logits.

(** The default values of the [strategy] parameters. *)
Definition forward_default : string := "distributed".
Definition predict_default : string := "sample_max".
Definition explain_default : string := "sample_max".

(** [ProtoTree.__init__]: the number of prototypes handed to the prototype
    layer, and the new model; a new [nn.Module] is in training mode. *)
Definition num_prototypes (depth : nat) : nat := 2 ^ depth - 1.

Definition new_proto_tree (num_classes depth : nat) (threshold alpha : R)
    : exn + ProtoTree :=
  tree_section ← new_tree_section num_classes depth threshold alpha ;
  ret (mkProtoTree tree_section true).

(** [ProtoTree.explain]; [rationalize] iterates over [zip(x, predicting_leaves,
    ...)], which raises [TypeError] when [predicting_leaves] is [None]. *)
Definition explain (self : ProtoTree) (store : LeafStore) (similarities : Tensor2)
    (x : list Image) (dists : list (list DistMap)) (patches : list Patches)
    (strategy : string)
    : exn + (Tensor2 * gmap NodeRef NodeProbabilities * option (list NodeRef)
             * list LeafRationalization) :=
  '(logits, node_to_probs, predicting_leaves) ←
      forward self store similarities strategy ;
  leaf_explanations ←
    match predicting_leaves with
    | Some leaves => rationalize (tree_section self) x leaves dists patches
    | None => raise TypeError
    end ;
  ret (logits, node_to_probs, predicting_leaves, leaf_explanations).

(** [ProtoTree.predict_logits], [ProtoTree.predict] and
    [ProtoTree.predict_probs]. *)
Definition predict_logits (self : ProtoTree) (store : LeafStore)
    (similarities : Tensor2) (strategy : string) : exn + Tensor2 :=
  '(logits, _, _) ← forward self store similarities strategy ;
  ret logits.

Definition predict (self : ProtoTree) (store : LeafStore)
    (similarities : Tensor2) (strategy : string) : exn + list nat :=
  logits ← predict_logits self store similarities strategy ;
  for_each argmax (rows logits).

Definition predict_probs (self : ProtoTree) (store : LeafStore)
    (similarities : Tensor2) (strategy : string) : exn + Tensor2 :=
  logits ← predict_logits self store similarities strategy ;
  ret (mkTensor2 (n_cols logits) (map softmax (rows logits))).

(** [ProtoPNet]: the linear classifier over the prototype distances is a layer
    of torch and a field of the model. *)
Record ProtoPNet := mkProtoPNet {
  classifier : Tensor2 → Tensor2
}.

(** [ProtoPNet.forward], [ProtoPNet.predict_probs] and [ProtoPNet.predict];
    [all_dists] is what the prototype layer returned for the batch. *)
Definition pnet_forward (self : ProtoPNet) (all_dists : Tensor2) : Tensor2 :=
  let x := classifier self all_dists in
  mkTensor2 (n_cols x) (map log_softmax (rows x)).

Definition pnet_predict_probs (self : ProtoPNet) (all_dists : Tensor2) : Tensor2 :=
  let x := pnet_forward self all_dists in
  mkTensor2 (n_cols x) (map softmax (rows x)).

Definition pnet_predict (self : ProtoPNet) (all_dists : Tensor2) : exn + list nat :=
  for_each argmax (rows (pnet_predict_probs self all_dists)).

End Models.
End Proto.

(** ** [src/prototree/models.py] *)
Module Prototree.
Section Models.
Context `{Collaborators}.

(** [ancestor_similarities] is a reference to a Python list object: the
    rationalizations built while the list is still being appended to share
    it.  The heap maps a reference to the list's current content. *)
Record LeafRationalization := mkRationalization {
  ancestor_similarities : nat;
  label : nat
}.

Abbreviation ListHeap := (list (list ImageProtoSimilarity)).

Definition new_list (heap : ListHeap) : nat * ListHeap := (length heap, heap ++ [[]]).
Definition list_append (ref : nat) (s : ImageProtoSimilarity) (heap : ListHeap)
    : ListHeap :=
  alter (λ l, l ++ [s]) ref heap.
Definition deref (heap : ListHeap) (ref : nat) : list ImageProtoSimilarity :=
  nth ref heap [].

(** The inner [for leaf_ancestor in leaf_ancestors] loop, with the statements
    that the source places in its body. *)
Fixpoint rationalize_ancestors (node_to_proto_idx : gmap NodeRef nat)
    (store : LeafStore) (x_i : Image) (predicting_leaf : NodeRef)
    (dists_i : list DistMap) (patches_i : Patches) (ancestor_similarities : nat)
    (leaf_ancestors : list NodeRef)
    (state : ListHeap * list LeafRationalization)
    : exn + (ListHeap * list LeafRationalization) :=
  match leaf_ancestors with
  | [] => ret state
  | leaf_ancestor :: rest =>
      let '(heap, rationalizations) := state in
      node_proto_idx ← dict_get node_to_proto_idx leaf_ancestor ;
      node_distances ← seq_get dists_i node_proto_idx ;
      let similarity := img_proto_similarity leaf_ancestor x_i node_distances patches_i in
      let heap := list_append ancestor_similarities similarity heap in
      let rationalization :=
        mkRationalization ancestor_similarities
          (predicted_label (dist_params (store predicting_leaf))) in
      let rationalizations := rationalizations ++ [rationalization] in
      rationalize_ancestors node_to_proto_idx store x_i predicting_leaf dists_i
        patches_i ancestor_similarities rest (heap, rationalizations)
  end.

(** The outer loop over the zipped batch. *)
Fixpoint rationalize_batch (node_to_proto_idx : gmap NodeRef nat) (store : LeafStore)
    (batch : list (Image * NodeRef * list DistMap * Patches))
    (state : ListHeap * list LeafRationalization)
    : exn + (ListHeap * list LeafRationalization) :=
  match batch with
  | [] => ret state
  | (x_i, predicting_leaf, dists_i, patches_i) :: rest =>
      let '(heap, rationalizations) := state in
      let leaf_ancestors := ancestors predicting_leaf in
      let '(ancestor_similarities, heap) := new_list heap in
      state ← rationalize_ancestors node_to_proto_idx store x_i predicting_leaf
                dists_i patches_i ancestor_similarities leaf_ancestors
                (heap, rationalizations) ;
      rationalize_batch node_to_proto_idx store rest state
  end.

(** [ProtoTree.rationalize]: the returned list, and the heap through which the
    caller reads each rationalization's [ancestor_similarities]. *)
Definition rationalize (node_to_proto_idx : gmap NodeRef nat) (store : LeafStore)
    (x : list Image) (predicting_leaves : list NodeRef)
    (distances : list (list DistMap)) (patches : list Patches)
    : exn + (ListHeap * list LeafRationalization) :=
  rationalize_batch node_to_proto_idx store
    (zip (zip (zip x predicting_leaves) distances) patches) ([], []).

Fixpoint get_leaf_for_sample (node_to_probs : gmap NodeRef NodeProbabilities)
    (cur_node : Tree) (p : NodeRef) (sample_idx : nat) : exn + NodeRef :=
  match cur_node with
  | TLeaf => ret p
  | TInternal l r =>
      cur_probs ← dict_get node_to_probs p ;
      lefts ← log_p_left cur_probs ;
      log_p_left ← seq_get lefts sample_idx ;
      if Rgt_dec log_p_left neg_log_2
      then get_leaf_for_sample node_to_probs l (false :: p) sample_idx
      else get_leaf_for_sample node_to_probs r (true :: p) sample_idx
  end.

Definition _get_predicting_leaves_greedily (root : Node)
    (node_to_probs : gmap NodeRef NodeProbabilities) : exn + list NodeRef :=
  root_probs ← dict_get node_to_probs (position root) ;
  let batch_size := batch_size root_probs in
  for_each (get_leaf_for_sample node_to_probs (subtree root) (position root))
           (seq 0 batch_size).

Definition _get_max_p_arrival_leaves (leaves : list NodeRef)
    (node_to_probs : gmap NodeRef NodeProbabilities) : exn + list NodeRef :=
  log_p_arrivals ← for_each (λ leaf, np ← dict_get node_to_probs leaf ;
                                      ret (log_p_arrival np)) leaves ;
  log_p_arrivals ← cat_cols log_p_arrivals ;
  predicting_leaf_idx ← for_each argmax (rows log_p_arrivals) ;
  for_each (seq_get leaves) predicting_leaf_idx.

Definition get_predicting_leaves (root : Node)
    (node_to_probs : gmap NodeRef NodeProbabilities) (sampling_strategy : string)
    : exn + list NodeRef :=
  if decide (sampling_strategy = "sample_max"%string)
  then _get_max_p_arrival_leaves (leaves root) node_to_probs
  else if decide (sampling_strategy = "greedy"%string)
  then _get_predicting_leaves_greedily root node_to_probs
  else raise ValueError.


(** [ProtoTree] of this file holds the tree and the prototype indices
    itself. *)
Record ProtoTree := mkProtoTree {
  num_classes : nat;
  tree_root : Node;
  node_to_proto_idx : gmap NodeRef nat;
  training : bool
}.

Definition _get_node_to_log_p_right (self : ProtoTree) (similarities : Tensor2)
    : exn + gmap NodeRef Tensor :=
  items ← for_each (λ '(node, i), c ← column similarities i ; ret (node, tneg c))
                   (map_to_list (node_to_proto_idx self)) ;
  ret (list_to_map items).

Fixpoint add_strict_descendants (node_to_log_p_right : gmap NodeRef Tensor)
    (node : Tree) (p : NodeRef) (result : gmap NodeRef NodeProbabilities)
    : exn + gmap NodeRef NodeProbabilities :=
  match node with
  | TLeaf => ret result
  | TInternal l r =>
      n_probs ← dict_get result p ;
      let log_p_right_right := node_to_log_p_right !! (true :: p) in
      let log_p_right_left := node_to_log_p_right !! (false :: p) in
      log_p_arrival_left ← log_p_arrival_left n_probs ;
      log_p_arrival_right ← log_p_arrival_right n_probs ;
      let result := <[false :: p := mkProbs log_p_arrival_left log_p_right_left]> result in
      let result := <[true :: p := mkProbs log_p_arrival_right log_p_right_right]> result in
      result ← add_strict_descendants node_to_log_p_right l (false :: p) result ;
      add_strict_descendants node_to_log_p_right r (true :: p) result
  end.

Definition _node_to_probs_from_p_right (node_to_log_p_right : gmap NodeRef Tensor)
    (root : Node) : exn + gmap NodeRef NodeProbabilities :=
  root_log_p_right ← dict_get node_to_log_p_right (position root) ;
  let root_probs := mkProbs (zeros_like root_log_p_right) (Some root_log_p_right) in
  let result := {[ position root := root_probs ]} in
  add_strict_descendants node_to_log_p_right (subtree root) (position root) result.

(** [ProtoTree.get_node_to_probs]; [similarities] is what the prototype layer
    returned for the batch. *)
Definition get_node_to_probs (self : ProtoTree) (similarities : Tensor2)
    : exn + gmap NodeRef NodeProbabilities :=
  node_to_log_p_right ← _get_node_to_log_p_right self similarities ;
  _node_to_probs_from_p_right node_to_log_p_right (tree_root self).

Definition forward (self : ProtoTree) (store : LeafStore) (similarities : Tensor2)
    (sampling_strategy : string)
    : exn + (Tensor2 * gmap NodeRef NodeProbabilities * option (list NodeRef)) :=
  node_to_probs ← get_node_to_probs self similarities ;
  if decide (sampling_strategy = "distributed"%string) then
    let predicting_leaves := None in
    let logits := node_forward (tree_root self) store node_to_probs in
    ret (logits, node_to_probs, predicting_leaves)
  else if negb (training self) &&
          (bool_decide (sampling_strategy = "sample_max"%string)
           || bool_decide (sampling_strategy = "greedy"%string)) then
    predicting_leaves ← get_predicting_leaves (tree_root self) node_to_probs
                                              sampling_strategy ;
    logits ← cat_rows (map (λ leaf, y_logits (dist_params (store leaf)))
                           predicting_leaves) ;
    ret (logits, node_to_probs, Some predicting_leaves)
  else raise ValueError.

(** [ProtoTree.explain]; iterating over [predicting_leaves = None] raises
    [TypeError]. *)
Definition explain (self : ProtoTree) (store : LeafStore) (similarities : Tensor2)
    (x : list Image) (distances : list (list DistMap)) (patches : list Patches)
    (sampling_strategy : string)
    : exn + (Tensor2 * gmap NodeRef NodeProbabilities * option (list NodeRef)
             * (ListHeap * list LeafRationalization)) :=
  '(logits, node_to_probs, predicting_leaves) ←
      forward self store similarities sampling_strategy ;
  leaf_rationalizations ←
    match predicting_leaves with
    | Some leaves =>
        rationalize (node_to_proto_idx self) store x leaves distances patches
    | None => raise TypeError
    end ;
  ret (logits, node_to_probs, predicting_leaves, leaf_rationalizations).

Definition predict (self : ProtoTree) (store : LeafStore) (similarities : Tensor2)
    (sampling_strategy : string) : exn + list nat :=
  '(logits, _, _) ← forward self store similarities sampling_strategy ;
  for_each argmax (rows logits).

Definition predict_proba (self : ProtoTree) (store : LeafStore)
    (similarities : Tensor2) (strategy : string) : exn + Tensor2 :=
  '(logits, _, _) ← forward self store similarities strategy ;
  ret (mkTensor2 (n_cols logits) (map softmax (rows logits))).

(** [ProtoPNet] of this file: [forward] returns the classifier output as it
    is. *)
Record ProtoPNet := mkProtoPNet {
  classifier : Tensor2 → Tensor2
}.

Definition pnet_forward (self : ProtoPNet) (similarities : Tensor2) : Tensor2 :=
  classifier self similarities.

Definition pnet_predict_proba (self : ProtoPNet) (similarities : Tensor2) : Tensor2 :=
  let x := pnet_forward self similarities in
  mkTensor2 (n_cols x) (map softmax (rows x)).

Definition pnet_predict (self : ProtoPNet) (similarities : Tensor2) : exn + list nat :=
  for_each argmax (rows (pnet_predict_proba self similarities)).
End Models.
End Prototree.


(** ** [src/core/eval.py]

    The functions of this file use a model through [eval], [forward],
    [predict], [classifier] and [proto_base.forward], as the classes of
    [src/proto/models.py] provide them.  A batch of images is given by what the
    prototype layer returns for it.  Progress bars are not part of the
    embedding, and of the log messages only the values that [single_leaf_eval]
    reports. *)
Module CoreEval.

(** The exceptions of the model files, and those that only this file raises. *)
Inductive error : Set :=
  | Raised (e : exn)
  | UnboundLocalError
  | ZeroDivisionError
  | AssertionError.

#[global] Instance error_bind : MBind (sum error) := λ A B (k : A → error + B) m,
  match m with inl e => inl e | inr a => k a end.

Definition lift {A} (m : exn + A) : error + A :=
  match m with inl e => inl (Raised e) | inr a => inr a end.

(** One item of a data loader: the images [sample[0]], the labels [sample[1]],
    the paths [sample[2]] and the modified images [sample[3]], a dict in
    insertion order. *)
Record Sample := mkSample {
  sample_x : Tensor2;
  sample_y : list nat;
  sample_path : list string;
  sample_x_mods : list (string * Tensor2)
}.

(** A [pd.DataFrame] with the five columns of the explanations, by rows. *)
Record Row := mkRow {
  image : string;
  prototype : nat;
  modification : string;
  delta : R;
  orig_similarity : R
}.
Abbreviation DataFrame := (list Row).

(** The five lists of [data] in [prototypes_explanation]. *)
Record Columns := mkColumns {
  col_image : list string;
  col_prototype : list nat;
  col_modification : list string;
  col_delta : list R;
  col_orig_similarity : list R
}.

(** [pd.DataFrame(data)]: fails on columns of different lengths. *)
Definition data_frame (data : Columns) : error + DataFrame :=
  let n := length (col_image data) in
  if decide (length (col_prototype data) = n ∧ length (col_modification data) = n ∧
             length (col_delta data) = n ∧ length (col_orig_similarity data) = n)
  then inr (zip_with (λ '(i, p, m, d) o, mkRow i p m d o)
              (zip (zip (zip (col_image data) (col_prototype data))
                        (col_modification data)) (col_delta data))
              (col_orig_similarity data))
  else inl (Raised ValueError).

(** [abs(dists - dists_mod)] for [dists] of shape [(1, n)], with torch's
    broadcasting. *)
Definition abs_difference (dists_row : Tensor) (n : nat) (dists_mod : Tensor2)
    : error + list (list R) :=
  if decide (n = n_cols dists_mod) then
    inr (map (λ r, zip_with (λ a b, Rabs (a - b)) dists_row r) (rows dists_mod))
  else if decide (n_cols dists_mod = 1%nat) then
    inr (map (λ r, map (λ a, Rabs (a - nth 0 r 0)) dists_row) (rows dists_mod))
  else if decide (n = 1%nat) then
    inr (map (λ r, map (λ b, Rabs (nth 0 dists_row 0 - b)) r) (rows dists_mod))
  else inl (Raised RuntimeError).

(** The loop of [prototypes_explanation] over [x_mods.items()]. *)
Fixpoint explanation_columns (dists_row : Tensor) (n_proto : nat) (path : list string)
    (x_mods : list (string * Tensor2)) (data : Columns) : error + Columns :=
  match x_mods with
  | [] => inr data
  | (mod_, dists_mod) :: rest =>
      local_scores ← abs_difference dists_row n_proto dists_mod ;
      let data := mkColumns
        (col_image data ++ concat (replicate n_proto path))
        (col_prototype data ++ seq 0 n_proto)
        (col_modification data ++ replicate n_proto mod_)
        (col_delta data ++ concat local_scores)
        (col_orig_similarity data ++ dists_row) in
      explanation_columns dists_row n_proto path rest data
  end.

Definition prototypes_explanation (dists : Tensor2) (path : list string)
    (x_mods : list (string * Tensor2)) : error + DataFrame :=
  match rows dists with
  | [dists_row] =>
      let data := mkColumns [] [] [] [] [] in
      let n_proto := n_cols dists in
      data ← explanation_columns dists_row n_proto path x_mods data ;
      data_frame data
  | _ => inl AssertionError
  end.

(** [(y_pred == y).sum().item() / len(y)] *)
Definition batch_accuracy (y_pred y : list nat) : error + R :=
  hits ← lift (tensor_eq y_pred y) ;
  if decide (length y = 0%nat) then inl ZeroDivisionError
  else inr (INR (tensor_sum hits) / INR (length y)).

(** What the loops do after [y_pred] is known; [avg_acc] is [None] while the
    variable is unbound. *)
Definition account (n_batches batch_num : nat) (y_pred y : list nat)
    (total_acc : R) (avg_acc : option R) : error + (R * option R) :=
  batch_acc ← batch_accuracy y_pred y ;
  let total_acc := total_acc + batch_acc in
  if decide (Z.of_nat batch_num = (Z.of_nat n_batches - 1)%Z)
  then inr (total_acc, Some (total_acc / INR n_batches))
  else inr (total_acc, avg_acc).

(** The [if explain:] block that extends [df_explanations]. *)
Definition explain_batch (explain : bool) (sample : Sample)
    (df_explanations : DataFrame) : error + DataFrame :=
  if explain then
    let path := sample_path sample in
    let x_mods := sample_x_mods sample in
    let dists := sample_x sample in
    df_explanations_batch ← prototypes_explanation dists path x_mods ;
    inr (df_explanations ++ df_explanations_batch)
  else inr df_explanations.

(** [return avg_acc, df_explanations] or [return avg_acc]. *)
Definition result (explain : bool) (avg_acc : option R) (df_explanations : DataFrame)
    : error + (R * option DataFrame) :=
  match avg_acc with
  | None => inl UnboundLocalError
  | Some avg_acc => inr (avg_acc, if explain then Some df_explanations else None)
  end.

(** The loop of [eval_protopnet_model] over [enumerate(tqdm_loader)]. *)
Fixpoint protopnet_loop (model : Proto.ProtoPNet) (explain : bool) (n_batches : nat)
    (batch_num : nat) (samples : list Sample) (total_acc : R) (avg_acc : option R)
    (df_explanations : DataFrame) : error + (option R * DataFrame) :=
  match samples with
  | [] => inr (avg_acc, df_explanations)
  | sample :: rest =>
      let x := sample_x sample in
      let y := sample_y sample in
      df_explanations ← explain_batch explain sample df_explanations ;
      y_pred ← lift (if explain
                     then for_each argmax
                            (map softmax (map log_softmax
                               (rows (Proto.classifier model x))))
                     else Proto.pnet_predict model x) ;
      '(total_acc, avg_acc) ← account n_batches batch_num y_pred y total_acc avg_acc ;
      protopnet_loop model explain n_batches (S batch_num) rest total_acc avg_acc
        df_explanations
  end.

Definition eval_protopnet_model (model : Proto.ProtoPNet) (data_loader : list Sample)
    (explain : bool) : error + (R * option DataFrame) :=
  let total_acc := 0 in
  let n_batches := length data_loader in
  '(avg_acc, df_explanations) ←
    protopnet_loop model explain n_batches 0 data_loader total_acc None [] ;
  result explain avg_acc df_explanations.

Section Trees.
Context `{Collaborators}.

(** [model.eval()] *)
Definition eval_mode (model : Proto.ProtoTree) : Proto.ProtoTree :=
  Proto.mkProtoTree (Proto.tree_section model) false.

(** The loop of [eval_prototree_model] over [enumerate(tqdm_loader)]; [model]
    is in evaluation mode. *)
Fixpoint prototree_loop (model : Proto.ProtoTree) (store : LeafStore)
    (strategy : string) (explain : bool) (n_batches : nat)
    (batch_num : nat) (samples : list Sample) (total_acc : R) (avg_acc : option R)
    (df_explanations : DataFrame) : error + (option R * DataFrame) :=
  match samples with
  | [] => inr (avg_acc, df_explanations)
  | sample :: rest =>
      let x := sample_x sample in
      let y := sample_y sample in
      '(logits, _, predicting_leaves) ← lift (Proto.forward model store x strategy) ;
      df_explanations ← explain_batch explain sample df_explanations ;
      y_pred ← lift (for_each argmax (rows logits)) ;
      '(total_acc, avg_acc) ← account n_batches batch_num y_pred y total_acc avg_acc ;
      prototree_loop model store strategy explain n_batches (S batch_num) rest
        total_acc avg_acc df_explanations
  end.

Definition eval_prototree_model (model : Proto.ProtoTree) (store : LeafStore)
    (data_loader : list Sample) (strategy : string) (explain : bool)
    : error + (R * option DataFrame) :=
  let model := eval_mode model in
  let total_acc := 0 in
  let n_batches := length data_loader in
  '(avg_acc, df_explanations) ←
    prototree_loop model store strategy explain n_batches 0 data_loader total_acc
      None [] ;
  result explain avg_acc df_explanations.

(** The models that [eval_model] tells apart with [isinstance]; a tree comes
    with the parameters of its leaves. *)
Inductive Model :=
  | IsProtoPNet (model : Proto.ProtoPNet)
  | IsProtoTree (model : Proto.ProtoTree) (store : LeafStore)
  | IsOther.

Definition eval_model (model : Model) (data_loader : list Sample) (strategy : string)
    (explain : bool) : error + (R * option DataFrame) :=
  match model with
  | IsProtoPNet model => eval_protopnet_model model data_loader explain
  | IsProtoTree model store =>
      eval_prototree_model model store data_loader strategy explain
  | IsOther => inl (Raised TypeError)
  end.

(** The value of [avg_fidelity]: a quotient of a count by a count is a real
    number, [inf] or [nan]. *)
Inductive FloatVal := Real (r : R) | Inf | NaN.

Definition float_div (k d : nat) : FloatVal :=
  if decide (d = 0%nat) then (if decide (k = 0%nat) then NaN else Inf)
  else Real (INR k / INR d).

Definition float_add (a b : FloatVal) : FloatVal :=
  match a, b with
  | NaN, _ | _, NaN => NaN
  | Inf, _ | _, Inf => Inf
  | Real r, Real s => Real (r + s)
  end.

(** The loop of [eval_fidelity]; [tree] is in evaluation mode. *)
Fixpoint fidelity_loop (tree : Proto.ProtoTree) (store : LeafStore)
    (test_strategy ref_strategy : string) (n_batches : nat) (samples : list Sample)
    (avg_fidelity : FloatVal) : error + FloatVal :=
  match samples with
  | [] => inr avg_fidelity
  | sample :: rest =>
      let x := sample_x sample in
      let y := sample_y sample in
      y_pred_reference ← lift (Proto.predict tree store x ref_strategy) ;
      y_pred_test ← lift (Proto.predict tree store x test_strategy) ;
      hits ← lift (tensor_eq y_pred_reference y_pred_test) ;
      let batch_fidelity := tensor_sum hits in
      let avg_fidelity :=
        float_add avg_fidelity (float_div batch_fidelity (length y * n_batches)) in
      fidelity_loop tree store test_strategy ref_strategy n_batches rest avg_fidelity
  end.

Definition eval_fidelity (tree : Proto.ProtoTree) (store : LeafStore)
    (data_loader : list Sample) (test_strategy ref_strategy : string)
    : error + FloatVal :=
  let n_batches := length data_loader in
  let tree := eval_mode tree in
  let avg_fidelity := Real 0 in
  fidelity_loop tree store test_strategy ref_strategy n_batches data_loader
    avg_fidelity.

(** [single_leaf_eval]: the accuracy and the fidelity that it logs for its one
    strategy. *)
Definition single_leaf_eval (projected_pruned_tree : Proto.ProtoTree)
    (store : LeafStore) (test_loader : list Sample)
    : error + list (R * FloatVal) :=
  let test_strategies := ["sample_max"%string] in
  (fix loop (strategies : list string) : error + list (R * FloatVal) :=
     match strategies with
     | [] => inr []
     | strategy :: rest =>
         '(acc, _) ← eval_model (IsProtoTree projected_pruned_tree store) test_loader
                       strategy false ;
         fidelity ← eval_fidelity projected_pruned_tree store test_loader strategy
                      "distributed" ;
         logged ← loop rest ;
         inr ((acc, fidelity) :: logged)
     end) test_strategies.

End Trees.
End CoreEval.

(** ** [src/util/net.py]

    A feature network is given by what the functions read of it:
    [str(convnet).upper()] and the kinds of [convnet.modules()]. *)
Module Net.

Inductive Layer :=
  | Conv2d (out_channels : nat)
  | BatchNorm2d (num_features : nat)
  | OtherLayer.

Record ConvNet := mkConvNet {
  upper_name : string;
  modules : list Layer
}.

(** [s.startswith(p)] *)
Definition startswith (s p : string) : bool := String.prefix p s.

(** [l[-1]] *)
Definition last_item {A} (l : list A) : exn + A :=
  match last l with
  | Some a => ret a
  | None => raise IndexError
  end.

Definition conv_out_channels (ms : list Layer) : list nat :=
  omap (λ i, match i with Conv2d c => Some c | _ => None end) ms.

Definition batch_norm_num_features (ms : list Layer) : list nat :=
  omap (λ i, match i with BatchNorm2d f => Some f | _ => None end) ms.

Definition num_out_channels (convnet : ConvNet) : exn + nat :=
  let convnet_name := upper_name convnet in
  if startswith convnet_name "VGG" || startswith convnet_name "RES" then
    last_item (conv_out_channels (modules convnet))
  else if startswith convnet_name "DENSE" then
    last_item (batch_norm_num_features (modules convnet))
  else raise ValueError.

End Net.

(** ** [util/net.py] *)
Module LegacyNet.

(** [Exception] itself, beside the exceptions of the other files. *)
Inductive error : Set :=
  | Raised (e : exn)
  | Exception.

Definition lift {A} (m : exn + A) : error + A :=
  match m with inl e => inl (Raised e) | inr a => inr a end.

Definition get_add_on_layer_in_channels (features : Net.ConvNet) : error + nat :=
  let features_name := Net.upper_name features in
  if Net.startswith features_name "VGG" || Net.startswith features_name "RES" then
    lift (Net.last_item (Net.conv_out_channels (Net.modules features)))
  else if Net.startswith features_name "DENSE" then
    lift (Net.last_item (Net.batch_norm_num_features (Net.modules features)))
  else inl Exception.

(** [freeze]: the [requires_grad] flags of [params_to_freeze] after the
    call. *)
Definition freeze (epoch : Z) (params_to_freeze : list bool) (freeze_epochs : Z)
    : list bool :=
  if decide (freeze_epochs > 0)%Z then
    if decide (epoch = 1)%Z then map (λ _, false) params_to_freeze
    else if decide (epoch = freeze_epochs + 1)%Z then map (λ _, true) params_to_freeze
    else params_to_freeze
  else params_to_freeze.

End LegacyNet.
(** * Vocabulary of the statements *)

(** [k] lies strictly below [p]: it extends some child position of [p]. *)
Definition below (p k : NodeRef) : Prop := ∃ b, (b :: p) `suffix_of` k.


(** What the propagation establishes at one node: the node has an entry that
    carries the routing log-probabilities given for it, and below an internal
    node the arrival at each child is the arrival at the node plus the
    log-probability of the branch. *)
Definition propagated (m : gmap NodeRef Tensor)
    (r : gmap NodeRef NodeProbabilities) (n : Node) : Prop :=
  ∃ np,
    r !! position n = Some np ∧ log_p_right np = m !! position n ∧
    match subtree n with
    | TLeaf => True
    | TInternal _ _ =>
        ∃ right,
          log_p_right np = Some right ∧
          log_p_arrival <$> r !! (true :: position n)
            = Some (tadd (log_p_arrival np) right) ∧
          log_p_arrival <$> r !! (false :: position n)
            = Some (tadd (log_p_arrival np) (map log1mexp right))
    end.

(** * Small inputs *)

(** The tree of depth 1. *)
Definition stump : Node := mkNode [] (TInternal TLeaf TLeaf).

(** The tree of depth 2. *)
Definition sapling : Node := mkNode [] (perfect 2).

(** Collaborators over one-point data: leaf logits are the parameters
    themselves. *)
Definition plain_collaborators : Collaborators := {|
  Image := unit; DistMap := unit; Patches := unit; PatchMatch := unit;
  closest_patch := λ _ _ _, tt;
  y_logits := λ params, params;
  predicted_label := λ _, 0%nat;
  node_forward := λ _ _ _, mkTensor2 0 []
|}.

(** Sample [i] can be routed at an internal node: the node's entry has routing
    log-probabilities that cover the sample. *)
Definition routed (node_to_probs : gmap NodeRef NodeProbabilities) (i : nat)
    (n : Node) : Prop :=
  is_internal n = true →
  ∃ np right, node_to_probs !! position n = Some np ∧
              log_p_right np = Some right ∧ (i < length right)%nat.


(** One sample that arrives at both leaves of [stump] with the same
    log-probability. *)
Definition even_probs : gmap NodeRef NodeProbabilities :=
  {[ [false] := mkProbs [-1] None; [true] := mkProbs [-1] None ]}.

(** Every tensor of the mapping covers a batch of [n] samples. *)
Definition uniform (n : nat) (r : gmap NodeRef NodeProbabilities) : Prop :=
  map_Forall (λ _ np,
    length (log_p_arrival np) = n ∧
    ∀ right, log_p_right np = Some right → length right = n) r.

(** The prototype indices cover the internal nodes of the tree and stay
    within the given number of prototype channels. *)
Definition indexed (root : Node) (node_to_proto_idx : gmap NodeRef nat)
    (channels : nat) : Prop :=
  (∀ n, n ∈ descendant_internal_nodes root →
        is_Some (node_to_proto_idx !! position n)) ∧
  map_Forall (λ _ i, (i < channels)%nat) node_to_proto_idx.

(** A section over [stump], as [TreeSection.__init__] builds it for depth 1 and
    two classes. *)
Definition stump_section : Proto.TreeSection :=
  Proto.mkTreeSection 2 stump {[ [] := 0%nat ]} 0 (/ 2).

(** Every leaf holds two parameters and has been updated once. *)
Definition flat_store : LeafStore := λ _, mkLeaf [0; 0] 1.

(** A model over [stump_section], in inference mode and in training mode. *)
Definition stump_model (training : bool) : Proto.ProtoTree :=
  Proto.mkProtoTree stump_section training.

(** Similarities of one image, and of an empty batch, to the one prototype. *)
Definition one_image : Tensor2 := mkTensor2 1 [[1]].
Definition no_image : Tensor2 := mkTensor2 1 [].

(** The term that sample [b] contributes to class [c] in the leaf update:
    arrival log-probability at the leaf, plus the leaf's logit, plus the
    log-encoding of the true label, minus the batch logit. *)
Definition contribution (arrival leaf_logits : Tensor)
    (y_true_logits : list (list LogVal)) (logits : Tensor2) (b c : nat) : LogVal :=
  lv_sub_fin
    (lv_add (Finite (nth b arrival 0 + nth c leaf_logits 0))
            (nth c (nth b y_true_logits []) NegInf))
    (nth c (nth b (rows logits) []) 0).

(** One sample of class 0 that arrives at the left leaf of [stump] with
    probability one, under uniform batch logits 0. *)
Definition sure_probs : gmap NodeRef NodeProbabilities :=
  {[ [false] := mkProbs [0] None; [true] := mkProbs [0] None ]}.
Definition zero_logits : Tensor2 := mkTensor2 2 [[0; 0]].
Definition class_0_logits : list (list LogVal) := [[Finite 0; NegInf]].

(** Every leaf holds two parameters and has never been updated. *)
Definition fresh_store : LeafStore := λ _, mkLeaf [3; 4] 0.

(** The effective smoothing weight of the next update of a leaf. *)
Definition next_alpha (ts : Proto.TreeSection) (s : LeafState) : R :=
  Rmax (1 / INR (S (dist_param_update_count s))) (Proto.leaf_opt_ewma_alpha ts).


(** The operands of the leaf update have the shapes the program gives them:
    [(batch_size,)], [(num_classes,)], and twice [(batch_size, num_classes)]. *)
Definition batch_shaped (arrival leaf_logits : Tensor)
    (y_true_logits : list (list LogVal)) (logits : Tensor2) : Prop :=
  length arrival = length (rows logits) ∧
  length y_true_logits = length (rows logits) ∧
  length leaf_logits = n_cols logits ∧
  wf_tensor2 logits ∧
  Forall (λ r : list LogVal, length r = n_cols logits) y_true_logits.

(** The log-encoding of the true labels: row [b] is 0 at the label of sample
    [b] and [-inf] elsewhere. *)
Definition label_logits (y_true : list nat) (num_classes : nat) : list (list LogVal) :=
  map (λ label, map (λ c, if Nat.eqb c label then Finite 0 else NegInf)
                    (seq 0 num_classes)) y_true.

(** The prototype indices of [sapling], in pre-order. *)
Definition sapling_idx : gmap NodeRef nat :=
  {[ [] := 0%nat; [false] := 1%nat; [true] := 2%nat ]}.

(** A leaf's parameters and the operands of its update fit together. *)
Definition leaf_shaped `{Collaborators} (s : LeafState) (np : NodeProbabilities)
    (y_true_logits : list (list LogVal)) (logits : Tensor2) : Prop :=
  batch_shaped (log_p_arrival np) (y_logits (dist_params s)) y_true_logits logits ∧
  length (dist_params s) = n_cols logits.

(** The mapping routes a batch of [bs] samples through the tree: the root has
    an entry for the batch, and every internal node has routing
    log-probabilities for the batch. *)
Definition routable (node_to_probs : gmap NodeRef NodeProbabilities) (root : Node)
    (bs : nat) : Prop :=
  (∃ np, node_to_probs !! position root = Some np ∧
         length (log_p_arrival np) = bs) ∧
  ∀ n, n ∈ descendants root → is_internal n = true →
    ∃ np right, node_to_probs !! position n = Some np ∧
                log_p_right np = Some right ∧ length right = bs.
(** * Further vocabulary *)

(** The arrival log-probability of sample [i] at the node with position [k]. *)
Definition arrival_at (r : gmap NodeRef NodeProbabilities) (k : NodeRef) (i : nat) : R :=
  match r !! k with
  | Some np => nth i (log_p_arrival np) 0
  | None => 0
  end.

(** Every given routing log-probability is below zero: every routing
    probability is below one. *)
Definition undecided (m : gmap NodeRef Tensor) : Prop :=
  map_Forall (λ _ right, Forall (λ v, v < 0) right) m.


(** A batch of one image with its distance maps and its patches, over the
    one-point collaborators. *)
Definition one_photo : list (@Image plain_collaborators) := [tt].
Definition one_photo_dists : list (list (@DistMap plain_collaborators)) := [[tt]].
Definition one_photo_patches : list (@Patches plain_collaborators) := [tt].

(** The mass that the samples of class [c] bring to a leaf: for every sample
    of that class, its arrival probability at the leaf times the leaf's
    probability of the class over the predicted probability of the class, all
    three given by their logarithms. *)
Definition class_mass (arrival leaf_logits : Tensor) (y_true : list nat)
    (logits : Tensor2) (c : nat) : R :=
  Rsum (map (λ b, if Nat.eqb (nth b y_true 0%nat) c
                  then exp (nth b arrival 0 + nth c leaf_logits 0
                            - nth c (nth b (rows logits) []) 0)
                  else 0)
            (seq 0 (length (rows logits)))).

(** The distributed prediction for one sample that both leaves of [stump]
    receive with probability one while they hold the logits [3; 4]. *)
Definition mixed_logits : Tensor2 := mkTensor2 2 [[3 + ln 2; 4 + ln 2]].

(** The model of [src/proto/models.py] with the tree, the prototype indices
    and the mode of a model of [src/prototree/models.py]. *)
Definition as_proto (self : Prototree.ProtoTree) (threshold alpha : R)
    : Proto.ProtoTree :=
  Proto.mkProtoTree
    (Proto.mkTreeSection (Prototree.num_classes self) (Prototree.tree_root self)
       (Prototree.node_to_proto_idx self) threshold alpha)
    (Prototree.training self).

Definition as_proto_pnet (self : Prototree.ProtoPNet) : Proto.ProtoPNet :=
  Proto.mkProtoPNet (Prototree.classifier self).

(** The distance maps of one image for the three prototypes of [sapling]. *)
Definition sapling_dists : list (list (@DistMap plain_collaborators)) := [[tt; tt; tt]].

(** A model of [src/prototree/models.py] over [sapling], in inference mode,
    and the similarities of one image to its three prototypes. *)
Definition older_sapling : Prototree.ProtoTree :=
  Prototree.mkProtoTree 2 sapling sapling_idx false.
Definition sapling_image : Tensor2 := mkTensor2 3 [[1; 2; 3]].

(** The fraction of the labels [y] that the predictions [y_pred] hit. *)
Definition accuracy (y_pred y : list nat) : R :=
  INR (tensor_sum (zip_with Nat.eqb y_pred y)) / INR (length y).

(** A loader item with one image of class 0, without modified images. *)
Definition one_sample : CoreEval.Sample :=
  CoreEval.mkSample one_image [0%nat] ["img"%string] [].

(** One modified image, by its distances to the one prototype. *)
Definition one_modification : list (string * Tensor2) :=
  [("blur"%string, mkTensor2 1 [[3]])].

(** A [ProtoPNet] whose classifier returns the distances as they are, and a
    loader item with one image of class 0 at equal distance to two
    prototypes. *)
Definition identity_net : Proto.ProtoPNet := Proto.mkProtoPNet (λ all_dists, all_dists).
Definition level_sample : CoreEval.Sample :=
  CoreEval.mkSample zero_logits [0%nat] ["img"%string] [].

(** A residual network with two convolutions, and a network of an unknown
    family. *)
Definition small_resnet : Net.ConvNet :=
  Net.mkConvNet "RESNET_FEATURES" [Net.Conv2d 64; Net.BatchNorm2d 64; Net.Conv2d 512].
Definition unknown_net : Net.ConvNet := Net.mkConvNet "ALEXNET" [Net.Conv2d 256].

(** Collaborators over one-point data whose distributed prediction gives, for
    every sample of the batch, the logits [0; 0]. *)
Definition level_collaborators : Collaborators := {|
  Image := unit; DistMap := unit; Patches := unit; PatchMatch := unit;
  closest_patch := λ _ _ _, tt;
  y_logits := λ params, params;
  predicted_label := λ _, 0%nat;
  node_forward := λ root _ node_to_probs,
    mkTensor2 2 (match node_to_probs !! position root with
                 | Some np => map (λ _, [0; 0]) (log_p_arrival np)
                 | None => []
                 end)
|}.

(** One sample of class 0 that arrives at the left leaf of [stump] with
    probability one; the right leaf has no entry. *)
Definition left_only_probs : gmap NodeRef NodeProbabilities :=
  {[ [false] := mkProbs [0] None ]}.
(** * Properties *)

(** ** The error monad *)

Lemma bind_inr {A B} (m : exn + A) (k : A → exn + B) (b : B) :
  m ≫= k = inr b ↔ ∃ a, m = inr a ∧ k a = inr b.
Proof.
  destruct m as [e|a]; simpl; split.
  - discriminate.
  - intros (a & Ha & _). discriminate.
  - eauto.
  - intros (a' & Ha & Hk). by simplify_eq.
Qed.

Lemma dict_get_inr `{Countable K} {V} (d : gmap K V) k v :
  dict_get d k = inr v ↔ d !! k = Some v.
Proof. unfold dict_get. destruct (d !! k); simpl; unfold ret, raise; naive_solver. Qed.

Lemma seq_get_inr {A} (l : list A) i v : seq_get l i = inr v ↔ l !! i = Some v.
Proof. unfold seq_get. destruct (l !! i); simpl; unfold ret, raise; naive_solver. Qed.

Lemma for_each_inr {A B} (f : A → exn + B) (l : list A) (bs : list B) :
  for_each f l = inr bs ↔ Forall2 (λ a b, f a = inr b) l bs.
Proof.
  revert bs. induction l as [|a l IH]; intros bs; simpl.
  - unfold ret. split; [intros [= <-]; constructor | by inversion 1].
  - rewrite bind_inr. split.
    + intros (b & Hb & Hrest). apply bind_inr in Hrest as (bs' & Hbs & [= <-]).
      constructor; [done | by apply IH].
    + inversion 1 as [|? b ? bs' Hb Hrest]; subst. exists b. split; [done|].
      apply bind_inr. exists bs'. split; [by apply IH | done].
Qed.

Lemma lookup_map {A B} (f : A → B) (l : list A) (i : nat) :
  map f l !! i = f <$> l !! i.
Proof. revert i. induction l as [|a l IH]; intros [|i]; simpl; auto. Qed.

Lemma for_each_total {A B} (f : A → exn + B) (g : A → B) (l : list A) :
  Forall (λ a, f a = inr (g a)) l → for_each f l = inr (map g l).
Proof.
  intros Hl. apply for_each_inr. induction Hl; simpl; by constructor.
Qed.

Lemma for_each_exists {A B} (f : A → exn + B) (l : list A) :
  (∀ a, a ∈ l → ∃ b, f a = inr b) → ∃ bs, for_each f l = inr bs.
Proof.
  induction l as [|a l IH]; intros Hall; simpl; [by eexists|].
  destruct (Hall a) as [b Hb]; [by left|]. rewrite Hb. simpl.
  destruct IH as [bs Hbs]; [intros a' Ha'; apply Hall; by right|].
  rewrite Hbs. simpl. by eexists.
Qed.

(** ** Positions *)

Lemma suffix_branch (p k1 k2 : NodeRef) :
  (false :: p) `suffix_of` k1 → (true :: p) `suffix_of` k2 → k1 ≠ k2.
Proof.
  intros [a ->] [b ->] Heq. apply (f_equal reverse) in Heq.
  rewrite !reverse_app, !reverse_cons in Heq.
  rewrite <- !(assoc_L (++)) in Heq. apply (inj (app (reverse p))) in Heq.
  discriminate.
Qed.

Lemma not_below_self (p : NodeRef) : ¬ below p p.
Proof. intros [b Hs]. apply suffix_length in Hs. simpl in Hs. lia. Qed.

Lemma not_below_sibling (p : NodeRef) (b c : bool) : ¬ below (b :: p) (c :: p).
Proof. intros [d Hs]. apply suffix_length in Hs. simpl in Hs. lia. Qed.

Lemma below_child (p k : NodeRef) (b : bool) : below (b :: p) k → below p k.
Proof.
  intros [c Hs]. exists b. etrans; [|exact Hs]. by apply suffix_cons_r.
Qed.

Lemma not_below_other_branch (p k : NodeRef) (b : bool) :
  (b :: p) `suffix_of` k → ¬ below (negb b :: p) k.
Proof.
  intros Hk [c Hs].
  assert ((negb b :: p) `suffix_of` k) as Hk'.
  { etrans; [|exact Hs]. by apply suffix_cons_r. }
  destruct b; simpl in *.
  - by eapply suffix_branch.
  - by eapply suffix_branch.
Qed.

Lemma descendants_at_suffix (t : Tree) (p : NodeRef) (n : Node) :
  n ∈ descendants_at t p → p `suffix_of` position n.
Proof.
  revert p. induction t as [|l IHl r IHr]; intros p; simpl.
  - intros ->%list_elem_of_singleton. done.
  - rewrite elem_of_cons, elem_of_app. intros [-> | [Hn | Hn]]; [done | |].
    + etrans; [|by apply IHl]. by apply suffix_cons_r.
    + etrans; [|by apply IHr]. by apply suffix_cons_r.
Qed.

Lemma descendants_at_self (t : Tree) (p : NodeRef) : mkNode p t ∈ descendants_at t p.
Proof. destruct t; simpl; apply elem_of_cons; by left. Qed.

Lemma leaves_at_descendants (t : Tree) (p k : NodeRef) :
  k ∈ leaves_at t p ↔ mkNode k TLeaf ∈ descendants_at t p.
Proof.
  revert p. induction t as [|l IHl r IHr]; intros p; simpl.
  - rewrite !list_elem_of_singleton. split; [by intros -> | by intros [= ->]].
  - rewrite elem_of_cons, !elem_of_app, IHl, IHr.
    split; [auto | by intros [[=] | ?]].
Qed.

(** ** Probability propagation *)

Section Propagation.
Implicit Types (m : gmap NodeRef Tensor) (r : gmap NodeRef NodeProbabilities).

Lemma propagated_is_Some m r n : propagated m r n → is_Some (r !! position n).
Proof. intros (np & -> & _). eauto. Qed.

Lemma propagated_internal m r n :
  propagated m r n → is_internal n = true →
  ∃ arrival right, r !! position n = Some (mkProbs arrival (Some right)).
Proof.
  intros (np & Hnp & _ & Hchildren) Hint. unfold is_internal, is_leaf in Hint.
  destruct (subtree n); [done|]. destruct Hchildren as (right & Hright & _).
  destruct np as [arrival right']. simpl in Hright. subst right'. eauto.
Qed.

Lemma propagated_frame m r r' n (q : NodeRef) :
  (∀ k, ¬ below q k → r' !! k = r !! k) →
  (∀ b, ¬ below q (b :: position n)) → ¬ below q (position n) →
  propagated m r n → propagated m r' n.
Proof.
  intros Hframe Hc Hn (np & Hnp & Hright & Hchildren). exists np.
  rewrite Hframe by done. split; [done|]. split; [done|].
  destruct (subtree n); [done|]. destruct Hchildren as (right & ? & ? & ?).
  exists right. rewrite !Hframe by auto. done.
Qed.

Lemma add_strict_descendants_spec m (t : Tree) (p : NodeRef) r np :
  r !! p = Some np → log_p_right np = m !! p →
  (∀ n, n ∈ descendants_at t p → is_internal n = true → is_Some (m !! position n)) →
  ∃ r', Proto.add_strict_descendants m t p r = inr r' ∧
        (∀ k, ¬ below p k → r' !! k = r !! k) ∧
        (∀ n, n ∈ descendants_at t p → propagated m r' n).
Proof.
  revert p r np. induction t as [|l IHl rt IHr]; intros p r np Hp Hright Hm.
  - exists r. simpl. split; [done|]. split; [done|].
    intros n ->%list_elem_of_singleton. exists np. simpl. done.
  - destruct (Hm (mkNode p (TInternal l rt))) as [lpr Hlpr];
      [apply descendants_at_self | done |]. simpl in Hlpr.
    destruct np as [arrival right_]; simpl in Hright.
    assert (right_ = Some lpr) as -> by congruence.
    set (np_l := mkProbs (tadd arrival (map log1mexp lpr)) (m !! (false :: p))).
    set (np_r := mkProbs (tadd arrival lpr) (m !! (true :: p))).
    set (r1 := <[true :: p := np_r]> (<[false :: p := np_l]> r)).
    assert (r1 !! p = Some (mkProbs arrival (Some lpr))) as Hp1.
    { unfold r1. rewrite !lookup_insert_ne; [done | |];
        intros Heq; apply (f_equal length) in Heq; simpl in Heq; lia. }
    assert (r1 !! (false :: p) = Some np_l) as Hl1.
    { unfold r1. rewrite lookup_insert_ne by done. apply lookup_insert_eq. }
    assert (r1 !! (true :: p) = Some np_r) as Hr1.
    { unfold r1. apply lookup_insert_eq. }
    destruct (IHl (false :: p) r1 np_l) as (r2 & Hrun2 & Hframe2 & Hprop2);
      [done | done | |].
    { intros n Hn. apply Hm. simpl. rewrite elem_of_cons, elem_of_app. auto. }
    destruct (IHr (true :: p) r2 np_r) as (r3 & Hrun3 & Hframe3 & Hprop3);
      [ | done | |].
    { rewrite Hframe2; [done|]. apply not_below_sibling. }
    { intros n Hn. apply Hm. simpl. rewrite elem_of_cons, elem_of_app. auto. }
    exists r3. split; [|split].
    + simpl. unfold dict_get. rewrite Hp. simpl.
      unfold log_p_arrival_left, log_p_left, log_p_arrival_right. simpl.
      fold np_l np_r r1. rewrite Hrun2. simpl. exact Hrun3.
    + intros k Hk. rewrite Hframe3, Hframe2.
      * unfold r1. rewrite !lookup_insert_ne; [done | |];
          intros <-; apply Hk; eexists; done.
      * intros Hb. apply Hk. by eapply below_child.
      * intros Hb. apply Hk. by eapply below_child.
    + intros n. simpl. rewrite elem_of_cons, elem_of_app.
      intros [-> | [Hn | Hn]].
      * exists (mkProbs arrival (Some lpr)). simpl.
        rewrite (Hframe3 p), (Hframe2 p), Hp1
          by (intros Hb; eapply not_below_self; by eapply below_child).
        split; [done|]. split; [done|]. exists lpr.
        rewrite (Hframe3 (true :: p)), (Hframe2 (true :: p)), Hr1
          by (apply not_below_self || apply not_below_sibling).
        rewrite (Hframe3 (false :: p)), (Hframe2 (false :: p)), Hl1
          by (apply not_below_self || apply not_below_sibling).
        done.
      * apply (propagated_frame m r2 r3 n (true :: p)); [done | | | by apply Hprop2].
        -- intros b. apply (not_below_other_branch p _ false).
           apply suffix_cons_r. by eapply descendants_at_suffix.
        -- apply (not_below_other_branch p _ false). by eapply descendants_at_suffix.
      * by apply Hprop3.
Qed.

Lemma node_to_probs_spec m (root : Node) :
  (∀ n, n ∈ descendant_internal_nodes root → is_Some (m !! position n)) →
  is_internal root = true →
  ∃ result right,
    Proto._node_to_probs_from_p_right m root = inr result ∧
    m !! position root = Some right ∧
    result !! position root = Some (mkProbs (zeros_like right) (Some right)) ∧
    (∀ n, n ∈ descendants root → propagated m result n).
Proof.
  intros Hm Hroot.
  assert (∀ n, n ∈ descendants root → is_internal n = true → is_Some (m !! position n))
    as Hm'.
  { intros n Hn Hi. apply Hm. unfold descendant_internal_nodes.
    by apply list_elem_of_filter. }
  destruct (Hm' root) as [right Hright]; [|done|].
  { destruct root; apply descendants_at_self. }
  set (root_probs := mkProbs (zeros_like right) (Some right)).
  destruct (add_strict_descendants_spec m (subtree root) (position root)
              {[ position root := root_probs ]} root_probs)
    as (result & Hrun & Hframe & Hprop);
    [apply lookup_singleton_eq | by simpl | exact Hm' |].
  exists result, right. split; [|split; [done|split; [|done]]].
  - unfold Proto._node_to_probs_from_p_right, dict_get. rewrite Hright. simpl.
    exact Hrun.
  - rewrite Hframe by apply not_below_self. apply lookup_singleton_eq.
Qed.

Lemma add_strict_descendants_uniform (n : nat) m
    (t : Tree) (p : NodeRef) r r' :
  map_Forall (λ _ c, length c = n) m → uniform n r →
  Proto.add_strict_descendants m t p r = inr r' → uniform n r'.
Proof.
  intros Hm. revert p r r'. induction t as [|l IHl rt IHr]; intros p r r' Hr; simpl.
  - by intros [= <-].
  - intros (np & Hnp%dict_get_inr & Hrest)%bind_inr.
    apply bind_inr in Hrest as (al & Hal & Hrest).
    apply bind_inr in Hrest as (ar & Har & Hrest).
    apply bind_inr in Hrest as (r2 & Hr2 & Hr3).
    destruct (Hr p np Hnp) as [Ha Hright].
    unfold log_p_arrival_left, log_p_left, log_p_arrival_right in Hal, Har.
    destruct (log_p_right np) as [right|]; [|done]. simpl in Hal, Har.
    injection Hal as <-. injection Har as <-.
    specialize (Hright right eq_refl).
    eapply IHr; [|exact Hr3]. eapply IHl; [|exact Hr2].
    apply map_Forall_insert_2; [|apply map_Forall_insert_2; [|done]].
    + split.
      * simpl. unfold tadd. rewrite length_zip_with. lia.
      * intros c Hc. simpl in Hc. by apply (Hm (true :: p)).
    + split.
      * simpl. unfold tadd. rewrite length_zip_with, length_map. lia.
      * intros c Hc. simpl in Hc. by apply (Hm (false :: p)).
Qed.

Lemma node_to_probs_uniform (n : nat) m (root : Node) r :
  map_Forall (λ _ c, length c = n) m →
  Proto._node_to_probs_from_p_right m root = inr r → uniform n r.
Proof.
  intros Hm. unfold Proto._node_to_probs_from_p_right.
  intros (right & Hright%dict_get_inr & Hrun)%bind_inr.
  eapply add_strict_descendants_uniform; [exact Hm | | exact Hrun].
  apply map_Forall_singleton. simpl. apply Hm in Hright. split.
  - unfold zeros_like. by rewrite length_map.
  - by intros c [= <-].
Qed.

End Propagation.

Lemma zeros_like_replicate (t : Tensor) : zeros_like t = replicate (length t) 0.
Proof. unfold zeros_like. induction t as [|x t IH]; simpl; [done | by rewrite IH]. Qed.



(** ** The threshold [-log 2] *)

Lemma exp_neg_log_2 : exp neg_log_2 = / 2.
Proof. unfold neg_log_2. rewrite exp_Ropp, exp_ln by lra. done. Qed.

Lemma neg_log_2_ln : neg_log_2 = ln (/ 2).
Proof. unfold neg_log_2. rewrite ln_Rinv by lra. done. Qed.


(** Below probability one, [p_left > 1/2] is [p_right < 1/2]. *)
Lemma log1mexp_gt (v : R) : v < 0 → log1mexp v > neg_log_2 ↔ v < neg_log_2.
Proof.
  intros Hv. assert (exp v < 1) as He.
  { rewrite <- exp_0. by apply exp_increasing. }
  unfold log1mexp. rewrite neg_log_2_ln at 1. split.
  - intros Hgt. apply ln_lt_inv in Hgt; [|lra|lra].
    apply exp_lt_inv. rewrite exp_neg_log_2. lra.
  - intros Hlt. apply exp_increasing in Hlt. rewrite exp_neg_log_2 in Hlt.
    apply ln_increasing; lra.
Qed.

(** ** Greedy walk *)

Section Greedy.
Implicit Types (ntp : gmap NodeRef NodeProbabilities).

Lemma leaves_at_suffix (t : Tree) (p k : NodeRef) :
  k ∈ leaves_at t p → p `suffix_of` k.
Proof.
  intros Hk%leaves_at_descendants. by apply descendants_at_suffix in Hk.
Qed.

Lemma suffix_cases (p q : NodeRef) :
  p `suffix_of` q → q = p ∨ ∃ c, (c :: p) `suffix_of` q.
Proof.
  intros [k ->]. destruct k as [|c k _] using rev_ind; [by left|].
  right. exists c. exists k. by rewrite <- (assoc_L (++)).
Qed.

Lemma suffix_same_branch (p k : NodeRef) (b c : bool) :
  (b :: p) `suffix_of` k → (c :: p) `suffix_of` k → b = c.
Proof.
  intros Hb Hc. destruct b, c; try done; exfalso.
  - by eapply (suffix_branch p k k).
  - by eapply (suffix_branch p k k).
Qed.

Lemma get_leaf_for_sample_spec ntp (t : Tree) (p : NodeRef) (i : nat) (leaf : NodeRef) :
  Proto.get_leaf_for_sample ntp t p i = inr leaf →
  leaf ∈ leaves_at t p ∧
  ∀ q b, (b :: q) `suffix_of` leaf → p `suffix_of` q →
    ∃ np right v, ntp !! q = Some np ∧ log_p_right np = Some right ∧
                  right !! i = Some v ∧
                  (b = true ↔ ¬ log1mexp v > neg_log_2).
Proof.
  revert p. induction t as [|l IHl r IHr]; intros p; simpl.
  - intros [= <-]. split; [by apply list_elem_of_singleton|].
    intros q b Hq Hp. exfalso.
    apply suffix_length in Hq, Hp. simpl in Hq. lia.
  - intros (np & Hnp%dict_get_inr & Hrest)%bind_inr.
    apply bind_inr in Hrest as (lefts & Hlefts & Hrest).
    apply bind_inr in Hrest as (v' & Hv'%seq_get_inr & Hrest).
    unfold log_p_left in Hlefts.
    destruct (log_p_right np) as [right|] eqn:Hright; [|done].
    injection Hlefts as <-.
    rewrite lookup_map in Hv'.
    apply fmap_Some in Hv' as (v & Hv & ->).
    assert (∀ (c : bool) (s : Tree),
      (c = true ↔ ¬ log1mexp v > neg_log_2) →
      leaf ∈ leaves_at s (c :: p) →
      (∀ q b, (b :: q) `suffix_of` leaf → (c :: p) `suffix_of` q →
         ∃ np right v, ntp !! q = Some np ∧ log_p_right np = Some right ∧
                       right !! i = Some v ∧ (b = true ↔ ¬ log1mexp v > neg_log_2)) →
      ∀ q b, (b :: q) `suffix_of` leaf → p `suffix_of` q →
         ∃ np right v, ntp !! q = Some np ∧ log_p_right np = Some right ∧
                       right !! i = Some v ∧ (b = true ↔ ¬ log1mexp v > neg_log_2))
      as Hstep.
    { intros c s Hc Hleaf%leaves_at_suffix IH q b Hq Hp.
      destruct (suffix_cases p q Hp) as [-> | [d Hd]].
      - rewrite (suffix_same_branch p leaf b c Hq Hleaf). eauto 10.
      - assert (d = c) as ->.
        { eapply (suffix_same_branch p leaf); [|done].
          etrans; [exact Hd|]. etrans; [|exact Hq]. by apply suffix_cons_r. }
        by apply IH. }
    destruct (Rgt_dec (log1mexp v) neg_log_2) as [Hgt|Hngt].
    + apply IHl in Hrest as [Hleaf IH]. split.
      * apply elem_of_app. by left.
      * apply (Hstep false l); [split; [done | tauto] | done | done].
    + apply IHr in Hrest as [Hleaf IH]. split.
      * apply elem_of_app. by right.
      * apply (Hstep true r); [done | done | done].
Qed.

Lemma get_leaf_for_sample_total ntp (t : Tree) (p : NodeRef) (i : nat) :
  (∀ n, n ∈ descendants_at t p → routed ntp i n) →
  ∃ leaf, Proto.get_leaf_for_sample ntp t p i = inr leaf.
Proof.
  revert p. induction t as [|l IHl r IHr]; intros p Hall; simpl; [by eexists|].
  destruct (Hall (mkNode p (TInternal l r))) as (np & right & Hnp & Hright & Hi);
    [apply descendants_at_self | done |]. simpl in Hnp.
  unfold dict_get. rewrite Hnp. simpl. unfold log_p_left. rewrite Hright. simpl.
  apply lookup_lt_is_Some_2 in Hi as [v Hv].
  unfold seq_get. rewrite lookup_map, Hv. simpl.
  destruct (Rgt_dec (log1mexp v) neg_log_2) as [Hgt|Hngt].
  - apply IHl. intros n Hn. apply Hall. simpl.
    rewrite elem_of_cons, elem_of_app. auto.
  - apply IHr. intros n Hn. apply Hall. simpl.
    rewrite elem_of_cons, elem_of_app. auto.
Qed.

Lemma greedy_total (root : Node) ntp (bs : nat) :
  routable ntp root bs →
  ∃ result, Proto._get_predicting_leaves_greedily root ntp = inr result ∧
            length result = bs ∧
            Forall (λ leaf, leaf ∈ leaves root) result ∧
            ∀ i leaf, result !! i = Some leaf →
              Proto.get_leaf_for_sample ntp (subtree root) (position root) i = inr leaf.
Proof.
  intros [(np & Hnp & Hlen) Hall]. unfold Proto._get_predicting_leaves_greedily.
  unfold dict_get. rewrite Hnp. simpl. unfold batch_size. rewrite Hlen.
  destruct (for_each_exists
    (Proto.get_leaf_for_sample ntp (subtree root) (position root)) (seq 0 bs))
    as [result Hresult].
  { intros i [_ Hi]%elem_of_seq. simpl in Hi.
    apply get_leaf_for_sample_total. intros d Hd Hint.
    destruct (Hall d Hd Hint) as (np' & right & ? & ? & Hr).
    exists np', right. split; [done|]. split; [done|]. lia. }
  exists result. split; [done|]. apply for_each_inr in Hresult.
  assert (∀ i leaf, result !! i = Some leaf →
    Proto.get_leaf_for_sample ntp (subtree root) (position root) i = inr leaf) as Hsel.
  { intros i leaf Hleaf.
    destruct (Forall2_lookup_r _ _ _ _ _ Hresult Hleaf) as (j & Hj & Hrun).
    apply lookup_seq in Hj as [-> _]. done. }
  split; [|split; [|done]].
  - apply Forall2_length in Hresult. by rewrite length_seq in Hresult.
  - apply Forall_lookup. intros i leaf Hleaf.
    apply Hsel, get_leaf_for_sample_spec in Hleaf as [Hin _]. done.
Qed.

End Greedy.






(** ** Arg-max *)

Lemma argmax_from_spec (seen rest : list R) (best_i : nat) (best : R) :
  seen !! best_i = Some best →
  (∀ k x, seen !! k = Some x → x <= best) →
  (∀ k x, (k < best_i)%nat → seen !! k = Some x → x < best) →
  let j := argmax_from best_i best (length seen) rest in
  ∃ top, (seen ++ rest) !! j = Some top ∧
         (∀ k x, (seen ++ rest) !! k = Some x → x <= top) ∧
         (∀ k x, (k < j)%nat → (seen ++ rest) !! k = Some x → x < top).
Proof.
  revert seen best_i best.
  induction rest as [|x rest IH]; intros seen best_i best Hbest Hmax Hfirst; simpl.
  - rewrite app_nil_r. eauto.
  - replace (seen ++ x :: rest) with ((seen ++ [x]) ++ rest)
      by (by rewrite <- (assoc_L (++))).
    replace (S (length seen)) with (length (seen ++ [x]))
      by (rewrite length_app; simpl; lia).
    destruct (Rgt_dec x best) as [Hgt|Hle].
    + apply IH.
      * by rewrite lookup_app_r, Nat.sub_diag.
      * intros k y Hk. apply lookup_app_Some in Hk as [Hk | [_ Hk]].
        -- apply Hmax in Hk. lra.
        -- apply list_lookup_singleton_Some in Hk as [_ <-]. lra.
      * intros k y Hlt Hk. rewrite lookup_app_l in Hk by done.
        apply Hmax in Hk. lra.
    + apply IH.
      * rewrite lookup_app_l; [done|]. by eapply lookup_lt_Some.
      * intros k y Hk. apply lookup_app_Some in Hk as [Hk | [_ Hk]].
        -- by eapply Hmax.
        -- apply list_lookup_singleton_Some in Hk as [_ <-]. lra.
      * intros k y Hlt Hk. apply lookup_lt_Some in Hbest.
        rewrite lookup_app_l in Hk by lia. by eapply Hfirst.
Qed.

(** [argmax] returns the first index that holds the maximum. *)
Lemma argmax_spec (l : list R) (j : nat) :
  argmax l = inr j →
  ∃ top, l !! j = Some top ∧
         (∀ k x, l !! k = Some x → x <= top) ∧
         (∀ k x, (k < j)%nat → l !! k = Some x → x < top).
Proof.
  destruct l as [|x l]; simpl; [done|]. intros [= <-].
  apply (argmax_from_spec [x] l 0 x).
  - done.
  - intros k y Hk. apply list_lookup_singleton_Some in Hk as [_ <-]. lra.
  - intros k y Hk. lia.
Qed.

Lemma argmax_total (l : list R) : l ≠ [] → ∃ j, argmax l = inr j.
Proof. destruct l; [done|]. simpl. eauto. Qed.

(** ** Maximal arrival *)

Lemma cat_cols_inr (cols : list Tensor) (t : Tensor2) :
  cat_cols cols = inr t →
  ∃ bs, cols ≠ [] ∧ Forall (λ c, length c = bs) cols ∧
        rows t = map (λ i, map (λ c, nth i c 0) cols) (seq 0 bs).
Proof.
  unfold cat_cols. destruct cols as [|c cols]; [done|].
  destruct (forallb _ _) eqn:Hall; [|done]. intros [= <-].
  exists (length c). split; [done|]. split; [|done].
  rewrite forallb_forall in Hall. apply Forall_forall.
  intros c' Hc'. apply list_elem_of_In in Hc'. apply Hall in Hc'.
  by apply Nat.eqb_eq in Hc'.
Qed.

Lemma cat_cols_total (cols : list Tensor) (bs : nat) :
  cols ≠ [] → Forall (λ c, length c = bs) cols →
  cat_cols cols
    = inr (mkTensor2 (length cols) (map (λ i, map (λ c, nth i c 0) cols) (seq 0 bs))).
Proof.
  intros Hne Hall. unfold cat_cols. destruct cols as [|c cols]; [done|].
  assert (length c = bs) as Hc by by inversion Hall.
  rewrite Hc.
  replace (forallb _ _) with true; [done|]. symmetry.
  apply forallb_forall. intros c' Hc'. apply list_elem_of_In in Hc'.
  apply Nat.eqb_eq. rewrite Forall_forall in Hall. by apply Hall.
Qed.

Lemma nth_lookup_total (l : list R) (i : nat) :
  (i < length l)%nat → l !! i = Some (nth i l 0).
Proof.
  intros Hi. apply lookup_lt_is_Some_2 in Hi as [x Hx].
  rewrite Hx. f_equal. symmetry. by apply nth_lookup_Some.
Qed.

Lemma max_arrival_spec (leaves : list NodeRef)
    (node_to_probs : gmap NodeRef NodeProbabilities) (result : list NodeRef) :
  Proto._get_max_p_arrival_leaves leaves node_to_probs = inr result →
  ∀ i leaf, result !! i = Some leaf →
    ∃ j np v,
      leaves !! j = Some leaf ∧ node_to_probs !! leaf = Some np ∧
      log_p_arrival np !! i = Some v ∧
      ∀ k leaf', leaves !! k = Some leaf' →
        ∃ np' v', node_to_probs !! leaf' = Some np' ∧
                  log_p_arrival np' !! i = Some v' ∧
                  v' <= v ∧ ((k < j)%nat → v' < v).
Proof.
  unfold Proto._get_max_p_arrival_leaves.
  intros (cols & Hcols%for_each_inr & Hrest)%bind_inr.
  apply bind_inr in Hrest as (t & Hcat & Hrest).
  apply bind_inr in Hrest as (idxs & Hidx%for_each_inr & Hres%for_each_inr).
  apply cat_cols_inr in Hcat as (bs & Hne & Hlen & Hrows).
  intros i leaf Hleaf.
  destruct (Forall2_lookup_r _ _ _ _ _ Hres Hleaf) as (j & Hj & Hsel%seq_get_inr).
  destruct (Forall2_lookup_r _ _ _ _ _ Hidx Hj) as (row & Hrow & Harg).
  rewrite Hrows, lookup_map in Hrow.
  apply fmap_Some in Hrow as (i' & Hi' & ->).
  apply lookup_seq in Hi' as [-> Hi]. simpl in Hi, Harg.
  apply argmax_spec in Harg as (top & Htop & Hmax & Hfirst).
  assert (∀ k leaf', leaves !! k = Some leaf' →
            ∃ np' v', node_to_probs !! leaf' = Some np' ∧
                      log_p_arrival np' !! i = Some v' ∧
                      map (λ c, nth i c 0) cols !! k = Some v') as Hcol.
  { intros k leaf' Hk.
    destruct (Forall2_lookup_l _ _ _ _ _ Hcols Hk) as (c & Hc & Hget).
    apply bind_inr in Hget as (np' & Hnp'%dict_get_inr & [= <-]).
    exists np', (nth i (log_p_arrival np') 0). split; [done|].
    split.
    - apply nth_lookup_total.
      pose proof (Forall_lookup_1 _ _ _ _ Hlen Hc) as Hl. simpl in Hl. lia.
    - by rewrite lookup_map, Hc. }
  destruct (Hcol j leaf Hsel) as (np & v & Hnp & Hv & Hjv).
  rewrite Hjv in Htop. injection Htop as <-.
  exists j, np, v. repeat split; try done.
  intros k leaf' Hk. destruct (Hcol k leaf' Hk) as (np' & v' & Hnp' & Hv' & Hkv).
  exists np', v'. repeat split; try done.
  - by eapply Hmax.
  - intros Hlt. by eapply Hfirst.
Qed.

Lemma max_arrival_total (leaves : list NodeRef)
    (node_to_probs : gmap NodeRef NodeProbabilities) (bs : nat) :
  leaves ≠ [] →
  (∀ leaf, leaf ∈ leaves →
     ∃ np, node_to_probs !! leaf = Some np ∧ length (log_p_arrival np) = bs) →
  ∃ result, Proto._get_max_p_arrival_leaves leaves node_to_probs = inr result ∧
            length result = bs ∧ Forall (λ leaf, leaf ∈ leaves) result.
Proof.
  intros Hne Hall. unfold Proto._get_max_p_arrival_leaves.
  destruct (for_each_exists
              (λ leaf, np ← dict_get node_to_probs leaf; ret (log_p_arrival np)) leaves)
    as [cols Hcols].
  { intros leaf Hleaf. destruct (Hall leaf Hleaf) as (np & Hnp & _).
    unfold dict_get. rewrite Hnp. simpl. by eexists. }
  rewrite Hcols. simpl. apply for_each_inr in Hcols.
  assert (length cols = length leaves) as Hlen by (symmetry; by eapply Forall2_length).
  assert (Forall (λ c, length c = bs) cols) as Hshape.
  { apply Forall_lookup. intros k c Hc.
    destruct (Forall2_lookup_r _ _ _ _ _ Hcols Hc) as (leaf & Hleaf & Hget).
    destruct (Hall leaf) as (np & Hnp & Hbs); [by eapply list_elem_of_lookup_2|].
    unfold dict_get in Hget. rewrite Hnp in Hget. simpl in Hget.
    by injection Hget as <-. }
  rewrite (cat_cols_total cols bs); [|by destruct cols, leaves|done]. simpl.
  destruct (for_each_exists argmax (map (λ i, map (λ c, nth i c 0) cols) (seq 0 bs)))
    as [idxs Hidxs].
  { intros row (i & -> & _)%list_elem_of_fmap. apply argmax_total.
    destruct cols, leaves; done. }
  rewrite Hidxs. simpl. apply for_each_inr in Hidxs.
  assert (Forall (λ j, (j < length leaves)%nat) idxs) as Hbound.
  { apply Forall_lookup. intros k j Hj.
    destruct (Forall2_lookup_r _ _ _ _ _ Hidxs Hj) as (row & Hrow & Harg).
    apply argmax_spec in Harg as (top & Htop%lookup_lt_Some & _).
    rewrite lookup_map in Hrow. apply fmap_Some in Hrow as (i & _ & ->).
    rewrite length_map in Htop. lia. }
  destruct (for_each_exists (seq_get leaves) idxs) as [result Hresult].
  { intros j Hj. apply list_elem_of_lookup in Hj as [k Hk].
    pose proof (Forall_lookup_1 _ _ _ _ Hbound Hk) as Hlt. simpl in Hlt.
    apply lookup_lt_is_Some_2 in Hlt as [leaf Hleaf]. exists leaf.
    by apply seq_get_inr. }
  exists result. split; [done|]. apply for_each_inr in Hresult. split.
  - apply Forall2_length in Hresult, Hidxs. rewrite <- Hresult, <- Hidxs.
    by rewrite length_map, length_seq.
  - apply Forall_lookup. intros k leaf Hleaf.
    destruct (Forall2_lookup_r _ _ _ _ _ Hresult Hleaf) as (j & _ & Hget%seq_get_inr).
    by eapply list_elem_of_lookup_2.
Qed.

(** C7. Under the sample-max strategy, for leaves that all have an entry for
    the batch, there is one selected leaf per sample; it has the maximal
    [log_p_arrival] for that sample among all leaves, and every leaf that comes
    earlier in the leaf enumeration has a strictly smaller one: of several
    maximal leaves the first wins. *)
Theorem max_arrival_leaf_is_first_maximum (leaves : list NodeRef)
    (node_to_probs : gmap NodeRef NodeProbabilities) (bs : nat) :
  leaves ≠ [] →
  (∀ leaf, leaf ∈ leaves →
     ∃ np, node_to_probs !! leaf = Some np ∧ length (log_p_arrival np) = bs) →
  ∃ result,
    Proto._get_max_p_arrival_leaves leaves node_to_probs = inr result ∧
    length result = bs ∧
    ∀ i leaf, result !! i = Some leaf →
      ∃ j np v,
        leaves !! j = Some leaf ∧ node_to_probs !! leaf = Some np ∧
        log_p_arrival np !! i = Some v ∧
        ∀ k leaf', leaves !! k = Some leaf' →
          ∃ np' v', node_to_probs !! leaf' = Some np' ∧
                    log_p_arrival np' !! i = Some v' ∧
                    v' <= v ∧ ((k < j)%nat → v' < v).
Proof.
  intros Hne Hall.
  destruct (max_arrival_total leaves node_to_probs bs Hne Hall)
    as (result & Hrun & Hlen & _).
  exists result. split; [done|]. split; [done|]. by apply max_arrival_spec.
Qed.

Lemma max_arrival_at_tie :
  Proto._get_max_p_arrival_leaves (leaves stump) even_probs = inr [[false]].
Proof.
  unfold Proto._get_max_p_arrival_leaves, even_probs, dict_get. simpl.
  rewrite lookup_insert_eq. rewrite lookup_insert_ne by done.
  rewrite lookup_singleton_eq. simpl.
  destruct (Rgt_dec (-1) (-1)) as [Hgt|_]; [lra | done].
Qed.

Lemma even_probs_cover_leaves :
  ∀ leaf, leaf ∈ leaves stump →
    ∃ np, even_probs !! leaf = Some np ∧ length (log_p_arrival np) = 1%nat.
Proof.
  intros leaf Hleaf. exists (mkProbs [-1] None). split; [|done].
  unfold leaves in Hleaf. simpl in Hleaf.
  apply elem_of_cons in Hleaf as [-> | Hleaf].
  - unfold even_probs. by rewrite lookup_insert_eq.
  - apply list_elem_of_singleton in Hleaf as ->.
    unfold even_probs. rewrite lookup_insert_ne by done.
    by rewrite lookup_singleton_eq.
Qed.

Lemma max_arrival_leaf_is_first_maximum_witness :
  ∃ result,
    Proto._get_max_p_arrival_leaves (leaves stump) even_probs = inr result ∧
    length result = 1%nat ∧
    result !! 0%nat = Some [false].
Proof.
  destruct (max_arrival_leaf_is_first_maximum (leaves stump) even_probs 1)
    as (result & Hrun & Hlen & _).
  - discriminate.
  - exact even_probs_cover_leaves.
  - exists result. split; [exact Hrun|]. split; [exact Hlen|].
    rewrite max_arrival_at_tie in Hrun. injection Hrun as <-. reflexivity.
Defined.

(** ** From similarities to node probabilities *)

Section NodeToProbs.
Context `{Collaborators}.
Implicit Types (ts : Proto.TreeSection) (similarities : Tensor2).

Lemma get_node_to_log_p_right_spec ts similarities :
  map_Forall (λ _ i, (i < n_cols similarities)%nat) (Proto.node_to_proto_idx ts) →
  Proto.get_node_to_log_p_right ts similarities
    = inr ((λ i, tneg (map (λ r, nth i r 0) (rows similarities)))
             <$> Proto.node_to_proto_idx ts).
Proof.
  intros Hidx. unfold Proto.get_node_to_log_p_right.
  rewrite (for_each_total _
    (prod_map Datatypes.id (λ i, tneg (map (λ r, nth i r 0) (rows similarities))))).
  - simpl. unfold ret. f_equal.
    rewrite <- (list_to_map_to_list (Proto.node_to_proto_idx ts)) at 2.
    rewrite <- list_to_map_fmap. done.
  - apply Forall_forall. intros [node i] Hin.
    apply elem_of_map_to_list in Hin.
    apply Hidx in Hin. simpl in Hin. unfold column.
    destruct (decide (i < n_cols similarities)%nat); [done | lia].
Qed.

Lemma get_node_to_probs_spec ts similarities :
  is_internal (Proto.tree_root ts) = true →
  indexed (Proto.tree_root ts) (Proto.node_to_proto_idx ts) (n_cols similarities) →
  ∃ node_to_probs m,
    Proto.get_node_to_log_p_right ts similarities = inr m ∧
    Proto.get_node_to_probs ts similarities = inr node_to_probs ∧
    uniform (length (rows similarities)) node_to_probs ∧
    (∀ n, n ∈ descendants (Proto.tree_root ts) → propagated m node_to_probs n).
Proof.
  intros Hroot [Hcover Hidx]. unfold Proto.get_node_to_probs.
  rewrite get_node_to_log_p_right_spec by done. simpl.
  set (m := _ <$> Proto.node_to_proto_idx ts).
  assert (map_Forall (λ _ c, length c = length (rows similarities)) m) as Hm.
  { intros k c Hc. unfold m in Hc. rewrite lookup_fmap in Hc.
    apply fmap_Some in Hc as (i & _ & ->). unfold tneg. by rewrite !length_map. }
  destruct (node_to_probs_spec m (Proto.tree_root ts))
    as (result & right & Hrun & Hright & Hres & Hprop); [|done|].
  { intros n Hn. unfold m. rewrite lookup_fmap. apply fmap_is_Some. by apply Hcover. }
  exists result, m. split; [done|]. split; [done|]. split; [|done].
  by eapply node_to_probs_uniform.
Qed.

End NodeToProbs.

(** ** [forward] *)

Section Forward.
Context `{Collaborators}.
Implicit Types (self : Proto.ProtoTree) (store : LeafStore) (similarities : Tensor2).

Lemma cat_rows_total (l : list Tensor) (k : nat) :
  l ≠ [] → Forall (λ r, length r = k) l → cat_rows l = inr (mkTensor2 k l).
Proof.
  intros Hne Hall. unfold cat_rows. destruct l as [|r l]; [done|].
  assert (length r = k) as Hr by by inversion Hall.
  rewrite Hr. replace (forallb _ _) with true; [done|]. symmetry.
  apply forallb_forall. intros r' Hr'. apply list_elem_of_In in Hr'.
  apply Nat.eqb_eq. rewrite Forall_forall in Hall. by apply Hall.
Qed.

Lemma propagated_routable (root : Node) (m : gmap NodeRef Tensor)
    (ntp : gmap NodeRef NodeProbabilities) (n : nat) :
  uniform n ntp → (∀ d, d ∈ descendants root → propagated m ntp d) →
  routable ntp root n.
Proof.
  intros Huni Hprop. split.
  - destruct (propagated_is_Some m ntp root) as [np Hnp].
    { apply Hprop. destruct root. apply descendants_at_self. }
    exists np. split; [done|]. by destruct (Huni _ _ Hnp).
  - intros d Hd Hint.
    destruct (propagated_internal m ntp d (Hprop d Hd) Hint) as (arrival & right & Hd').
    exists (mkProbs arrival (Some right)), right. split; [done|]. split; [done|].
    destruct (Huni _ _ Hd') as [_ Hr]. by apply Hr.
Qed.

Lemma leaves_at_nonempty (t : Tree) (p : NodeRef) : leaves_at t p ≠ [].
Proof.
  revert p. induction t as [|l IHl r _]; intros p; simpl; [done|].
  intros [Hl _]%app_eq_nil. by eapply IHl.
Qed.

Lemma forward_distributed self store similarities ntp :
  Proto.get_node_to_probs (Proto.tree_section self) similarities = inr ntp →
  Proto.forward self store similarities "distributed"
    = inr (node_forward (Proto.tree_root (Proto.tree_section self)) store ntp,
           ntp, None).
Proof. intros Hntp. unfold Proto.forward. rewrite Hntp. simpl. done. Qed.

Lemma forward_hard self store similarities (strategy : string) :
  let ts := Proto.tree_section self in
  let root := Proto.tree_root ts in
  Proto.training self = false →
  strategy = "sample_max"%string ∨ strategy = "greedy"%string →
  is_internal root = true →
  indexed root (Proto.node_to_proto_idx ts) (n_cols similarities) →
  rows similarities ≠ [] →
  (∀ leaf, leaf ∈ leaves root →
     length (y_logits (dist_params (store leaf))) = Proto.num_classes ts) →
  ∃ ntp predicting_leaves,
    Proto.get_node_to_probs ts similarities = inr ntp ∧
    uniform (length (rows similarities)) ntp ∧
    Proto.get_predicting_leaves root ntp strategy = inr predicting_leaves ∧
    Proto.forward self store similarities strategy
      = inr (mkTensor2 (Proto.num_classes ts)
               (map (λ leaf, y_logits (dist_params (store leaf))) predicting_leaves),
             ntp, Some predicting_leaves) ∧
    length predicting_leaves = length (rows similarities) ∧
    Forall (λ leaf, leaf ∈ leaves root) predicting_leaves.
Proof.
  intros ts root Htrain Hstrategy Hroot Hidx Hrows Hlogits. subst ts root.
  destruct (get_node_to_probs_spec _ similarities Hroot Hidx)
    as (ntp & m & _ & Hntp & Huni & Hprop).
  set (root := Proto.tree_root (Proto.tree_section self)) in *.
  assert (∃ pl, Proto.get_predicting_leaves root ntp strategy = inr pl ∧
                length pl = length (rows similarities) ∧
                Forall (λ leaf, leaf ∈ leaves root) pl) as (pl & Hpl & Hlen & Hmem).
  { unfold Proto.get_predicting_leaves. destruct Hstrategy as [-> | ->]; simpl.
    - apply max_arrival_total; [apply leaves_at_nonempty|].
      intros leaf Hleaf%leaves_at_descendants.
      destruct (propagated_is_Some m ntp _ (Hprop _ Hleaf)) as [np Hnp].
      exists np. split; [done|]. by destruct (Huni _ _ Hnp).
    - destruct (greedy_total _ ntp _ (propagated_routable _ m ntp _ Huni Hprop))
        as (pl & ? & ? & ? & _). eauto. }
  exists ntp, pl. split; [done|]. split; [done|]. split; [done|].
  split; [|done]. unfold root in *. clear root.
  unfold Proto.forward. rewrite Hntp. simpl.
  rewrite Htrain. simpl.
  destruct (decide (strategy = "distributed"%string)) as [Heq|_].
  { destruct Hstrategy; subst; discriminate. }
  replace (bool_decide (strategy = "sample_max"%string)
           || bool_decide (strategy = "greedy"%string)) with true.
  2:{ destruct Hstrategy; subst; done. }
  rewrite Hpl. simpl.
  rewrite (cat_rows_total _ (Proto.num_classes (Proto.tree_section self))); [done | |].
  - destruct pl; [|done]. simpl in Hlen. destruct (rows similarities); done.
  - apply Forall_lookup. intros i r Hr. rewrite lookup_map in Hr.
    apply fmap_Some in Hr as (leaf & Hleaf & ->). apply Hlogits.
    by apply (Forall_lookup_1 _ _ _ _ Hmem Hleaf).
Qed.

(** On a batch without samples the selection returns the empty list of leaves,
    and [forward] raises on the concatenation of the empty list of leaf
    logits. *)
Lemma forward_hard_empty self store similarities (strategy : string) :
  let ts := Proto.tree_section self in
  let root := Proto.tree_root ts in
  Proto.training self = false →
  strategy = "sample_max"%string ∨ strategy = "greedy"%string →
  is_internal root = true →
  indexed root (Proto.node_to_proto_idx ts) (n_cols similarities) →
  rows similarities = [] →
  ∃ ntp,
    Proto.get_node_to_probs ts similarities = inr ntp ∧
    Proto.get_predicting_leaves root ntp strategy = inr [] ∧
    Proto.forward self store similarities strategy = inl RuntimeError.
Proof.
  intros ts root Htrain Hstrategy Hroot Hidx Hrows. subst ts root.
  destruct (get_node_to_probs_spec _ similarities Hroot Hidx)
    as (ntp & m & _ & Hntp & Huni & Hprop).
  rewrite Hrows in Huni. cbn [length] in Huni.
  set (root := Proto.tree_root (Proto.tree_section self)) in *.
  assert (Proto.get_predicting_leaves root ntp strategy = inr []) as Hpl.
  { unfold Proto.get_predicting_leaves. destruct Hstrategy as [-> | ->]; simpl.
    - destruct (max_arrival_total (leaves root) ntp 0) as (pl & Hpl & Hlen & _).
      + apply leaves_at_nonempty.
      + intros leaf Hleaf%leaves_at_descendants.
        destruct (propagated_is_Some m ntp _ (Hprop _ Hleaf)) as [np Hnp].
        exists np. split; [done|]. by destruct (Huni _ _ Hnp).
      + by destruct pl.
    - destruct (greedy_total _ ntp _ (propagated_routable _ m ntp _ Huni Hprop))
        as (pl & Hpl & Hlen & _). by destruct pl. }
  exists ntp. split; [done|]. split; [done|]. unfold root in *. clear root.
  unfold Proto.forward. rewrite Hntp. simpl. rewrite Htrain. simpl.
  destruct (decide (strategy = "distributed"%string)) as [Heq|_].
  { destruct Hstrategy; subst; discriminate. }
  replace (bool_decide (strategy = "sample_max"%string)
           || bool_decide (strategy = "greedy"%string)) with true.
  2:{ destruct Hstrategy; subst; done. }
  by rewrite Hpl.
Qed.

End Forward.

Section ForwardClaims.
Context `{Collaborators}.
Implicit Types (self : Proto.ProtoTree) (store : LeafStore) (similarities : Tensor2).

Lemma stump_indexed : indexed stump {[ [] := 0%nat ]} 1.
Proof.
  split.
  - intros n Hn. apply list_elem_of_singleton in Hn. subst n. simpl.
    rewrite lookup_singleton_eq. eauto.
  - apply map_Forall_singleton. lia.
Qed.

Lemma stump_probs similarities :
  n_cols similarities = 1%nat →
  ∃ ntp, Proto.get_node_to_probs stump_section similarities = inr ntp.
Proof.
  intros Hcols.
  destruct (get_node_to_probs_spec stump_section similarities)
    as (ntp & m & _ & Hntp & _).
  - done.
  - rewrite Hcols. apply stump_indexed.
  - eauto.
Qed.

(** C5. Once the node probabilities are computed, [forward] raises
    [ValueError] for every strategy name other than ["distributed"],
    ["sample_max"] and ["greedy"], whatever the mode, and for ["sample_max"]
    and ["greedy"] in training mode; ["distributed"] returns in training and in
    inference mode alike. *)
Theorem forward_rejects_invalid_strategy self store similarities
    (strategy : string) (ntp : gmap NodeRef NodeProbabilities) :
  Proto.get_node_to_probs (Proto.tree_section self) similarities = inr ntp →
  (strategy ≠ "distributed"%string → strategy ≠ "sample_max"%string →
   strategy ≠ "greedy"%string →
   Proto.forward self store similarities strategy = inl ValueError) ∧
  (Proto.training self = true →
   strategy = "sample_max"%string ∨ strategy = "greedy"%string →
   Proto.forward self store similarities strategy = inl ValueError) ∧
  (strategy = "distributed"%string →
   ∃ logits, Proto.forward self store similarities strategy
             = inr (logits, ntp, None)).
Proof.
  intros Hntp. unfold Proto.forward. rewrite Hntp. simpl. split; [|split].
  - intros Hd Hs Hg. destruct (decide (strategy = "distributed"%string)); [done|].
    rewrite !bool_decide_eq_false_2 by done.
    by rewrite andb_false_r.
  - intros Htrain Hhard.
    destruct (decide (strategy = "distributed"%string)) as [Heq|_].
    { destruct Hhard; subst; discriminate. }
    by rewrite Htrain.
  - intros ->. simpl. eauto.
Qed.

(** Batches with samples.  For every batch of size [n >= 1], [forward] in
    inference mode under ["sample_max"] or ["greedy"] returns a list of
    exactly [n] leaf references, the one at position [i] being the leaf
    selected for sample [i], each a member of the tree's leaves, with logits
    whose rows are the selected leaves' class-logit vectors in the same
    order; [forward] under ["distributed"] returns [None] in place of the
    predicting-leaf list. *)
Theorem forward_returns_one_leaf_per_sample self store similarities
    (strategy : string) :
  let ts := Proto.tree_section self in
  let root := Proto.tree_root ts in
  is_internal root = true →
  indexed root (Proto.node_to_proto_idx ts) (n_cols similarities) →
  (strategy = "distributed"%string →
   ∃ logits ntp, Proto.forward self store similarities strategy
                 = inr (logits, ntp, None)) ∧
  (Proto.training self = false →
   strategy = "sample_max"%string ∨ strategy = "greedy"%string →
   (1 <= length (rows similarities))%nat →
   (∀ leaf, leaf ∈ leaves root →
      length (y_logits (dist_params (store leaf))) = Proto.num_classes ts) →
   ∃ logits ntp predicting_leaves,
     Proto.forward self store similarities strategy
       = inr (logits, ntp, Some predicting_leaves) ∧
     length predicting_leaves = length (rows similarities) ∧
     (∀ leaf, leaf ∈ predicting_leaves → leaf ∈ leaves root) ∧
     rows logits
       = map (λ leaf, y_logits (dist_params (store leaf))) predicting_leaves ∧
     (strategy = "greedy"%string → ∀ i leaf, predicting_leaves !! i = Some leaf →
        Proto.get_leaf_for_sample ntp (subtree root) (position root) i = inr leaf) ∧
     (strategy = "sample_max"%string → ∀ i leaf, predicting_leaves !! i = Some leaf →
        ∃ np v, ntp !! leaf = Some np ∧ log_p_arrival np !! i = Some v ∧
          ∀ leaf', leaf' ∈ leaves root →
            ∃ np' v', ntp !! leaf' = Some np' ∧ log_p_arrival np' !! i = Some v' ∧
                      v' <= v)).
Proof.
  intros ts root Hroot Hidx. split.
  - intros ->.
    destruct (get_node_to_probs_spec ts similarities Hroot Hidx)
      as (ntp & m & _ & Hntp & _).
    eexists _, ntp. by apply forward_distributed.
  - intros Htrain Hstrategy Hn Hlogits.
    destruct (forward_hard self store similarities strategy)
      as (ntp & pl & Hntp & Huni & Hpl & Hfwd & Hlen & Hmem); try done.
    { destruct (rows similarities); [simpl in Hn; lia | done]. }
    eexists _, ntp, pl. split; [exact Hfwd|]. split; [done|].
    split.
    { intros leaf [k Hk]%list_elem_of_lookup.
      exact (Forall_lookup_1 _ _ _ _ Hmem Hk). }
    split; [done|]. split.
    + intros ->. unfold Proto.get_predicting_leaves in Hpl. simpl in Hpl.
      unfold Proto._get_predicting_leaves_greedily in Hpl.
      apply bind_inr in Hpl as (np & _ & Hall%for_each_inr).
      intros i leaf Hleaf.
      destruct (Forall2_lookup_r _ _ _ _ _ Hall Hleaf) as (j & Hj & Hrun).
      by apply lookup_seq in Hj as [-> _].
    + intros ->. unfold Proto.get_predicting_leaves in Hpl. simpl in Hpl.
      intros i leaf Hleaf.
      destruct (max_arrival_spec _ _ _ Hpl i leaf Hleaf)
        as (j & np & v & Hj & Hnp & Hv & Hmax).
      exists np, v. split; [done|]. split; [done|].
      intros leaf' [k Hk]%list_elem_of_lookup.
      destruct (Hmax k leaf' Hk) as (np' & v' & ? & ? & ? & _). eauto.
Qed.

End ForwardClaims.

(** ** Leaf distribution learner *)

Lemma Rsum_exp_nonneg (l : list LogVal) : 0 <= Rsum (map lv_exp l).
Proof.
  induction l as [|a l IH]; simpl; [lra|].
  assert (0 <= lv_exp a); [|lra].
  destruct a; simpl; [lra|]. left. apply exp_pos.
Qed.

(** Exponentiating a log-sum-exp gives the sum of the exponentials, where
    [-inf] contributes 0. *)
Lemma exp_logsumexp (l : list LogVal) : lv_exp (logsumexp l) = Rsum (map lv_exp l).
Proof.
  unfold logsumexp, lv_log. pose proof (Rsum_exp_nonneg l) as Hge.
  destruct (Rgt_dec (Rsum (map lv_exp l)) 0) as [Hgt|Hngt]; simpl.
  - by apply exp_ln.
  - lra.
Qed.

Lemma leaves_at_NoDup (t : Tree) (p : NodeRef) : NoDup (leaves_at t p).
Proof.
  revert p. induction t as [|l IHl r IHr]; intros p; simpl.
  - apply NoDup_singleton.
  - apply NoDup_app. split; [apply IHl|]. split; [|apply IHr].
    intros k Hl%leaves_at_suffix Hr%leaves_at_suffix.
    by eapply (suffix_branch p k k).
Qed.

Lemma log_contributions_lookup (arrival leaf_logits : Tensor)
    (ytl : list (list LogVal)) (logits : Tensor2) (b c : nat) :
  batch_shaped arrival leaf_logits ytl logits →
  (b < length (rows logits))%nat → (c < n_cols logits)%nat →
  ∃ row, Proto.log_contributions arrival leaf_logits ytl logits !! b = Some row ∧
         row !! c = Some (contribution arrival leaf_logits ytl logits b c).
Proof.
  intros (Ha & Hy & Hl & Hrows & Hys) Hb Hc.
  destruct (lookup_lt_is_Some_2 arrival b) as [a Hab]; [lia|].
  destruct (lookup_lt_is_Some_2 ytl b) as [yr Hyr]; [lia|].
  destruct (lookup_lt_is_Some_2 (rows logits) b) as [lr Hlr]; [lia|].
  pose proof (Forall_lookup_1 _ _ _ _ Hrows Hlr) as Hlen_lr.
  pose proof (Forall_lookup_1 _ _ _ _ Hys Hyr) as Hlen_yr.
  simpl in Hlen_lr, Hlen_yr.
  destruct (lookup_lt_is_Some_2 leaf_logits c) as [ll Hll]; [lia|].
  destruct (lookup_lt_is_Some_2 yr c) as [y Hyc]; [lia|].
  destruct (lookup_lt_is_Some_2 lr c) as [l Hlc]; [lia|].
  eexists. split.
  - unfold Proto.log_contributions. rewrite lookup_zip_with, Hab. simpl.
    assert (zip ytl (rows logits) !! b = Some (yr, lr)) as -> by by apply lookup_zip_Some.
    simpl. done.
  - rewrite lookup_zip_with, Hll. simpl.
    assert (zip yr lr !! c = Some (y, l)) as -> by by apply lookup_zip_Some.
    simpl. unfold contribution.
    rewrite (nth_lookup_Some _ _ _ _ Hab), (nth_lookup_Some _ _ _ _ Hll).
    rewrite (nth_lookup_Some _ _ _ _ Hyr), (nth_lookup_Some _ _ _ _ Hyc).
    rewrite (nth_lookup_Some _ _ _ _ Hlr), (nth_lookup_Some _ _ _ _ Hlc).
    done.
Qed.

Lemma log_contributions_length (arrival leaf_logits : Tensor)
    (ytl : list (list LogVal)) (logits : Tensor2) :
  batch_shaped arrival leaf_logits ytl logits →
  length (Proto.log_contributions arrival leaf_logits ytl logits)
    = length (rows logits).
Proof.
  intros (Ha & Hy & _). unfold Proto.log_contributions.
  rewrite length_zip_with, length_zip. lia.
Qed.

(** Each entry of the update vector is the exponentiated log-sum-exp, over the
    batch, of the samples' contributions to that class. *)
Lemma dist_update_of_lookup (arrival leaf_logits : Tensor)
    (ytl : list (list LogVal)) (logits : Tensor2) (c : nat) :
  batch_shaped arrival leaf_logits ytl logits → (c < n_cols logits)%nat →
  Proto.dist_update_of arrival leaf_logits ytl logits !! c
    = Some (lv_exp (logsumexp
              (map (λ b, contribution arrival leaf_logits ytl logits b c)
                   (seq 0 (length (rows logits)))))).
Proof.
  intros Hshape Hc. unfold Proto.dist_update_of, Proto.logsumexp_dim0.
  rewrite !lookup_map.
  assert (seq 0 (n_cols logits) !! c = Some c) as -> by by apply lookup_seq.
  simpl. do 3 f_equal. apply list_eq. intros b. rewrite !lookup_map.
  destruct (decide (b < length (rows logits))%nat) as [Hb|Hb].
  - destruct (log_contributions_lookup _ _ _ _ b c Hshape Hb Hc) as (row & -> & Hrow).
    assert (seq 0 (length (rows logits)) !! b = Some b) as -> by by apply lookup_seq.
    simpl. f_equal. by apply nth_lookup_Some.
  - rewrite (lookup_ge_None_2 (Proto.log_contributions _ _ _ _))
      by (rewrite log_contributions_length by done; lia).
    rewrite (lookup_ge_None_2 (seq _ _)) by (rewrite length_seq; lia). done.
Qed.

Section Learner.
Context `{Collaborators}.
Implicit Types (ts : Proto.TreeSection) (store : LeafStore)
  (ntp : gmap NodeRef NodeProbabilities) (logits : Tensor2)
  (ytl : list (list LogVal)).

Lemma leaf_update_spec ts store (leaf : NodeRef) ntp logits ytl np :
  ntp !! leaf = Some np →
  let s := store leaf in
  let update :=
    Proto.dist_update_of (log_p_arrival np) (y_logits (dist_params s)) ytl logits in
  Proto._update_leaf_distribution ts store leaf ntp logits ytl
    = inr (<[leaf := mkLeaf
               (zip_with (λ d u, d * (1 - next_alpha ts s) + u) (dist_params s) update)
               (S (dist_param_update_count s))]> store).
Proof.
  intros Hnp. unfold Proto._update_leaf_distribution, dict_get. rewrite Hnp. simpl.
  unfold ret. do 3 f_equal.
  change (map (λ d, d * (1 - next_alpha ts (store leaf))) (dist_params (store leaf)))
    with ((λ d, d * (1 - next_alpha ts (store leaf))) <$> dist_params (store leaf)).
  by rewrite zip_with_fmap_l.
Qed.

Lemma update_each_spec ts store (ls : list NodeRef) ntp logits ytl :
  NoDup ls → (∀ leaf, leaf ∈ ls → is_Some (ntp !! leaf)) →
  ∃ store',
    Proto.update_each ts store ls ntp logits ytl = inr store' ∧
    (∀ leaf, leaf ∈ ls →
       Proto._update_leaf_distribution ts store leaf ntp logits ytl
         = inr (<[leaf := store' leaf]> store)) ∧
    (∀ k, k ∉ ls → store' k = store k).
Proof.
  revert store. induction ls as [|leaf ls IH]; intros store Hnd Hall; simpl.
  - exists store. split; [done|]. split; [|done]. intros leaf Hleaf. by inversion Hleaf.
  - apply NoDup_cons in Hnd as [Hnotin Hnd].
    destruct (Hall leaf) as [np Hnp]; [by left|].
    rewrite (leaf_update_spec ts store leaf ntp logits ytl np Hnp). simpl.
    set (s1 := <[leaf := _]> store).
    destruct (IH s1 Hnd) as (store' & Hrun & Hin & Hout).
    { intros l Hl. apply Hall. by right. }
    exists store'. split; [done|]. split.
    + intros l [-> | Hl]%elem_of_cons.
      * rewrite (leaf_update_spec ts store leaf ntp logits ytl np Hnp).
        rewrite (Hout leaf Hnotin). unfold s1. by rewrite fn_lookup_insert.
      * assert (l ≠ leaf) as Hne by (intros ->; done).
        specialize (Hin l Hl).
        destruct (Hall l) as [np' Hnp']; [by right|].
        rewrite (leaf_update_spec ts s1 l ntp logits ytl np' Hnp') in Hin.
        rewrite (leaf_update_spec ts store l ntp logits ytl np' Hnp').
        unfold s1 in Hin at 1 2 3 4. rewrite !fn_lookup_insert_ne in Hin by done.
        injection Hin as Hin. apply (f_equal (λ f, f l)) in Hin.
        rewrite !fn_lookup_insert in Hin. by rewrite <- Hin.
    + intros k Hk. apply not_elem_of_cons in Hk as [Hne Hk].
      rewrite (Hout k Hk). unfold s1. by rewrite fn_lookup_insert_ne.
Qed.

Lemma lv_log_one_hot (c label : nat) :
  lv_log (if Nat.eqb c label then 1 else 0)
    = if Nat.eqb c label then Finite 0 else NegInf.
Proof.
  unfold lv_log. destruct (Nat.eqb c label).
  - destruct (Rgt_dec 1 0) as [_|Hn]; [by rewrite ln_1 | lra].
  - destruct (Rgt_dec 0 0) as [Hgt|_]; [lra | done].
Qed.

Lemma one_hot_logits (y_true : list nat) (num_classes : nat) :
  Forall (λ label, (label < num_classes)%nat) y_true →
  ∃ encoded, one_hot y_true num_classes = inr encoded ∧
             map (map lv_log) encoded = label_logits y_true num_classes.
Proof.
  intros Hvalid.
  exists (map (λ label, map (λ c, if Nat.eqb c label then 1 else 0)
                            (seq 0 num_classes)) y_true).
  split.
  - unfold one_hot. apply for_each_total. eapply Forall_impl; [exact Hvalid|].
    intros label Hlabel. simpl in *.
    by destruct (decide (label < num_classes)%nat).
  - unfold label_logits. rewrite map_map. apply map_ext. intros label.
    rewrite map_map. apply map_ext. intros c. apply lv_log_one_hot.
Qed.

Lemma zip_with_full_weight (d u : list R) :
  (length u <= length d)%nat → zip_with (λ x y, x * (1 - 1) + y) d u = u.
Proof.
  revert d. induction u as [|y u IH]; intros [|x d] Hlen; simpl in *;
    try done; try lia.
  f_equal; [lra | apply IH; lia].
Qed.

Lemma dist_update_of_length (arrival leaf_logits : Tensor)
    (ytl : list (list LogVal)) (logits : Tensor2) :
  length (Proto.dist_update_of arrival leaf_logits ytl logits) = n_cols logits.
Proof.
  unfold Proto.dist_update_of, Proto.logsumexp_dim0.
  by rewrite !length_map, length_seq.
Qed.

(** C1, amended. The leaf distribution update applies, element-wise and in
    place, the rule [dist_params <- dist_params * (1 - alpha) + update_vector]:
    the update vector is added as it is, not scaled by [alpha].  Here
    [alpha = max(1 / update_count, fixed_ewma_alpha)] with the incremented
    update counter, and [update_vector] is the exponentiated log-sum-exp over
    the batch of (arrival log-probability at the leaf + the leaf's current
    logits + one-hot true-label log-encoding - batch logits). *)
Theorem leaf_update_adds_update_vector ts store (leaf : NodeRef) ntp logits ytl np :
  ntp !! leaf = Some np →
  leaf_shaped (store leaf) np ytl logits →
  let s := store leaf in
  let update_count := S (dist_param_update_count s) in
  let alpha := Rmax (1 / INR update_count) (Proto.leaf_opt_ewma_alpha ts) in
  ∃ store' update_vector,
    Proto._update_leaf_distribution ts store leaf ntp logits ytl = inr store' ∧
    length update_vector = n_cols logits ∧
    (∀ c, (c < n_cols logits)%nat →
       update_vector !! c
         = Some (lv_exp (logsumexp
             (map (λ b, contribution (log_p_arrival np) (y_logits (dist_params s))
                          ytl logits b c)
                  (seq 0 (length (rows logits))))))) ∧
    dist_params (store' leaf)
      = zip_with (λ d u, d * (1 - alpha) + u) (dist_params s) update_vector ∧
    dist_param_update_count (store' leaf) = update_count ∧
    ∀ other, other ≠ leaf → store' other = store other.
Proof.
  intros Hnp [Hshape _] s update_count alpha.
  eexists _, (Proto.dist_update_of (log_p_arrival np) (y_logits (dist_params s))
                ytl logits).
  split; [by apply leaf_update_spec|].
  split; [apply dist_update_of_length|].
  split; [intros c Hc; by apply dist_update_of_lookup|].
  rewrite fn_lookup_insert. simpl. split; [done|]. split; [done|].
  intros other Hne. by rewrite fn_lookup_insert_ne.
Qed.

(** C8. For a leaf whose update counter is 0 before the call and a configured
    [fixed_ewma_alpha <= 1], the effective alpha is [max(1/1, alpha) = 1] and
    one leaf-distribution update makes the leaf's [dist_params] equal the raw
    update vector: the prior [dist_params] contribute nothing. *)
Theorem first_leaf_update_is_raw_update ts store (leaf : NodeRef) ntp logits ytl np :
  ntp !! leaf = Some np →
  leaf_shaped (store leaf) np ytl logits →
  dist_param_update_count (store leaf) = 0%nat →
  Proto.leaf_opt_ewma_alpha ts <= 1 →
  ∃ store',
    Proto._update_leaf_distribution ts store leaf ntp logits ytl = inr store' ∧
    Rmax (1 / INR (S (dist_param_update_count (store leaf))))
         (Proto.leaf_opt_ewma_alpha ts) = 1 ∧
    dist_params (store' leaf)
      = Proto.dist_update_of (log_p_arrival np) (y_logits (dist_params (store leaf)))
          ytl logits.
Proof.
  intros Hnp [_ Hlen] Hcount Halpha.
  assert (next_alpha ts (store leaf) = 1) as Hone.
  { unfold next_alpha. rewrite Hcount. simpl.
    rewrite Rmax_left; [lra|]. lra. }
  eexists. split; [by apply leaf_update_spec|]. split.
  - exact Hone.
  - rewrite fn_lookup_insert. simpl. rewrite Hone.
    apply zip_with_full_weight. rewrite dist_update_of_length. lia.
Qed.

(** C9. Every call to [update_leaf_distributions] increments the update
    counter of every leaf of the tree by exactly 1 and applies the moving
    average update to every leaf, whatever arrival mass the leaf receives in
    the batch; nothing but the leaves is touched. *)
Theorem every_leaf_is_updated ts store (y_true : list nat) logits ntp :
  Forall (λ label, (label < n_cols logits)%nat) y_true →
  (∀ leaf, leaf ∈ leaves (Proto.tree_root ts) →
     ∃ np, ntp !! leaf = Some np ∧
           leaf_shaped (store leaf) np (label_logits y_true (n_cols logits)) logits) →
  ∃ store',
    Proto.update_leaf_distributions ts store y_true logits ntp = inr store' ∧
    (∀ leaf np, leaf ∈ leaves (Proto.tree_root ts) → ntp !! leaf = Some np →
       dist_param_update_count (store' leaf)
         = S (dist_param_update_count (store leaf)) ∧
       dist_params (store' leaf)
         = zip_with (λ d u, d * (1 - next_alpha ts (store leaf)) + u)
             (dist_params (store leaf))
             (Proto.dist_update_of (log_p_arrival np)
                (y_logits (dist_params (store leaf)))
                (label_logits y_true (n_cols logits)) logits)) ∧
    (∀ other, other ∉ leaves (Proto.tree_root ts) → store' other = store other).
Proof.
  intros Hvalid Hall. unfold Proto.update_leaf_distributions.
  destruct (one_hot_logits y_true (n_cols logits) Hvalid) as (encoded & Hone & Henc).
  rewrite Hone. simpl. rewrite Henc.
  destruct (update_each_spec ts store (leaves (Proto.tree_root ts)) ntp logits
              (label_logits y_true (n_cols logits)))
    as (store' & Hrun & Hin & Hout); [apply leaves_at_NoDup | |].
  { intros leaf Hleaf. destruct (Hall leaf Hleaf) as (np & -> & _). eauto. }
  exists store'. split; [done|]. split; [|done].
  intros leaf np Hleaf Hnp. specialize (Hin leaf Hleaf).
  rewrite (leaf_update_spec _ _ _ _ _ _ np Hnp) in Hin.
  injection Hin as Hin. apply (f_equal (λ f, f leaf)) in Hin.
  rewrite !fn_lookup_insert in Hin. by rewrite <- Hin.
Qed.


End Learner.

(** ** Rationalization *)

Lemma elem_of_ancestors (q k : NodeRef) : q ∈ ancestors k ↔ below q k.
Proof.
  unfold below. induction k as [|c k IH]; simpl.
  - split; [by intros ?%elem_of_nil|].
    intros [b Hs]. apply suffix_length in Hs. simpl in Hs. lia.
  - rewrite elem_of_app, list_elem_of_singleton, IH. split.
    + intros [[b Hb] | ->].
      * exists b. by apply suffix_cons_r.
      * by exists c.
    + intros [b Hb]. apply suffix_cons_inv in Hb as [[= -> ->] | Hb]; [by right|].
      left. by exists b.
Qed.

Lemma length_ancestors (k : NodeRef) : length (ancestors k) = length k.
Proof.
  induction k as [|c k IH]; simpl; [done|]. rewrite length_app, IH. simpl. lia.
Qed.

Lemma leaves_at_perfect_length (depth : nat) (p k : NodeRef) :
  k ∈ leaves_at (perfect depth) p → length k = (depth + length p)%nat.
Proof.
  revert p. induction depth as [|d IH]; intros p; simpl.
  - by intros ->%list_elem_of_singleton.
  - intros [Hk | Hk]%elem_of_app; apply IH in Hk; simpl in Hk; lia.
Qed.

(** Every ancestor of a leaf of the tree, from the root of the tree down, is an
    internal node of the tree. *)
Lemma ancestors_internal (t : Tree) (p k q : NodeRef) :
  k ∈ leaves_at t p → q ∈ ancestors k → p `suffix_of` q →
  ∃ n, n ∈ descendants_at t p ∧ position n = q ∧ is_internal n = true.
Proof.
  rewrite elem_of_ancestors.
  revert p. induction t as [|l IHl r IHr]; intros p; simpl.
  - intros ->%list_elem_of_singleton [b Hb] Hq. exfalso.
    apply suffix_length in Hb, Hq. simpl in Hb. lia.
  - intros Hk [b Hb] Hq.
    destruct (suffix_cases p q Hq) as [-> | [c Hc]].
    { exists (mkNode p (TInternal l r)). split; [|done]. apply elem_of_cons. by left. }
    assert ((c :: p) `suffix_of` k) as Hck.
    { etrans; [exact Hc|]. etrans; [|exact Hb]. by apply suffix_cons_r. }
    apply elem_of_app in Hk as [Hk | Hk].
    + pose proof (leaves_at_suffix _ _ _ Hk) as Hs.
      assert (c = false) as -> by by eapply (suffix_same_branch p k).
      destruct (IHl (false :: p) Hk) as (n & Hn & Hpos & Hint); [by exists b | done |].
      exists n. split; [|done]. rewrite elem_of_cons, elem_of_app. auto.
    + pose proof (leaves_at_suffix _ _ _ Hk) as Hs.
      assert (c = true) as -> by by eapply (suffix_same_branch p k).
      destruct (IHr (true :: p) Hk) as (n & Hn & Hpos & Hint); [by exists b | done |].
      exists n. split; [|done]. rewrite elem_of_cons, elem_of_app. auto.
Qed.

(** The right-child flags of the nodes after the root on the way to a node are
    the branch decisions from the root down. *)
Lemma right_child_flags (k : NodeRef) :
  map is_right_child (tail (ancestors k ++ [k])) = reverse k.
Proof.
  induction k as [|c k IH]; simpl; [done|].
  rewrite reverse_cons, <- IH.
  destruct (ancestors k ++ [k]) as [|a rest] eqn:Heq.
  - by destruct (ancestors k).
  - simpl. by rewrite map_app.
Qed.

Section Rationalize.
Context `{Collaborators}.

Lemma rationalize_ancestors_total (root : Node) (idx : gmap NodeRef nat)
    (channels : nat) (x_i : Image) (dists_i : list DistMap) (patches_i : Patches)
    (leaf : NodeRef) :
  position root = [] → indexed root idx channels →
  (channels <= length dists_i)%nat → leaf ∈ leaves root →
  ∃ sims,
    for_each (λ leaf_ancestor,
        node_proto_idx ← dict_get idx leaf_ancestor ;
        node_distances ← seq_get dists_i node_proto_idx ;
        ret (img_proto_similarity leaf_ancestor x_i node_distances patches_i))
      (ancestors leaf) = inr sims ∧
    map internal_node sims = ancestors leaf.
Proof.
  intros Hpos [Hcover Hbound] Hlen Hleaf.
  assert (∀ q, q ∈ ancestors leaf →
            ∃ i d, idx !! q = Some i ∧ dists_i !! i = Some d) as Hok.
  { intros q Hq. unfold leaves in Hleaf. rewrite Hpos in Hleaf.
    destruct (ancestors_internal _ _ _ q Hleaf Hq) as (n & Hn & <- & Hint).
    { apply suffix_nil. }
    destruct (Hcover n) as [i Hi].
    { apply list_elem_of_filter. split; [done|]. unfold descendants. by rewrite Hpos. }
    pose proof (Hbound _ _ Hi) as Hlt. simpl in Hlt.
    destruct (lookup_lt_is_Some_2 dists_i i) as [d Hd]; [lia|]. eauto. }
  induction (ancestors leaf) as [|q qs IH]; [by exists []|].
  destruct (Hok q) as (i & d & Hi & Hd); [by left|].
  destruct IH as (sims & Hrun & Hsims); [intros q' Hq'; apply Hok; by right|].
  cbn [for_each]. rewrite Hrun.
  rewrite (proj2 (dict_get_inr _ _ _) Hi). cbn [mbind exn_bind].
  rewrite (proj2 (seq_get_inr _ _ _) Hd). cbn [mbind exn_bind].
  eexists. split; [done|]. simpl. by rewrite Hsims.
Qed.

(** [ProtoTree.rationalize] of [src/proto/models.py]: for a tree of depth
    [depth], a batch of [n] images and [n] leaves of the tree, one
    rationalization per (image, leaf) pair, each with the [depth >= 1] ancestors
    of its leaf from the root down, and right-child flags taken from the next node
    on the path. *)
Lemma proto_rationalize_spec (ts : Proto.TreeSection) (depth channels : nat)
    (x : list Image) (predicting_leaves : list NodeRef)
    (dists : list (list DistMap)) (patches : list Patches) :
  (1 <= depth)%nat →
  Proto.tree_root ts = mkNode [] (perfect depth) →
  indexed (Proto.tree_root ts) (Proto.node_to_proto_idx ts) channels →
  Forall (λ d, (channels <= length d)%nat) dists →
  Forall (λ leaf, leaf ∈ leaves (Proto.tree_root ts)) predicting_leaves →
  length predicting_leaves = length x → length dists = length x →
  length patches = length x →
  ∃ rationalizations,
    Proto.rationalize ts x predicting_leaves dists patches = inr rationalizations ∧
    length rationalizations = length x ∧
    ∀ i leaf, predicting_leaves !! i = Some leaf →
      ∃ r, rationalizations !! i = Some r ∧
           Proto.leaf r = leaf ∧
           map internal_node (Proto.ancestor_similarities r) = ancestors leaf ∧
           length (Proto.ancestor_similarities r) = depth ∧
           Proto.proto_presents r
             = map is_right_child (tail (ancestors leaf ++ [leaf])) ∧
           Proto.proto_presents r = reverse leaf.
Proof.
  intros Hdepth1 Hroot Hidx Hdists Hleaves Hlen_l Hlen_d Hlen_p.
  unfold Proto.rationalize.
  set (body := λ '(x_i, predicting_leaf, dists_i, patches_i), _).
  set (batch := zip (zip (zip x predicting_leaves) dists) patches).
  assert (∀ i x_i leaf d_i p_i, batch !! i = Some (x_i, leaf, d_i, p_i) →
            predicting_leaves !! i = Some leaf ∧
            ∃ sims, body (x_i, leaf, d_i, p_i) = inr (Proto.mkRationalization sims leaf) ∧
                    map internal_node sims = ancestors leaf) as Hbody.
  { intros i x_i leaf d_i p_i Hi. unfold batch in Hi.
    apply lookup_zip_Some in Hi as [Hi Hp].
    apply lookup_zip_Some in Hi as [Hi Hd].
    apply lookup_zip_Some in Hi as [Hx Hl]. split; [done|].
    destruct (rationalize_ancestors_total (Proto.tree_root ts)
                (Proto.node_to_proto_idx ts) channels x_i d_i p_i leaf)
      as (sims & Hrun & Hsims).
    - by rewrite Hroot.
    - done.
    - by apply (Forall_lookup_1 _ _ _ _ Hdists Hd).
    - by apply (Forall_lookup_1 _ _ _ _ Hleaves Hl).
    - exists sims. split; [|done]. unfold body. rewrite Hrun. done. }
  destruct (for_each_exists body batch) as [rs Hrs].
  { intros [[[x_i leaf] d_i] p_i] [i Hi]%list_elem_of_lookup.
    destruct (Hbody _ _ _ _ _ Hi) as (_ & sims & Hrun & _). eauto. }
  exists rs. split; [done|]. apply for_each_inr in Hrs.
  assert (length batch = length x) as Hlen_b.
  { unfold batch. rewrite !length_zip. lia. }
  split; [apply Forall2_length in Hrs; lia|].
  intros i leaf Hleaf.
  destruct (lookup_lt_is_Some_2 batch i) as [[[[x_i leaf'] d_i] p_i] Hi].
  { apply lookup_lt_Some in Hleaf. lia. }
  destruct (Hbody _ _ _ _ _ Hi) as (Hleaf' & sims & Hrun & Hsims).
  rewrite Hleaf in Hleaf'. injection Hleaf' as <-.
  destruct (Forall2_lookup_l _ _ _ _ _ Hrs Hi) as (r & Hr & Hrun').
  rewrite Hrun in Hrun'. injection Hrun' as <-.
  exists (Proto.mkRationalization sims leaf). split; [done|]. split; [done|].
  split; [done|].
  assert (length leaf = depth) as Hdepth.
  { pose proof (Forall_lookup_1 _ _ _ _ Hleaves Hleaf) as Hin. simpl in Hin.
    rewrite Hroot in Hin. apply leaves_at_perfect_length in Hin. simpl in Hin. lia. }
  assert (Proto.proto_presents (Proto.mkRationalization sims leaf)
            = map is_right_child (tail (ancestors leaf ++ [leaf]))) as Hflags.
  { unfold Proto.proto_presents. simpl. f_equal.
    destruct sims as [|s sims]; simpl in *.
    - apply (f_equal length) in Hsims. rewrite length_ancestors in Hsims.
      simpl in Hsims. lia.
    - rewrite <- Hsims. done. }
  split; [|split; [done|]].
  - simpl. rewrite <- (length_map internal_node), Hsims, length_ancestors. done.
  - rewrite Hflags. apply right_child_flags.
Qed.

End Rationalize.

(** ** The two model files *)

Lemma get_leaf_for_sample_agree (ntp : gmap NodeRef NodeProbabilities) (t : Tree)
    (p : NodeRef) (i : nat) :
  Prototree.get_leaf_for_sample ntp t p i = Proto.get_leaf_for_sample ntp t p i.
Proof.
  revert p. induction t as [|l IHl r IHr]; intros p; simpl; [done|].
  destruct (dict_get ntp p) as [e|np]; simpl; [done|].
  destruct (log_p_left np) as [e|lefts]; simpl; [done|].
  destruct (seq_get lefts i) as [e|v]; simpl; [done|].
  destruct (Rgt_dec v neg_log_2); [apply IHl | apply IHr].
Qed.

Lemma greedy_agree (root : Node) (ntp : gmap NodeRef NodeProbabilities) :
  Prototree._get_predicting_leaves_greedily root ntp
    = Proto._get_predicting_leaves_greedily root ntp.
Proof.
  unfold Prototree._get_predicting_leaves_greedily,
    Proto._get_predicting_leaves_greedily.
  destruct (dict_get ntp (position root)) as [e|np]; simpl; [done|].
  induction (seq 0 (batch_size np)) as [|i rest IH]; simpl; [done|].
  by rewrite get_leaf_for_sample_agree, IH.
Qed.

Lemma max_arrival_agree (ls : list NodeRef) (ntp : gmap NodeRef NodeProbabilities) :
  Prototree._get_max_p_arrival_leaves ls ntp = Proto._get_max_p_arrival_leaves ls ntp.
Proof. reflexivity. Qed.

(** C10. The leaf selection of the two model files is the same function: for
    every root, node-probability mapping and strategy name,
    [get_predicting_leaves] of [src/prototree/models.py] and
    [TreeSection.get_predicting_leaves] of [src/proto/models.py] return the same
    list of leaves or raise the same exception. *)
Theorem get_predicting_leaves_agree (root : Node)
    (ntp : gmap NodeRef NodeProbabilities) (sampling_strategy : string) :
  Prototree.get_predicting_leaves root ntp sampling_strategy
    = Proto.get_predicting_leaves root ntp sampling_strategy.
Proof.
  unfold Prototree.get_predicting_leaves, Proto.get_predicting_leaves.
  destruct (decide (sampling_strategy = "sample_max"%string));
    [apply max_arrival_agree|].
  destruct (decide (sampling_strategy = "greedy"%string)); [apply greedy_agree|].
  done.
Qed.

Lemma new_tree_section_indexed (num_classes depth : nat) (threshold alpha : R)
    (ts : Proto.TreeSection) :
  Proto.new_tree_section num_classes depth threshold alpha = inr ts →
  (1 <= depth)%nat ∧
  Proto.tree_root ts = mkNode [] (perfect depth) ∧
  is_internal (Proto.tree_root ts) = true ∧
  indexed (Proto.tree_root ts) (Proto.node_to_proto_idx ts)
    (length (descendant_internal_nodes (Proto.tree_root ts))).
Proof.
  unfold Proto.new_tree_section, create_tree.
  destruct depth as [|d]; [done|]. cbn [mbind exn_bind ret].
  remember (mkNode [] (perfect (S d))) as root eqn:Hroot.
  intros [= <-]. cbn [Proto.tree_root Proto.node_to_proto_idx].
  split; [lia|]. split; [done|]. split; [by subst root|].
  clear Hroot. split.
  - intros n Hn. apply not_eq_None_Some. intros Hnone.
    apply not_elem_of_list_to_map in Hnone. apply Hnone.
    apply list_elem_of_lookup in Hn as [i Hi].
    apply list_elem_of_fmap. exists (position n, i). split; [done|].
    by apply (elem_of_lookup_imap_2 (λ idx node, (position node, idx))).
  - intros k i Hk. apply elem_of_list_to_map_2 in Hk.
    apply elem_of_lookup_imap_1 in Hk as (j & n & [= -> ->] & Hj).
    by eapply lookup_lt_Some.
Qed.


(** * Further properties *)

(** ** Similarities and prototype indices *)

Lemma for_each_fails {A B} (f : A → exn + B) (l : list A) (e : exn) :
  (∀ a, a ∈ l → f a = inl e ∨ ∃ b, f a = inr b) →
  (∃ a, a ∈ l ∧ f a = inl e) → for_each f l = inl e.
Proof.
  induction l as [|a l IH]; intros Hall (a' & Hin & Hfail); [by inversion Hin|].
  simpl. destruct (Hall a) as [Ha | [b Ha]]; [by left | by rewrite Ha |].
  rewrite Ha. simpl. rewrite IH; [done | |].
  - intros a'' Ha''. apply Hall. by right.
  - apply elem_of_cons in Hin as [Heq | Hin]; [|eauto].
    subst a'. congruence.
Qed.

(** X1. [get_node_to_log_p_right] returns, for every node with a prototype
    index, the negated similarity column of that index when all indices are
    within the similarity channels, and raises [IndexError] as soon as one is
    not. *)
Theorem get_node_to_log_p_right_cases (ts : Proto.TreeSection)
    (similarities : Tensor2) :
  (map_Forall (λ _ i, (i < n_cols similarities)%nat) (Proto.node_to_proto_idx ts) →
   ∃ m, Proto.get_node_to_log_p_right ts similarities = inr m ∧
        ∀ node, m !! node
          = (λ i, map Ropp (map (λ r, nth i r 0) (rows similarities)))
              <$> Proto.node_to_proto_idx ts !! node) ∧
  (∀ node i, Proto.node_to_proto_idx ts !! node = Some i →
             (n_cols similarities <= i)%nat →
   Proto.get_node_to_log_p_right ts similarities = inl IndexError).
Proof.
  split.
  - intros Hidx. eexists. split; [by apply get_node_to_log_p_right_spec|].
    intros node. by rewrite lookup_fmap.
  - intros node i Hnode Hi. unfold Proto.get_node_to_log_p_right.
    rewrite (for_each_fails _ _ IndexError); [done | |].
    + intros [k j] _. unfold column.
      destruct (decide (j < n_cols similarities)%nat); simpl; eauto.
    + exists (node, i). split; [by apply elem_of_map_to_list|].
      unfold column. destruct (decide (i < n_cols similarities)%nat); [lia | done].
Qed.


(** ** The tree built by [TreeSection.__init__] *)

Lemma descendants_at_NoDup (t : Tree) (p : NodeRef) :
  NoDup (position <$> descendants_at t p).
Proof.
  revert p. induction t as [|l IHl r IHr]; intros p; simpl.
  - apply NoDup_singleton.
  - rewrite fmap_app. apply NoDup_cons. split.
    + rewrite elem_of_app.
      intros [Hin | Hin]; apply list_elem_of_fmap in Hin as (n & Hp & Hn);
        apply descendants_at_suffix in Hn; rewrite <- Hp in Hn;
        apply (not_below_self p); eexists; exact Hn.
    + apply NoDup_app. split; [apply IHl|]. split; [|apply IHr].
      intros k Hl Hr.
      apply list_elem_of_fmap in Hl as (n1 & Hp1 & Hn1).
      apply list_elem_of_fmap in Hr as (n2 & Hp2 & Hn2).
      apply descendants_at_suffix in Hn1, Hn2.
      apply (suffix_branch p (position n1) (position n2)); [done | done | congruence].
Qed.

Lemma internal_nodes_NoDup (root : Node) :
  NoDup (position <$> descendant_internal_nodes root).
Proof.
  eapply sublist_NoDup; [apply (descendants_at_NoDup (subtree root) (position root))|].
  apply fmap_sublist, sublist_filter.
Qed.

Lemma internal_nodes_perfect_length (depth : nat) (p : NodeRef) :
  length (filter (λ d, is_internal d = true) (descendants_at (perfect depth) p))
    = (2 ^ depth - 1)%nat.
Proof.
  revert p. induction depth as [|d IH]; intros p; [done|].
  cbn [perfect descendants_at]. rewrite filter_cons_True by done.
  rewrite filter_app, length_cons, length_app, !IH, Nat.pow_succ_r'.
  pose proof (Nat.pow_nonzero 2 d). lia.
Qed.

(** X2. A section built by [TreeSection.__init__] gives a prototype index to
    exactly the internal nodes of its tree; the indices are below
    [2 ** depth - 1], the number of prototypes that [ProtoTree.__init__]
    creates, every index below that number belongs to exactly one node, and so
    the routing probabilities exist for every batch of similarities with that
    many channels. *)
Theorem new_tree_section_prototypes (num_classes depth : nat) (threshold alpha : R)
    (ts : Proto.TreeSection) :
  Proto.new_tree_section num_classes depth threshold alpha = inr ts →
  (∀ p, is_Some (Proto.node_to_proto_idx ts !! p) ↔
        ∃ n, n ∈ descendant_internal_nodes (Proto.tree_root ts) ∧ position n = p) ∧
  (∀ p i, Proto.node_to_proto_idx ts !! p = Some i →
          (i < Proto.num_prototypes depth)%nat) ∧
  (∀ i, (i < Proto.num_prototypes depth)%nat →
        ∃ p, Proto.node_to_proto_idx ts !! p = Some i ∧
             ∀ p', Proto.node_to_proto_idx ts !! p' = Some i → p' = p) ∧
  (∀ similarities, n_cols similarities = Proto.num_prototypes depth →
     ∃ node_to_probs,
       Proto.get_node_to_probs ts similarities = inr node_to_probs ∧
       uniform (length (rows similarities)) node_to_probs).
Proof.
  intros Hnew.
  destruct (new_tree_section_indexed _ _ _ _ _ Hnew) as (Hdepth & Hroot & Hint & Hidx).
  assert (Hlen : length (descendant_internal_nodes (Proto.tree_root ts))
                 = Proto.num_prototypes depth).
  { rewrite Hroot. apply internal_nodes_perfect_length. }
  rewrite Hlen in Hidx.
  assert (Hmap : Proto.node_to_proto_idx ts
                 = list_to_map (imap (λ idx node, (position node, idx))
                     (descendant_internal_nodes (Proto.tree_root ts)))).
  { unfold Proto.new_tree_section in Hnew.
    apply bind_inr in Hnew as (root & Hcreate & Hret). by injection Hret as <-. }
  assert (Hnd : NoDup (imap (λ idx node, (position node, idx))
                         (descendant_internal_nodes (Proto.tree_root ts))).*1).
  { rewrite fmap_imap. unfold compose. simpl.
    rewrite (imap_const position). apply internal_nodes_NoDup. }
  split; [|split; [|split]].
  - intros p. split.
    + intros [i Hi]. rewrite Hmap in Hi. apply elem_of_list_to_map_2 in Hi.
      apply elem_of_lookup_imap_1 in Hi as (j & n & [= -> ->] & Hj).
      exists n. split; [|done]. by eapply list_elem_of_lookup_2.
    + intros (n & Hn & <-). by apply Hidx.
  - intros p i Hp. by apply (proj2 Hidx p i).
  - intros i Hi. rewrite <- Hlen in Hi.
    apply lookup_lt_is_Some_2 in Hi as [n Hn].
    exists (position n). split.
    + rewrite Hmap. apply elem_of_list_to_map_1; [done|].
      by apply (elem_of_lookup_imap_2 (λ idx node, (position node, idx))).
    + intros p' Hp'. rewrite Hmap in Hp'. apply elem_of_list_to_map_2 in Hp'.
      apply elem_of_lookup_imap_1 in Hp' as (j & n' & [= -> ->] & Hj).
      congruence.
  - intros similarities Hcols. rewrite <- Hcols in Hidx.
    destruct (get_node_to_probs_spec ts similarities Hint Hidx)
      as (ntp & m & _ & Hrun & Hu & _).
    by exists ntp.
Qed.

(** ** The routing probabilities *)

Lemma add_strict_descendants_keys m (t : Tree) (p : NodeRef) r r' :
  Proto.add_strict_descendants m t p r = inr r' →
  ∀ k, is_Some (r' !! k) →
    is_Some (r !! k) ∨ ∃ n, n ∈ descendants_at t p ∧ position n = k.
Proof.
  revert p r r'. induction t as [|tl IHl tr IHr]; intros p r r' Hrun k Hk.
  - injection Hrun as <-. by left.
  - cbn [Proto.add_strict_descendants] in Hrun.
    apply bind_inr in Hrun as (np & _ & Hrun).
    apply bind_inr in Hrun as (al & _ & Hrun).
    apply bind_inr in Hrun as (ar & _ & Hrun).
    apply bind_inr in Hrun as (r1 & Hleft & Hright).
    destruct (IHr _ _ _ Hright k Hk) as [Hk1 | (n & Hn & Hpos)].
    + destruct (IHl _ _ _ Hleft k Hk1) as [Hk0 | (n & Hn & Hpos)].
      * destruct (decide (k = true :: p)) as [-> | Hne1].
        { right. exists (mkNode (true :: p) tr). split; [|done].
          cbn [descendants_at]. apply elem_of_cons. right. apply elem_of_app. right.
          apply descendants_at_self. }
        rewrite lookup_insert_ne in Hk0 by done.
        destruct (decide (k = false :: p)) as [-> | Hne2].
        { right. exists (mkNode (false :: p) tl). split; [|done].
          cbn [descendants_at]. apply elem_of_cons. right. apply elem_of_app. left.
          apply descendants_at_self. }
        rewrite lookup_insert_ne in Hk0 by done. by left.
      * right. exists n. split; [|done]. cbn [descendants_at].
        apply elem_of_cons. right. apply elem_of_app. by left.
    + right. exists n. split; [|done]. cbn [descendants_at].
      apply elem_of_cons. right. apply elem_of_app. by right.
Qed.

(** X3. [_node_to_probs_from_p_right] returns a mapping whose keys are exactly
    the nodes of the tree, and each entry carries as [log_p_right] what the
    given mapping holds for that node (nothing for a node that it does not
    have). *)
Theorem node_to_probs_keys (node_to_log_p_right : gmap NodeRef Tensor) (root : Node) :
  is_internal root = true →
  (∀ n, n ∈ descendant_internal_nodes root →
        is_Some (node_to_log_p_right !! position n)) →
  ∃ result,
    Proto._node_to_probs_from_p_right node_to_log_p_right root = inr result ∧
    (∀ k, is_Some (result !! k) ↔ ∃ n, n ∈ descendants root ∧ position n = k) ∧
    (∀ k np, result !! k = Some np →
       log_p_right np = node_to_log_p_right !! k).
Proof.
  intros Hint Hcover.
  destruct (node_to_probs_spec _ root Hcover Hint) as (result & right & Hrun & _ & _ & Hprop).
  exists result. split; [done|].
  assert (Hkeys : ∀ k, is_Some (result !! k) ↔
                       ∃ n, n ∈ descendants root ∧ position n = k).
  { intros k. split.
    - intros Hk. unfold Proto._node_to_probs_from_p_right in Hrun.
      apply bind_inr in Hrun as (c & _ & Hrun).
      destruct (add_strict_descendants_keys _ _ _ _ _ Hrun k Hk) as [Hroot | Hn]; [|done].
      destruct (decide (k = position root)) as [-> | Hne].
      + exists root. split; [|done]. destruct root as [p t]. apply descendants_at_self.
      + rewrite lookup_singleton_ne in Hroot by done. by destruct Hroot.
    - intros (n & Hn & <-). eapply propagated_is_Some. by apply Hprop. }
  split; [done|].
  intros k np Hk. destruct (proj1 (Hkeys k)) as (n & Hn & <-); [by eexists|].
  destruct (Hprop n Hn) as (np' & Hnp' & Hright & _). congruence.
Qed.

Lemma node_to_probs_keys_witness :
  ∃ result,
    Proto._node_to_probs_from_p_right {[ [] := [-1; -2] ]} stump = inr result ∧
    result !! [false; false] = None ∧
    log_p_right <$> result !! [true] = Some None.
Proof.
  destruct (node_to_probs_keys {[ [] := [-1; -2] ]} stump)
    as (result & Hrun & Hkeys & Hright).
  - reflexivity.
  - intros n Hn. apply list_elem_of_singleton in Hn. subst n. simpl.
    rewrite lookup_singleton_eq. eauto.
  - exists result. split; [exact Hrun|]. split.
    + apply eq_None_not_Some. intros Hk. apply Hkeys in Hk as (n & Hn & Hpos).
      unfold descendants in Hn. simpl in Hn.
      repeat (apply elem_of_cons in Hn as [-> | Hn]; [discriminate Hpos|]).
      inversion Hn.
    + destruct (proj2 (Hkeys [true])) as [np Hnp].
      * exists (mkNode [true] TLeaf). split; [|reflexivity].
        unfold descendants. simpl.
        apply elem_of_cons. right. apply elem_of_cons. right.
        apply elem_of_cons. by left.
      * rewrite Hnp. simpl. f_equal. rewrite (Hright _ _ Hnp).
        apply lookup_singleton_ne. discriminate.
Defined.

Lemma nth_tadd (a b : Tensor) (i : nat) :
  (i < length a)%nat → (i < length b)%nat →
  nth i (tadd a b) 0 = nth i a 0 + nth i b 0.
Proof.
  unfold tadd. revert i b.
  induction a as [|x a IH]; intros [|i] [|y b]; simpl; try lia; [done|].
  intros Ha Hb. apply IH; lia.
Qed.

Lemma nth_map_lt (f : R → R) (l : list R) (i : nat) :
  (i < length l)%nat → nth i (map f l) 0 = f (nth i l 0).
Proof.
  intros Hi. rewrite (List.nth_indep _ 0 (f 0)) by (by rewrite length_map).
  apply List.map_nth.
Qed.

Lemma exp_log1mexp (v : R) : v < 0 → exp (log1mexp v) = 1 - exp v.
Proof.
  intros Hv. unfold log1mexp. apply exp_ln.
  assert (exp v < 1) by (rewrite <- exp_0; by apply exp_increasing). lra.
Qed.

Lemma Rsum_app (l1 l2 : list R) : Rsum (l1 ++ l2) = Rsum l1 + Rsum l2.
Proof. induction l1 as [|x l1 IH]; simpl; [lra | rewrite IH; lra]. Qed.

(** Below a node, the arrival probabilities of a sample at the leaves add up to
    its arrival probability at the node. *)
Lemma arrival_mass m r (t : Tree) (p : NodeRef) (bs i : nat) :
  uniform bs r → undecided m → (i < bs)%nat →
  (∀ n, n ∈ descendants_at t p → propagated m r n) →
  Rsum (map (λ leaf, exp (arrival_at r leaf i)) (leaves_at t p))
    = exp (arrival_at r p i).
Proof.
  intros Hu Hm Hi. revert p. induction t as [|tl IHl tr IHr]; intros p Hprop.
  - simpl. lra.
  - cbn [leaves_at]. rewrite map_app, Rsum_app, IHl, IHr.
    2,3: intros n Hn; apply Hprop; cbn [descendants_at]; apply elem_of_cons; right;
         apply elem_of_app; auto.
    destruct (Hprop (mkNode p (TInternal tl tr)))
      as (np & Hnp & Hright & right & Hr & Har & Hal); [apply descendants_at_self|].
    cbn [position subtree] in *.
    destruct (Hu p np Hnp) as [Hlen Hlenr]. specialize (Hlenr right Hr).
    assert (Hv : nth i right 0 < 0).
    { rewrite Hr in Hright. symmetry in Hright. specialize (Hm p right Hright).
      simpl in Hm. eapply (Forall_lookup_1 (λ v, v < 0)); [exact Hm|].
      apply nth_lookup_total. lia. }
    unfold arrival_at. rewrite Hnp.
    destruct (r !! (true :: p)) as [npr|]; [|done]. injection Har as ->.
    destruct (r !! (false :: p)) as [npl|]; [|done]. injection Hal as ->.
    rewrite !nth_tadd by (rewrite ?length_map; lia).
    rewrite nth_map_lt by lia. rewrite !exp_plus, exp_log1mexp by done. lra.
Qed.

(** What [get_node_to_probs] returns for strictly positive similarities. *)
Lemma positive_similarities_route (ts : Proto.TreeSection) (similarities : Tensor2) :
  is_internal (Proto.tree_root ts) = true →
  indexed (Proto.tree_root ts) (Proto.node_to_proto_idx ts) (n_cols similarities) →
  Forall (λ row, ∀ j, (j < n_cols similarities)%nat → 0 < nth j row 0)
         (rows similarities) →
  ∃ node_to_probs m,
    Proto.get_node_to_probs ts similarities = inr node_to_probs ∧
    uniform (length (rows similarities)) node_to_probs ∧
    undecided m ∧
    (∀ n, n ∈ descendants (Proto.tree_root ts) → propagated m node_to_probs n) ∧
    ∀ i, arrival_at node_to_probs (position (Proto.tree_root ts)) i = 0.
Proof.
  intros Hint [Hcover Hbound] Hpos.
  unfold Proto.get_node_to_probs.
  rewrite (get_node_to_log_p_right_spec _ _ Hbound). cbn [mbind exn_bind].
  set (m := (λ i, tneg (map (λ r, nth i r 0) (rows similarities)))
              <$> Proto.node_to_proto_idx ts).
  assert (Hlen : map_Forall (λ (_ : NodeRef) (c : Tensor),
                              length c = length (rows similarities)) m).
  { intros k c Hk. unfold m in Hk. rewrite lookup_fmap in Hk.
    destruct (Proto.node_to_proto_idx ts !! k); [|done]. injection Hk as <-.
    unfold tneg. by rewrite !length_map. }
  assert (Hund : undecided m).
  { intros k c Hk. unfold m in Hk. rewrite lookup_fmap in Hk.
    destruct (Proto.node_to_proto_idx ts !! k) as [j|] eqn:Hj; [|done].
    injection Hk as <-. simpl. unfold tneg.
    apply Forall_forall. intros v Hv.
    apply list_elem_of_In, List.in_map_iff in Hv as (x & <- & Hx).
    apply List.in_map_iff in Hx as (row & <- & Hrow).
    apply list_elem_of_In in Hrow.
    pose proof (proj1 (Forall_forall _ _) Hpos row Hrow j (Hbound _ _ Hj)). lra. }
  destruct (node_to_probs_spec m (Proto.tree_root ts))
    as (result & right & Hrun & Hmroot & Hroot & Hprop); [|done|].
  { intros n Hn. unfold m. rewrite lookup_fmap.
    destruct (Hcover n Hn) as [j ->]. by eexists. }
  exists result, m. split; [done|].
  split; [by apply (node_to_probs_uniform _ _ _ _ Hlen Hrun)|].
  split; [done|]. split; [done|].
  intros i. unfold arrival_at. rewrite Hroot. cbn [log_p_arrival].
  rewrite zeros_like_replicate, nth_lookup.
  destruct (replicate (length right) 0 !! i) as [z|] eqn:Hz; [|done].
  by apply lookup_replicate in Hz as [-> _].
Qed.

(** X4. With strictly positive similarities (routing probabilities below one),
    [get_node_to_probs] conserves probability: every sample arrives at the
    root with log-probability 0, and its arrival probabilities at the leaves
    add up to one. *)
Theorem arrival_probabilities_sum_to_one (ts : Proto.TreeSection)
    (similarities : Tensor2) :
  is_internal (Proto.tree_root ts) = true →
  indexed (Proto.tree_root ts) (Proto.node_to_proto_idx ts) (n_cols similarities) →
  Forall (λ row, ∀ j, (j < n_cols similarities)%nat → 0 < nth j row 0)
         (rows similarities) →
  ∃ node_to_probs,
    Proto.get_node_to_probs ts similarities = inr node_to_probs ∧
    ∀ i, (i < length (rows similarities))%nat →
      arrival_at node_to_probs (position (Proto.tree_root ts)) i = 0 ∧
      Rsum (map (λ leaf, exp (arrival_at node_to_probs leaf i))
                (leaves (Proto.tree_root ts))) = 1.
Proof.
  intros Hint Hidx Hpos.
  destruct (positive_similarities_route ts similarities Hint Hidx Hpos)
    as (ntp & m & Hrun & Hu & Hund & Hprop & Hzero).
  exists ntp. split; [done|]. intros i Hi. split; [done|].
  unfold leaves. rewrite (arrival_mass m ntp _ _ (length (rows similarities)) i);
    [|done..]. by rewrite Hzero, exp_0.
Qed.

(** The greedy walk takes at every node a branch of probability at least one
    half. *)
Lemma greedy_leaf_bound m r (t : Tree) (p : NodeRef) (bs i : nat) (leaf : NodeRef) :
  uniform bs r → undecided m → (i < bs)%nat →
  (∀ n, n ∈ descendants_at t p → propagated m r n) →
  Proto.get_leaf_for_sample r t p i = inr leaf →
  arrival_at r p i - INR (length leaf - length p) * ln 2 <= arrival_at r leaf i.
Proof.
  intros Hu Hm Hi. revert p. induction t as [|tl IHl tr IHr]; intros p Hprop Hrun.
  - injection Hrun as <-. rewrite Nat.sub_diag. simpl. lra.
  - pose proof (get_leaf_for_sample_spec _ _ _ _ _ Hrun) as [Hleaf _].
    cbn [Proto.get_leaf_for_sample] in Hrun.
    destruct (Hprop (mkNode p (TInternal tl tr)))
      as (np & Hnp & Hright & right & Hr & Har & Hal); [apply descendants_at_self|].
    cbn [position subtree] in *.
    destruct (Hu p np Hnp) as [Hlen Hlenr]. specialize (Hlenr right Hr).
    assert (Hv : nth i right 0 < 0).
    { rewrite Hr in Hright. symmetry in Hright. pose proof (Hm p right Hright) as Hneg.
      simpl in Hneg. eapply (Forall_lookup_1 (λ v, v < 0)); [exact Hneg|].
      apply nth_lookup_total. lia. }
    unfold dict_get in Hrun. rewrite Hnp in Hrun. cbn [mbind exn_bind ret] in Hrun.
    unfold log_p_left in Hrun. rewrite Hr in Hrun. cbn [mbind exn_bind ret] in Hrun.
    unfold seq_get in Hrun.
    rewrite lookup_map, (nth_lookup_total right i) in Hrun by lia.
    cbn [fmap option_fmap option_map mbind exn_bind ret] in Hrun.
    assert (Hstep : ∀ b, (b :: p) `suffix_of` leaf →
              INR (length leaf - length p) = INR (length leaf - length (b :: p)) + 1).
    { intros b Hsuf. apply suffix_length in Hsuf. cbn [length] in *.
      rewrite <- S_INR. f_equal. lia. }
    assert (0 < ln 2) as Hln by (rewrite <- ln_1; apply ln_increasing; lra).
    destruct (Rgt_dec (log1mexp (nth i right 0)) neg_log_2) as [Hgt | Hngt].
    + assert (Hsuf : (false :: p) `suffix_of` leaf).
      { apply get_leaf_for_sample_spec in Hrun as [Hin _]. by apply leaves_at_suffix in Hin. }
      apply IHl in Hrun.
      2:{ intros n Hn. apply Hprop. cbn [descendants_at]. apply elem_of_cons. right.
          apply elem_of_app. by left. }
      rewrite (Hstep _ Hsuf).
      assert (arrival_at r (false :: p) i
              = arrival_at r p i + log1mexp (nth i right 0)) as Heq.
      { unfold arrival_at. rewrite Hnp.
        destruct (r !! (false :: p)) as [npl|]; [|done]. injection Hal as ->.
        rewrite nth_tadd by (rewrite ?length_map; lia). by rewrite nth_map_lt by lia. }
      rewrite Heq in Hrun. unfold neg_log_2 in Hgt. lra.
    + assert (Hsuf : (true :: p) `suffix_of` leaf).
      { apply get_leaf_for_sample_spec in Hrun as [Hin _]. by apply leaves_at_suffix in Hin. }
      apply IHr in Hrun.
      2:{ intros n Hn. apply Hprop. cbn [descendants_at]. apply elem_of_cons. right.
          apply elem_of_app. by right. }
      rewrite (Hstep _ Hsuf).
      assert (arrival_at r (true :: p) i = arrival_at r p i + nth i right 0) as Heq.
      { unfold arrival_at. rewrite Hnp.
        destruct (r !! (true :: p)) as [npr|]; [|done]. injection Har as ->.
        by rewrite nth_tadd by lia. }
      rewrite Heq in Hrun.
      assert (¬ nth i right 0 < neg_log_2) as Hge.
      { intros Hlt. apply Hngt. by apply log1mexp_gt. }
      unfold neg_log_2 in Hge. lra.
Qed.

(** X5. With strictly positive similarities both hard strategies return leaves
    for the batch, and for every sample the leaf of the greedy walk is reached
    with probability at least [2 ** -depth] ([depth] being the depth of that
    leaf below the root), while the leaf of [sample_max] is reached with at
    least the probability of the greedy leaf. *)
Theorem hard_leaves_are_likely (ts : Proto.TreeSection) (similarities : Tensor2) :
  let root := Proto.tree_root ts in
  is_internal root = true →
  indexed root (Proto.node_to_proto_idx ts) (n_cols similarities) →
  Forall (λ row, ∀ j, (j < n_cols similarities)%nat → 0 < nth j row 0)
         (rows similarities) →
  ∃ node_to_probs greedy best,
    Proto.get_node_to_probs ts similarities = inr node_to_probs ∧
    Proto.get_predicting_leaves root node_to_probs "greedy" = inr greedy ∧
    Proto.get_predicting_leaves root node_to_probs "sample_max" = inr best ∧
    length greedy = length (rows similarities) ∧
    length best = length (rows similarities) ∧
    ∀ i g b, greedy !! i = Some g → best !! i = Some b →
      - INR (length g - length (position root)) * ln 2 <= arrival_at node_to_probs g i ∧
      arrival_at node_to_probs g i <= arrival_at node_to_probs b i.
Proof.
  intros root Hint Hidx Hpos.
  destruct (positive_similarities_route ts similarities Hint Hidx Hpos)
    as (ntp & m & Hrun & Hu & Hund & Hprop & Hzero).
  fold root in Hprop, Hzero.
  pose proof (propagated_routable root m ntp _ Hu Hprop) as Hroutable.
  destruct (greedy_total root ntp _ Hroutable) as (greedy & Hgreedy & Hglen & Hgin & Hgsel).
  destruct (max_arrival_total (leaves root) ntp (length (rows similarities)))
    as (best & Hbest & Hblen & Hbin).
  { apply leaves_at_nonempty. }
  { intros leaf Hleaf. apply leaves_at_descendants in Hleaf.
    destruct (propagated_is_Some m ntp _ (Hprop _ Hleaf)) as [np Hnp].
    exists np. split; [done|]. by destruct (Hu _ _ Hnp). }
  exists ntp, greedy, best. split; [done|].
  split; [unfold Proto.get_predicting_leaves; simpl; done|].
  split; [unfold Proto.get_predicting_leaves; simpl; done|].
  split; [done|]. split; [done|].
  intros i g b Hg Hb.
  assert (Hi : (i < length (rows similarities))%nat).
  { rewrite <- Hglen. by eapply lookup_lt_Some. }
  split.
  - pose proof (greedy_leaf_bound m ntp _ _ _ i g Hu Hund Hi Hprop (Hgsel _ _ Hg)) as Hbound.
    rewrite Hzero in Hbound. lra.
  - destruct (max_arrival_spec _ _ _ Hbest i b Hb) as (j & np & v & Hj & Hnp & Hv & Hmax).
    assert (Hgl : g ∈ leaves root).
    { eapply (proj1 (Forall_forall _ _) Hgin). by eapply list_elem_of_lookup_2. }
    apply list_elem_of_lookup in Hgl as [k Hk].
    destruct (Hmax k g Hk) as (np' & v' & Hnp' & Hv' & Hle & _).
    unfold arrival_at. rewrite Hnp, Hnp', !nth_lookup, Hv, Hv'. done.
Qed.

(** ** Predictions *)

Lemma argmax_from_monotone (f : R → R) (l : list R) (best_i i : nat) (best : R) :
  (∀ x y, f x > f y ↔ x > y) →
  argmax_from best_i (f best) i (map f l) = argmax_from best_i best i l.
Proof.
  intros Hf. revert best_i i best.
  induction l as [|x l IH]; intros best_i i best; [done|]. simpl.
  destruct (Rgt_dec (f x) (f best)) as [Hgt | Hngt];
    destruct (Rgt_dec x best) as [Hgt' | Hngt']; try apply IH.
  - exfalso. apply Hngt'. by apply Hf.
  - exfalso. apply Hngt. by apply Hf.
Qed.

Lemma argmax_monotone (f : R → R) (l : list R) :
  (∀ x y, f x > f y ↔ x > y) → argmax (map f l) = argmax l.
Proof.
  intros Hf. destruct l as [|x l]; [done|]. simpl. unfold ret.
  by rewrite argmax_from_monotone.
Qed.

Lemma Rsum_exp_pos (x : R) (l : list R) : 0 < Rsum (map exp (x :: l)).
Proof.
  simpl. pose proof (exp_pos x).
  assert (0 <= Rsum (map exp l)); [|lra].
  induction l as [|y l IH]; simpl; [lra|]. pose proof (exp_pos y). lra.
Qed.

Lemma argmax_softmax (row : Tensor) : argmax (softmax row) = argmax row.
Proof.
  destruct row as [|x row]; [done|]. unfold softmax. apply argmax_monotone.
  pose proof (Rsum_exp_pos x row) as Hpos. set (s := Rsum (map exp (x :: row))) in *.
  intros a b. unfold Rdiv. split.
  - intros Hgt. apply Rmult_lt_reg_r in Hgt; [|by apply Rinv_0_lt_compat].
    destruct (Rlt_dec b a) as [|Hn]; [done|]. apply Rnot_lt_le in Hn.
    destruct Hn as [Hlt | ->]; [|lra]. apply exp_increasing in Hlt. lra.
  - intros Hgt. apply Rmult_lt_compat_r; [by apply Rinv_0_lt_compat|].
    by apply exp_increasing.
Qed.

Lemma argmax_log_softmax (row : Tensor) : argmax (log_softmax row) = argmax row.
Proof.
  unfold log_softmax. apply argmax_monotone. intros a b. lra.
Qed.

Lemma for_each_map {A B C} (f : B → exn + C) (g : A → B) (l : list A) :
  for_each f (map g l) = for_each (λ a, f (g a)) l.
Proof. induction l as [|a l IH]; simpl; [done | by rewrite IH]. Qed.

Lemma for_each_ext {A B} (f g : A → exn + B) (l : list A) :
  (∀ a, f a = g a) → for_each f l = for_each g l.
Proof. intros Hfg. induction l as [|a l IH]; simpl; [done | by rewrite Hfg, IH]. Qed.

Lemma Rsum_map_div {A} (f : A → R) (c : R) (l : list A) :
  Rsum (map (λ x, f x / c) l) = Rsum (map f l) / c.
Proof. induction l as [|x l IH]; simpl; [lra | rewrite IH; lra]. Qed.

(** A soft-max row over at least one class is a probability distribution. *)
Lemma softmax_distribution (row : Tensor) :
  row ≠ [] → Forall (λ p, 0 < p) (softmax row) ∧ Rsum (softmax row) = 1.
Proof.
  intros Hrow. destruct row as [|x row]; [done|].
  pose proof (Rsum_exp_pos x row) as Hpos. unfold softmax.
  set (s := Rsum (map exp (x :: row))) in *. split.
  - apply Forall_forall. intros p Hp.
    apply list_elem_of_In, List.in_map_iff in Hp as (y & <- & _).
    apply Rdiv_lt_0_compat; [apply exp_pos | done].
  - rewrite (Rsum_map_div exp s). fold s. field. lra.
Qed.

(** Normalizing first does not change the soft-max. *)
Lemma softmax_log_softmax (row : Tensor) : softmax (log_softmax row) = softmax row.
Proof.
  destruct row as [|x row]; [done|].
  pose proof (Rsum_exp_pos x row) as Hpos. unfold softmax, log_softmax.
  set (s := Rsum (map exp (x :: row))) in *.
  assert (Hexp : ∀ y, exp (y - ln s) = exp y / s).
  { intros y. unfold Rminus. rewrite exp_plus, exp_Ropp, exp_ln by done. done. }
  assert (Hsum : Rsum (map exp (map (λ y, y - ln s) (x :: row))) = 1).
  { rewrite List.map_map. rewrite (List.map_ext _ (λ y, exp y / s)) by done.
    rewrite (Rsum_map_div exp s). fold s. field. lra. }
  rewrite Hsum, List.map_map. apply List.map_ext. intros y. rewrite Hexp. lra.
Qed.

Section Predict.
Context `{Collaborators}.

(** X6. [ProtoTree.predict] returns for every sample the first class of
    largest probability in [ProtoTree.predict_probs] (and fails exactly as it
    does); for at least one class, every row of [predict_probs] is a
    probability distribution. *)
Theorem predict_is_argmax_of_predict_probs (self : Proto.ProtoTree)
    (store : LeafStore) (similarities : Tensor2) (strategy : string) :
  Proto.predict self store similarities strategy
    = (probs ← Proto.predict_probs self store similarities strategy ;
       for_each argmax (rows probs)) ∧
  ∀ probs row,
    Proto.predict_probs self store similarities strategy = inr probs →
    row ∈ rows probs → row ≠ [] →
    Forall (λ p, 0 < p) row ∧ Rsum row = 1.
Proof.
  unfold Proto.predict, Proto.predict_probs. split.
  - destruct (Proto.predict_logits self store similarities strategy) as [e|logits];
      [done|]. cbn [mbind exn_bind ret rows].
    rewrite for_each_map. apply for_each_ext. intros row.
    symmetry. apply argmax_softmax.
  - intros probs row Hrun Hrow Hne.
    destruct (Proto.predict_logits self store similarities strategy) as [e|logits];
      [done|]. injection Hrun as <-. cbn [rows] in Hrow.
    apply list_elem_of_In, List.in_map_iff in Hrow as (r & <- & _).
    apply softmax_distribution. intros ->. by apply Hne.
Qed.

End Predict.

(** X7. [ProtoPNet.predict_probs] is the soft-max of the classifier output
    (the log-soft-max of [forward] in between changes nothing), and
    [ProtoPNet.predict] returns for every sample the first class of largest
    classifier output. *)
Theorem pnet_predict_is_argmax_of_classifier (self : Proto.ProtoPNet)
    (all_dists : Tensor2) :
  rows (Proto.pnet_predict_probs self all_dists)
    = map softmax (rows (Proto.classifier self all_dists)) ∧
  Proto.pnet_predict self all_dists
    = for_each argmax (rows (Proto.classifier self all_dists)).
Proof.
  unfold Proto.pnet_predict, Proto.pnet_predict_probs, Proto.pnet_forward.
  cbn [rows n_cols]. split.
  - rewrite List.map_map. apply List.map_ext. intros row. apply softmax_log_softmax.
  - rewrite !for_each_map. apply for_each_ext. intros row.
    by rewrite argmax_softmax, argmax_log_softmax.
Qed.

(** ** [explain] *)

Section Explain.
Context `{Collaborators}.

(** X8. Where the routing probabilities exist, [ProtoTree.explain] raises
    [TypeError] under ["distributed"] (there are no predicting leaves to
    iterate over), and in training mode [explain] and [predict] raise
    [ValueError] under their default strategy. *)
Theorem explain_needs_predicting_leaves (self : Proto.ProtoTree) (store : LeafStore)
    (similarities : Tensor2) (x : list Image) (dists : list (list DistMap))
    (patches : list Patches) (ntp : gmap NodeRef NodeProbabilities) :
  Proto.get_node_to_probs (Proto.tree_section self) similarities = inr ntp →
  Proto.explain self store similarities x dists patches "distributed"
    = inl TypeError ∧
  (Proto.training self = true →
   Proto.explain self store similarities x dists patches Proto.explain_default
     = inl ValueError ∧
   Proto.predict self store similarities Proto.predict_default = inl ValueError).
Proof.
  intros Hntp. split.
  - unfold Proto.explain. rewrite (forward_distributed _ _ _ _ Hntp). reflexivity.
  - intros Htraining.
    assert (Hfwd : Proto.forward self store similarities "sample_max" = inl ValueError).
    { unfold Proto.forward. rewrite Hntp, Htraining. reflexivity. }
    unfold Proto.explain, Proto.predict, Proto.predict_logits,
      Proto.explain_default, Proto.predict_default.
    by rewrite Hfwd.
Qed.

(** X9. In inference mode and under a single-leaf strategy, [ProtoTree.explain]
    on a non-empty batch returns what [forward] returns, together with one
    rationalization per sample: the rationalization of sample [i] is for the
    predicting leaf of sample [i], lists that leaf's ancestors from the root
    down, and its right-child flags spell the path from the root to the
    leaf. *)
Theorem explain_rationalizes_predicting_leaves (self : Proto.ProtoTree)
    (store : LeafStore) (similarities : Tensor2) (x : list Image)
    (dists : list (list DistMap)) (patches : list Patches) (strategy : string)
    (depth : nat) :
  let ts := Proto.tree_section self in
  Proto.training self = false →
  strategy = "sample_max"%string ∨ strategy = "greedy"%string →
  (1 <= depth)%nat →
  Proto.tree_root ts = mkNode [] (perfect depth) →
  indexed (Proto.tree_root ts) (Proto.node_to_proto_idx ts) (n_cols similarities) →
  (∀ leaf, leaf ∈ leaves (Proto.tree_root ts) →
     length (y_logits (dist_params (store leaf))) = Proto.num_classes ts) →
  (1 <= length x)%nat →
  length (rows similarities) = length x → length dists = length x →
  length patches = length x →
  Forall (λ d, (n_cols similarities <= length d)%nat) dists →
  ∃ logits node_to_probs predicting_leaves leaf_explanations,
    Proto.forward self store similarities strategy
      = inr (logits, node_to_probs, Some predicting_leaves) ∧
    Proto.explain self store similarities x dists patches strategy
      = inr (logits, node_to_probs, Some predicting_leaves, leaf_explanations) ∧
    length leaf_explanations = length x ∧
    ∀ i leaf, predicting_leaves !! i = Some leaf →
      ∃ r, leaf_explanations !! i = Some r ∧
           Proto.leaf r = leaf ∧
           map internal_node (Proto.ancestor_similarities r) = ancestors leaf ∧
           Proto.proto_presents r = reverse leaf.
Proof.
  intros ts Hmode Hstrategy Hdepth Hroot Hidx Hstore Hx Hrows Hdists Hpatches Hchannels.
  destruct (forward_hard self store similarities strategy)
    as (ntp & pl & _ & _ & _ & Hfwd & Hlen & Hin); try done.
  { fold ts. rewrite Hroot. destruct depth; [lia | done]. }
  { intros Hnil. rewrite Hnil in Hrows. simpl in Hrows. lia. }
  fold ts in Hfwd, Hin.
  destruct (proto_rationalize_spec ts depth (n_cols similarities) x pl dists patches)
    as (rs & Hrs & Hrlen & Hr); try done; [congruence|].
  eexists _, ntp, pl, rs. split; [exact Hfwd|]. split.
  - unfold Proto.explain. rewrite Hfwd. cbn [mbind exn_bind]. fold ts.
    by rewrite Hrs.
  - split; [done|]. intros i leaf Hleaf.
    destruct (Hr i leaf Hleaf) as (r & Hri & Hrl & Hra & _ & _ & Hflags).
    by exists r.
Qed.

End Explain.

(** ** The leaf update in linear space *)

Lemma label_logits_nth (y_true : list nat) (num_classes b c : nat) :
  (b < length y_true)%nat → (c < num_classes)%nat →
  nth c (nth b (label_logits y_true num_classes) []) NegInf
    = if Nat.eqb (nth b y_true 0%nat) c then Finite 0 else NegInf.
Proof.
  intros Hb Hc. unfold label_logits.
  rewrite (List.nth_indep _ [] ((λ label, map (λ c, if Nat.eqb c label then Finite 0
             else NegInf) (seq 0 num_classes)) 0%nat)) by (by rewrite length_map).
  rewrite (List.map_nth (λ label, map (λ c, if Nat.eqb c label then Finite 0
             else NegInf) (seq 0 num_classes))).
  rewrite (List.nth_indep _ NegInf ((λ c, if Nat.eqb c (nth b y_true 0%nat)
             then Finite 0 else NegInf) 0%nat))
    by (by rewrite length_map, length_seq).
  rewrite (List.map_nth (λ c, if Nat.eqb c (nth b y_true 0%nat) then Finite 0
             else NegInf)).
  rewrite List.seq_nth by done. simpl. by rewrite Nat.eqb_sym.
Qed.

Lemma update_vector_is_class_mass (arrival leaf_logits : Tensor) (y_true : list nat)
    (logits : Tensor2) (c : nat) :
  batch_shaped arrival leaf_logits (label_logits y_true (n_cols logits)) logits →
  (c < n_cols logits)%nat →
  Proto.dist_update_of arrival leaf_logits (label_logits y_true (n_cols logits)) logits
    !! c = Some (class_mass arrival leaf_logits y_true logits c).
Proof.
  intros Hshape Hc. rewrite (dist_update_of_lookup _ _ _ _ c Hshape Hc).
  f_equal. rewrite exp_logsumexp, List.map_map. unfold class_mass. f_equal.
  destruct Hshape as (_ & Hlen & _). unfold label_logits in Hlen.
  rewrite length_map in Hlen.
  apply List.map_ext_in. intros b Hb. apply List.in_seq in Hb.
  unfold contribution. rewrite label_logits_nth by lia.
  destruct (Nat.eqb (nth b y_true 0%nat) c); simpl; [|done].
  f_equal. lra.
Qed.

Lemma class_mass_absent (arrival leaf_logits : Tensor) (y_true : list nat)
    (logits : Tensor2) (c : nat) :
  length y_true = length (rows logits) → c ∉ y_true →
  class_mass arrival leaf_logits y_true logits c = 0.
Proof.
  intros Hlen Hc. unfold class_mass.
  rewrite (List.map_ext_in _ (λ _, 0)).
  - generalize (seq 0 (length (rows logits))).
    intros l. induction l as [|b l IH]; simpl; [done | rewrite IH; lra].
  - intros b Hb. apply List.in_seq in Hb.
    destruct (Nat.eqb (nth b y_true 0%nat) c) eqn:Heq; [|done].
    apply Nat.eqb_eq in Heq. exfalso. apply Hc. rewrite <- Heq.
    apply list_elem_of_In, List.nth_In. lia.
Qed.

Lemma class_mass_nonneg (arrival leaf_logits : Tensor) (y_true : list nat)
    (logits : Tensor2) (c : nat) :
  0 <= class_mass arrival leaf_logits y_true logits c.
Proof.
  unfold class_mass. generalize (seq 0 (length (rows logits))).
  intros l. induction l as [|b l IH]; simpl; [lra|].
  destruct (Nat.eqb (nth b y_true 0%nat) c); [|lra].
  pose proof (exp_pos (nth b arrival 0 + nth c leaf_logits 0
                       - nth c (nth b (rows logits) []) 0)). lra.
Qed.

Section LinearSpace.
Context `{Collaborators}.
Implicit Types (ts : Proto.TreeSection) (store : LeafStore)
  (ntp : gmap NodeRef NodeProbabilities) (logits : Tensor2).

Lemma update_all_leaves ts store (y_true : list nat) logits ntp :
  Forall (λ label, (label < n_cols logits)%nat) y_true →
  (∀ leaf, leaf ∈ leaves (Proto.tree_root ts) →
     ∃ np, ntp !! leaf = Some np ∧
           leaf_shaped (store leaf) np (label_logits y_true (n_cols logits)) logits) →
  ∃ store',
    Proto.update_leaf_distributions ts store y_true logits ntp = inr store' ∧
    (∀ leaf np, leaf ∈ leaves (Proto.tree_root ts) → ntp !! leaf = Some np →
       store' leaf
         = mkLeaf
             (zip_with (λ d u, d * (1 - next_alpha ts (store leaf)) + u)
                (dist_params (store leaf))
                (Proto.dist_update_of (log_p_arrival np)
                   (y_logits (dist_params (store leaf)))
                   (label_logits y_true (n_cols logits)) logits))
             (S (dist_param_update_count (store leaf)))) ∧
    (∀ other, other ∉ leaves (Proto.tree_root ts) → store' other = store other).
Proof.
  intros Hvalid Hall. unfold Proto.update_leaf_distributions.
  destruct (one_hot_logits y_true (n_cols logits) Hvalid) as (encoded & Hone & Henc).
  rewrite Hone. simpl. rewrite Henc.
  destruct (update_each_spec ts store (leaves (Proto.tree_root ts)) ntp logits
              (label_logits y_true (n_cols logits)))
    as (store' & Hrun & Hin & Hout); [apply leaves_at_NoDup | |].
  { intros leaf Hleaf. destruct (Hall leaf Hleaf) as (np & -> & _). eauto. }
  exists store'. split; [done|]. split; [|done].
  intros leaf np Hleaf Hnp. specialize (Hin leaf Hleaf).
  rewrite (leaf_update_spec _ _ _ _ _ _ np Hnp) in Hin.
  injection Hin as Hin. apply (f_equal (λ f, f leaf)) in Hin.
  rewrite !fn_lookup_insert in Hin. by rewrite <- Hin.
Qed.

Lemma updated_parameter ts store (y_true : list nat) logits ntp :
  Forall (λ label, (label < n_cols logits)%nat) y_true →
  (∀ leaf, leaf ∈ leaves (Proto.tree_root ts) →
     ∃ np, ntp !! leaf = Some np ∧
           leaf_shaped (store leaf) np (label_logits y_true (n_cols logits)) logits) →
  ∃ store',
    Proto.update_leaf_distributions ts store y_true logits ntp = inr store' ∧
    ∀ leaf np c d,
      leaf ∈ leaves (Proto.tree_root ts) → ntp !! leaf = Some np →
      dist_params (store leaf) !! c = Some d →
      dist_params (store' leaf) !! c
        = Some (d * (1 - next_alpha ts (store leaf))
                + class_mass (log_p_arrival np) (y_logits (dist_params (store leaf)))
                    y_true logits c).
Proof.
  intros Hvalid Hall.
  destruct (update_all_leaves ts store y_true logits ntp Hvalid Hall)
    as (store' & Hrun & Hleaves & _).
  exists store'. split; [done|]. intros leaf np c d Hleaf Hnp Hd.
  destruct (Hall leaf Hleaf) as (np' & Hnp' & Hshape & Hparams).
  assert (np' = np) as -> by congruence.
  assert (Hc : (c < n_cols logits)%nat).
  { rewrite <- Hparams. by eapply lookup_lt_Some. }
  rewrite (Hleaves leaf np Hleaf Hnp). cbn [dist_params].
  apply lookup_zip_with_Some. eexists d, _. split; [done|]. split; [done|].
  by apply update_vector_is_class_mass.
Qed.

(** X10. In linear space, [update_leaf_distributions] moves parameter [c] of
    every leaf to [d * (1 - alpha)] plus the mass that the samples of class
    [c] bring to the leaf; for a class that does not occur in the batch the
    parameter only decays, by the factor [1 - alpha]. *)
Theorem leaf_update_in_linear_space ts store (y_true : list nat) logits ntp :
  Forall (λ label, (label < n_cols logits)%nat) y_true →
  (∀ leaf, leaf ∈ leaves (Proto.tree_root ts) →
     ∃ np, ntp !! leaf = Some np ∧
           leaf_shaped (store leaf) np (label_logits y_true (n_cols logits)) logits) →
  ∃ store',
    Proto.update_leaf_distributions ts store y_true logits ntp = inr store' ∧
    ∀ leaf np c d,
      leaf ∈ leaves (Proto.tree_root ts) → ntp !! leaf = Some np →
      dist_params (store leaf) !! c = Some d →
      dist_params (store' leaf) !! c
        = Some (d * (1 - next_alpha ts (store leaf))
                + class_mass (log_p_arrival np) (y_logits (dist_params (store leaf)))
                    y_true logits c) ∧
      (c ∉ y_true →
       dist_params (store' leaf) !! c = Some (d * (1 - next_alpha ts (store leaf)))).
Proof.
  intros Hvalid Hall.
  destruct (updated_parameter ts store y_true logits ntp Hvalid Hall)
    as (store' & Hrun & Hleaves).
  exists store'. split; [done|]. intros leaf np c d Hleaf Hnp Hd.
  pose proof (Hleaves leaf np c d Hleaf Hnp Hd) as Hlookup.
  split; [done|]. intros Habsent. rewrite Hlookup.
  rewrite class_mass_absent; [by rewrite Rplus_0_r | | done].
  destruct (Hall leaf Hleaf) as (np' & _ & (_ & Hlen & _) & _).
  unfold label_logits in Hlen. by rewrite length_map in Hlen.
Qed.

(** X11. With a configured smoothing weight of at most one,
    [update_leaf_distributions] keeps the parameters of every leaf well
    formed: one parameter per class, and no parameter negative if none was
    before. *)
Theorem leaf_update_keeps_parameters_nonnegative ts store (y_true : list nat)
    logits ntp :
  Proto.leaf_opt_ewma_alpha ts <= 1 →
  Forall (λ label, (label < n_cols logits)%nat) y_true →
  (∀ leaf, leaf ∈ leaves (Proto.tree_root ts) →
     ∃ np, ntp !! leaf = Some np ∧
           leaf_shaped (store leaf) np (label_logits y_true (n_cols logits)) logits) →
  ∃ store',
    Proto.update_leaf_distributions ts store y_true logits ntp = inr store' ∧
    ∀ leaf, leaf ∈ leaves (Proto.tree_root ts) →
      length (dist_params (store' leaf)) = n_cols logits ∧
      (Forall (λ d, 0 <= d) (dist_params (store leaf)) →
       Forall (λ d, 0 <= d) (dist_params (store' leaf))).
Proof.
  intros Halpha Hvalid Hall.
  destruct (update_all_leaves ts store y_true logits ntp Hvalid Hall)
    as (store' & Hrun & Hleaves & _).
  exists store'. split; [done|]. intros leaf Hleaf.
  destruct (Hall leaf Hleaf) as (np & Hnp & Hshape & Hparams).
  rewrite (Hleaves leaf np Hleaf Hnp). cbn [dist_params]. split.
  - rewrite length_zip_with, dist_update_of_length. lia.
  - intros Hpos. apply Forall_lookup. intros c v Hv.
    apply lookup_zip_with_Some in Hv as (d & u & -> & Hd & Hu).
    assert (Hc : (c < n_cols logits)%nat).
    { rewrite <- Hparams. by eapply lookup_lt_Some. }
    rewrite (update_vector_is_class_mass _ _ _ _ c Hshape Hc) in Hu.
    injection Hu as <-.
    pose proof (class_mass_nonneg (log_p_arrival np)
                  (y_logits (dist_params (store leaf))) y_true logits c) as Hmass.
    pose proof (Forall_lookup_1 _ _ _ _ Hpos Hd) as Hd0. simpl in Hd0.
    assert (next_alpha ts (store leaf) <= 1) as Hle.
    { unfold next_alpha. apply Rmax_lub; [|done].
      assert (1 <= INR (S (dist_param_update_count (store leaf)))) as Hcount.
      { rewrite S_INR. pose proof (pos_INR (dist_param_update_count (store leaf))). lra. }
      unfold Rdiv. rewrite Rmult_1_l. rewrite <- Rinv_1.
      apply Rinv_le_contravar; lra. }
    assert (0 <= d * (1 - next_alpha ts (store leaf))); [|lra].
    apply Rmult_le_pos; lra.
Qed.

Lemma Rsum_map_plus {A} (f g : A → R) (l : list A) :
  Rsum (map (λ a, f a + g a) l) = Rsum (map f l) + Rsum (map g l).
Proof. induction l as [|a l IH]; simpl; [lra | rewrite IH; lra]. Qed.

Lemma Rsum_map_zero {A} (l : list A) : Rsum (map (λ _, 0) l) = 0.
Proof. induction l as [|a l IH]; simpl; [done | rewrite IH; lra]. Qed.

Lemma Rsum_swap {A B} (f : A → B → R) (la : list A) (lb : list B) :
  Rsum (map (λ a, Rsum (map (f a) lb)) la)
    = Rsum (map (λ b, Rsum (map (λ a, f a b) la)) lb).
Proof.
  induction la as [|a la IH]; simpl.
  - by rewrite Rsum_map_zero.
  - by rewrite IH, <- Rsum_map_plus.
Qed.

Lemma map_seq_nth {A B} (g : A → B) (l : list A) (d : A) :
  map (λ b, g (nth b l d)) (seq 0 (length l)) = map g l.
Proof.
  induction l as [|a l IH]; [done|]. cbn [length seq map nth]. f_equal.
  rewrite <- List.seq_shift, List.map_map. exact IH.
Qed.

Lemma Rsum_indicator (y_true : list nat) (c : nat) :
  Rsum (map (λ b, if Nat.eqb (nth b y_true 0%nat) c then 1 else 0)
            (seq 0 (length y_true)))
    = INR (length (filter (λ label, label = c) y_true)).
Proof.
  rewrite (map_seq_nth (λ label, if Nat.eqb label c then 1 else 0) y_true 0%nat).
  induction y_true as [|label y IH]; [done|]. cbn [map Rsum foldr].
  fold (Rsum (map (λ label, if Nat.eqb label c then 1 else 0) y)). rewrite IH.
  rewrite filter_cons. destruct (decide (label = c)) as [-> | Hne].
  - rewrite Nat.eqb_refl. cbn [length]. rewrite S_INR. lra.
  - apply Nat.eqb_neq in Hne. rewrite Hne. lra.
Qed.

(** X12. When the batch logits are the distributed prediction (the
    probability of class [c] for sample [b] is the sum over the leaves of the
    arrival probability times the leaf's probability of [c]),
    [update_leaf_distributions] hands out each sample exactly once: summed
    over the leaves, the mass added for class [c] is the number of samples of
    class [c] in the batch. *)
Theorem leaf_updates_share_the_labels ts store (y_true : list nat) logits ntp :
  Forall (λ label, (label < n_cols logits)%nat) y_true →
  (∀ leaf, leaf ∈ leaves (Proto.tree_root ts) →
     ∃ np, ntp !! leaf = Some np ∧
           leaf_shaped (store leaf) np (label_logits y_true (n_cols logits)) logits) →
  (∀ b c, (b < length (rows logits))%nat → (c < n_cols logits)%nat →
     exp (nth c (nth b (rows logits) []) 0)
       = Rsum (map (λ leaf, exp (arrival_at ntp leaf b
                                + nth c (y_logits (dist_params (store leaf))) 0))
                   (leaves (Proto.tree_root ts)))) →
  ∃ store',
    Proto.update_leaf_distributions ts store y_true logits ntp = inr store' ∧
    ∀ c, (c < n_cols logits)%nat →
      Rsum (map (λ leaf, nth c (dist_params (store' leaf)) 0)
                (leaves (Proto.tree_root ts)))
        = Rsum (map (λ leaf, nth c (dist_params (store leaf)) 0
                             * (1 - next_alpha ts (store leaf)))
                    (leaves (Proto.tree_root ts)))
          + INR (length (filter (λ label, label = c) y_true)).
Proof.
  intros Hvalid Hall Hmix.
  destruct (updated_parameter ts store y_true logits ntp Hvalid Hall)
    as (store' & Hrun & Hleaves).
  exists store'. split; [done|]. intros c Hc.
  set (mass := λ leaf b,
         if Nat.eqb (nth b y_true 0%nat) c
         then exp (arrival_at ntp leaf b
                   + nth c (y_logits (dist_params (store leaf))) 0
                   - nth c (nth b (rows logits) []) 0)
         else 0).
  assert (Hlen : length y_true = length (rows logits)).
  { destruct (leaves (Proto.tree_root ts)) as [|leaf ls] eqn:Hls;
      [by apply leaves_at_nonempty in Hls|].
    destruct (Hall leaf) as (np & _ & (_ & Hl & _) & _); [by left|].
    unfold label_logits in Hl. by rewrite length_map in Hl. }
  rewrite (List.map_ext_in _
    (λ leaf, nth c (dist_params (store leaf)) 0 * (1 - next_alpha ts (store leaf))
             + Rsum (map (mass leaf) (seq 0 (length (rows logits)))))).
  2:{ intros leaf Hleaf. apply list_elem_of_In in Hleaf.
      destruct (Hall leaf Hleaf) as (np & Hnp & Hshape & Hparams).
      assert (Hd : dist_params (store leaf) !! c
                   = Some (nth c (dist_params (store leaf)) 0)).
      { apply nth_lookup_total. lia. }
      rewrite (nth_lookup (dist_params (store' leaf))),
        (Hleaves leaf np c _ Hleaf Hnp Hd). cbn [default]. f_equal.
      unfold class_mass, mass, arrival_at. by rewrite Hnp. }
  rewrite Rsum_map_plus. f_equal.
  rewrite (Rsum_swap mass), <- Hlen, <- Rsum_indicator. f_equal.
  apply List.map_ext_in. intros b Hb. apply List.in_seq in Hb. unfold mass.
  destruct (Nat.eqb (nth b y_true 0%nat) c).
  - rewrite (List.map_ext _ (λ leaf,
      exp (arrival_at ntp leaf b + nth c (y_logits (dist_params (store leaf))) 0)
      / exp (nth c (nth b (rows logits) []) 0))).
    2:{ intros leaf. unfold Rminus, Rdiv. by rewrite exp_plus, exp_Ropp. }
    rewrite (Rsum_map_div (λ leaf,
      exp (arrival_at ntp leaf b + nth c (y_logits (dist_params (store leaf))) 0))).
    rewrite <- Hmix by lia.
    pose proof (exp_pos (nth c (nth b (rows logits) []) 0)). field. lra.
  - apply Rsum_map_zero.
Qed.

End LinearSpace.

(** ** [rationalize] on arbitrary leaves *)

Lemma for_each_dichotomy {A B} (f : A → exn + B) (l : list A) (e : exn) :
  (∀ a, a ∈ l → f a = inl e ∨ ∃ b, f a = inr b) →
  for_each f l = inl e ∨ ∃ bs, for_each f l = inr bs.
Proof.
  induction l as [|a l IH]; intros Hall; [right; by exists []|]. simpl.
  destruct (Hall a) as [Ha | [b Ha]]; [by left | left; by rewrite Ha |].
  rewrite Ha. cbn [mbind exn_bind].
  destruct IH as [Hl | [bs Hl]]; [intros a' Ha'; apply Hall; by right | |].
  - left. by rewrite Hl.
  - right. rewrite Hl. by eexists.
Qed.

Section RationalizeAny.
Context `{Collaborators}.

Lemma ancestor_similarities_cases (idx : gmap NodeRef nat) (channels : nat)
    (x_i : Image) (dists_i : list DistMap) (patches_i : Patches)
    (qs : list NodeRef) :
  map_Forall (λ _ i, (i < channels)%nat) idx → (channels <= length dists_i)%nat →
  let run := for_each (λ leaf_ancestor,
      node_proto_idx ← dict_get idx leaf_ancestor ;
      node_distances ← seq_get dists_i node_proto_idx ;
      ret (img_proto_similarity leaf_ancestor x_i node_distances patches_i)) qs in
  ((∀ q, q ∈ qs → is_Some (idx !! q)) →
   ∃ sims, run = inr sims ∧ map internal_node sims = qs) ∧
  ((∃ q, q ∈ qs ∧ idx !! q = None) → run = inl KeyError).
Proof.
  intros Hbound Hlen run.
  assert (Hstep : ∀ q, q ∈ qs →
    (idx !! q = None ∧
     (node_proto_idx ← dict_get idx q ;
      node_distances ← seq_get dists_i node_proto_idx ;
      ret (img_proto_similarity q x_i node_distances patches_i)) = inl KeyError) ∨
    (∃ i d, idx !! q = Some i ∧
     (node_proto_idx ← dict_get idx q ;
      node_distances ← seq_get dists_i node_proto_idx ;
      ret (img_proto_similarity q x_i node_distances patches_i))
       = inr (img_proto_similarity q x_i d patches_i))).
  { intros q _. unfold dict_get. destruct (idx !! q) as [i|] eqn:Hi; [right | by left].
    pose proof (Hbound _ _ Hi) as Hlt. simpl in Hlt.
    destruct (lookup_lt_is_Some_2 dists_i i) as [d Hd]; [lia|].
    exists i, d. split; [done|]. cbn [mbind exn_bind ret]. unfold seq_get.
    by rewrite Hd. }
  split.
  - intros Hall. subst run. induction qs as [|q qs IH]; [by exists []|].
    destruct (Hstep q) as [[Hnone _] | (i & d & Hi & Hrun)]; [by left | |].
    { destruct (Hall q) as [? Hsome]; [by left | congruence]. }
    destruct IH as (sims & Hsims & Hmap).
    { intros q' Hq'. apply Hstep. by right. }
    { intros q' Hq'. apply Hall. by right. }
    cbn [for_each]. rewrite Hrun, Hsims. cbn [mbind exn_bind ret].
    eexists. split; [done|]. simpl. by rewrite Hmap.
  - intros (q & Hq & Hnone). subst run. apply for_each_fails.
    + intros q' Hq'. destruct (Hstep q' Hq') as [[_ Hfail] | (i & d & _ & Hok)]; eauto.
    + exists q. split; [done|].
      destruct (Hstep q Hq) as [[_ Hfail] | (i & d & Hi & _)]; [done | congruence].
Qed.

(** X13. [ProtoTree.rationalize] takes arbitrary leaves.  With distance maps
    for every prototype index, it pairs images, leaves, distance maps and
    patches up to the shortest of the four and rationalizes each pair, as long
    as every ancestor of every given leaf has a prototype index; and it raises
    [KeyError] as soon as a paired leaf has an ancestor without one. *)
Theorem rationalize_pairs_up_to_shortest (ts : Proto.TreeSection) (channels : nat)
    (x : list Image) (predicting_leaves : list NodeRef)
    (dists : list (list DistMap)) (patches : list Patches) :
  map_Forall (λ _ i, (i < channels)%nat) (Proto.node_to_proto_idx ts) →
  Forall (λ d, (channels <= length d)%nat) dists →
  ((∀ leaf q, leaf ∈ predicting_leaves → q ∈ ancestors leaf →
      is_Some (Proto.node_to_proto_idx ts !! q)) →
   ∃ rationalizations,
     Proto.rationalize ts x predicting_leaves dists patches = inr rationalizations ∧
     length rationalizations
       = Nat.min (Nat.min (Nat.min (length x) (length predicting_leaves))
                          (length dists)) (length patches) ∧
     ∀ i r, rationalizations !! i = Some r →
       predicting_leaves !! i = Some (Proto.leaf r) ∧
       map internal_node (Proto.ancestor_similarities r) = ancestors (Proto.leaf r)) ∧
  (∀ i leaf q,
     (i < length x)%nat → (i < length dists)%nat → (i < length patches)%nat →
     predicting_leaves !! i = Some leaf → q ∈ ancestors leaf →
     Proto.node_to_proto_idx ts !! q = None →
     Proto.rationalize ts x predicting_leaves dists patches = inl KeyError).
Proof.
  intros Hbound Hdists. unfold Proto.rationalize.
  set (body := λ '(x_i, predicting_leaf, dists_i, patches_i), _).
  set (batch := zip (zip (zip x predicting_leaves) dists) patches).
  assert (Hcases : ∀ i x_i leaf d_i p_i, batch !! i = Some (x_i, leaf, d_i, p_i) →
    predicting_leaves !! i = Some leaf ∧
    ((∀ q, q ∈ ancestors leaf → is_Some (Proto.node_to_proto_idx ts !! q)) →
     ∃ sims, body (x_i, leaf, d_i, p_i) = inr (Proto.mkRationalization sims leaf) ∧
             map internal_node sims = ancestors leaf) ∧
    ((∃ q, q ∈ ancestors leaf ∧ Proto.node_to_proto_idx ts !! q = None) →
     body (x_i, leaf, d_i, p_i) = inl KeyError)).
  { intros i x_i leaf d_i p_i Hi. unfold batch in Hi.
    apply lookup_zip_Some in Hi as [Hi Hp].
    apply lookup_zip_Some in Hi as [Hi Hd].
    apply lookup_zip_Some in Hi as [Hx Hl]. split; [done|].
    destruct (ancestor_similarities_cases (Proto.node_to_proto_idx ts) channels
                x_i d_i p_i (ancestors leaf) Hbound) as [Hok Hfail].
    { by apply (Forall_lookup_1 _ _ _ _ Hdists Hd). }
    split.
    - intros Hall. destruct (Hok Hall) as (sims & Hrun & Hsims).
      exists sims. split; [|done]. unfold body. by rewrite Hrun.
    - intros Hex. unfold body. by rewrite (Hfail Hex). }
  split.
  - intros Hall.
    destruct (for_each_exists body batch) as [rs Hrs].
    { intros [[[x_i leaf] d_i] p_i] [i Hi]%list_elem_of_lookup.
      destruct (Hcases _ _ _ _ _ Hi) as (Hleaf & Hok & _).
      destruct Hok as (sims & Hrun & _); [|by eauto].
      intros q Hq. apply (Hall leaf q); [|done]. by eapply list_elem_of_lookup_2. }
    exists rs. split; [done|]. apply for_each_inr in Hrs. split.
    + apply Forall2_length in Hrs. rewrite <- Hrs. unfold batch.
      by rewrite !length_zip.
    + intros i r Hr.
      destruct (Forall2_lookup_r _ _ _ _ _ Hrs Hr) as ([[[x_i leaf] d_i] p_i] & Hi & Hrun).
      destruct (Hcases _ _ _ _ _ Hi) as (Hleaf & Hok & _).
      destruct Hok as (sims & Hrun' & Hsims).
      { intros q Hq. apply (Hall leaf q); [|done]. by eapply list_elem_of_lookup_2. }
      rewrite Hrun' in Hrun. injection Hrun as <-. by split.
  - intros i leaf q Hx Hd Hp Hleaf Hq Hnone.
    destruct (lookup_lt_is_Some_2 x i Hx) as [x_i Hxi].
    destruct (lookup_lt_is_Some_2 dists i Hd) as [d_i Hdi].
    destruct (lookup_lt_is_Some_2 patches i Hp) as [p_i Hpi].
    assert (Hi : batch !! i = Some (x_i, leaf, d_i, p_i)).
    { unfold batch. by repeat (apply lookup_zip_Some; split). }
    apply for_each_fails.
    + intros [[[x_j leaf_j] d_j] p_j] [j Hj]%list_elem_of_lookup.
      unfold batch in Hj.
      apply lookup_zip_Some in Hj as [Hj _].
      apply lookup_zip_Some in Hj as [_ Hdj].
      pose proof (Forall_lookup_1 _ _ _ _ Hdists Hdj) as Hlen. simpl in Hlen.
      unfold body.
      destruct (for_each_dichotomy (λ leaf_ancestor,
                  node_proto_idx ← dict_get (Proto.node_to_proto_idx ts) leaf_ancestor ;
                  node_distances ← seq_get d_j node_proto_idx ;
                  ret (img_proto_similarity leaf_ancestor x_j node_distances p_j))
                  (ancestors leaf_j) KeyError) as [Hfail | [sims Hok]].
      * intros q' _. unfold dict_get.
        destruct (Proto.node_to_proto_idx ts !! q') as [k|] eqn:Hk; [right | by left].
        pose proof (Hbound _ _ Hk) as Hlt. simpl in Hlt.
        destruct (lookup_lt_is_Some_2 d_j k) as [d Hd']; [lia|].
        cbn [mbind exn_bind ret]. unfold seq_get. rewrite Hd'. by eexists.
      * left. by rewrite Hfail.
      * right. rewrite Hok. by eexists.
    + exists (x_i, leaf, d_i, p_i). split; [by eapply list_elem_of_lookup_2|].
      destruct (Hcases _ _ _ _ _ Hi) as (_ & _ & Hfail). apply Hfail. eauto.
Qed.

End RationalizeAny.

(** ** The two model files, continued *)

Lemma add_strict_descendants_agree (m : gmap NodeRef Tensor) (t : Tree) (p : NodeRef)
    (r : gmap NodeRef NodeProbabilities) :
  Prototree.add_strict_descendants m t p r = Proto.add_strict_descendants m t p r.
Proof.
  revert p r. induction t as [|tl IHl tr IHr]; intros p r; [done|].
  cbn [Prototree.add_strict_descendants Proto.add_strict_descendants].
  destruct (dict_get r p) as [e|np]; [done|]. cbn [mbind exn_bind].
  destruct (log_p_arrival_left np) as [e|al]; [done|]. cbn [mbind exn_bind].
  destruct (log_p_arrival_right np) as [e|ar]; [done|]. cbn [mbind exn_bind].
  rewrite IHl.
  destruct (Proto.add_strict_descendants m tl (false :: p) _) as [e|r1]; [done|].
  cbn [mbind exn_bind]. apply IHr.
Qed.

Lemma predicting_leaves_agree (root : Node) (ntp : gmap NodeRef NodeProbabilities)
    (strategy : string) :
  Prototree.get_predicting_leaves root ntp strategy
    = Proto.get_predicting_leaves root ntp strategy.
Proof.
  unfold Prototree.get_predicting_leaves, Proto.get_predicting_leaves.
  by rewrite max_arrival_agree, greedy_agree.
Qed.

Section OlderFile.
Context `{Collaborators}.

Lemma older_forward_agrees (self : Prototree.ProtoTree) (store : LeafStore)
    (similarities : Tensor2) (strategy : string) (threshold alpha : R) :
  Prototree.get_node_to_probs self similarities
    = Proto.get_node_to_probs (Proto.tree_section (as_proto self threshold alpha))
        similarities ∧
  Prototree.forward self store similarities strategy
    = Proto.forward (as_proto self threshold alpha) store similarities strategy.
Proof.
  set (other := as_proto self threshold alpha).
  assert (Hprobs : Prototree.get_node_to_probs self similarities
            = Proto.get_node_to_probs (Proto.tree_section other) similarities).
  { unfold Prototree.get_node_to_probs, Proto.get_node_to_probs.
    change (Prototree._get_node_to_log_p_right self similarities)
      with (Proto.get_node_to_log_p_right (Proto.tree_section other) similarities).
    destruct (Proto.get_node_to_log_p_right _ _) as [e|m]; [done|].
    cbn [mbind exn_bind].
    unfold Prototree._node_to_probs_from_p_right, Proto._node_to_probs_from_p_right.
    destruct (dict_get m _) as [e|right]; [done|]. cbn [mbind exn_bind].
    apply add_strict_descendants_agree. }
  split; [done|].
  unfold Prototree.forward, Proto.forward. rewrite Hprobs.
  destruct (Proto.get_node_to_probs _ _) as [e|ntp]; [done|]. cbn [mbind exn_bind].
  destruct (decide (strategy = "distributed"%string)); [done|].
  cbn [other as_proto Proto.training Proto.tree_section Proto.tree_root].
  destruct (negb (Prototree.training self) && _); [|done].
  by rewrite predicting_leaves_agree.
Qed.

(** X14. [ProtoTree] of [src/prototree/models.py] and [ProtoTree] of
    [src/proto/models.py] with the same tree, prototype indices and mode
    compute the same routing probabilities, the same [forward] and the same
    predictions, failures included. *)
Theorem prototree_forward_agrees (self : Prototree.ProtoTree) (store : LeafStore)
    (similarities : Tensor2) (strategy : string) (threshold alpha : R) :
  let other := as_proto self threshold alpha in
  Prototree.get_node_to_probs self similarities
    = Proto.get_node_to_probs (Proto.tree_section other) similarities ∧
  Prototree.forward self store similarities strategy
    = Proto.forward other store similarities strategy ∧
  Prototree.predict self store similarities strategy
    = Proto.predict other store similarities strategy ∧
  Prototree.predict_proba self store similarities strategy
    = Proto.predict_probs other store similarities strategy.
Proof.
  intros other.
  destruct (older_forward_agrees self store similarities strategy threshold alpha)
    as [Hprobs Hforward].
  fold other in Hprobs, Hforward.
  split; [done|]. split; [done|].
  unfold Prototree.predict, Prototree.predict_proba, Proto.predict,
    Proto.predict_probs, Proto.predict_logits.
  rewrite Hforward.
  destruct (Proto.forward other store similarities strategy) as [e|[[logits ntp] pl]];
    done.
Qed.

End OlderFile.

(** X15. [ProtoPNet.predict] and [ProtoPNet.predict_proba] of
    [src/prototree/models.py] agree with [predict] and [predict_probs] of
    [src/proto/models.py] for the same classifier, although [forward] of the
    later file normalizes the classifier output and [forward] of the older
    file does not. *)
Theorem pnet_predictions_agree (self : Prototree.ProtoPNet) (similarities : Tensor2) :
  rows (Prototree.pnet_predict_proba self similarities)
    = rows (Proto.pnet_predict_probs (as_proto_pnet self) similarities) ∧
  Prototree.pnet_predict self similarities
    = Proto.pnet_predict (as_proto_pnet self) similarities ∧
  rows (Proto.pnet_forward (as_proto_pnet self) similarities)
    = map log_softmax (rows (Prototree.pnet_forward self similarities)).
Proof.
  unfold Prototree.pnet_predict, Prototree.pnet_predict_proba, Prototree.pnet_forward,
    Proto.pnet_predict, Proto.pnet_predict_probs, Proto.pnet_forward, as_proto_pnet.
  cbn [rows n_cols Proto.classifier].
  assert (Hrows : map softmax (rows (Prototree.classifier self similarities))
            = map softmax (map log_softmax
                (rows (Prototree.classifier self similarities)))).
  { rewrite List.map_map. apply List.map_ext. intros row.
    symmetry. apply softmax_log_softmax. }
  split; [done|]. split; [by rewrite Hrows | done].
Qed.

Lemma length_concat_imap {A B} (f : nat → A → list B) (l : list A) (n : nat) :
  (∀ i a, a ∈ l → length (f i a) = n) →
  length (concat (imap f l)) = (length l * n)%nat.
Proof.
  revert f. induction l as [|a l IH]; intros f Hf; [done|].
  cbn [imap concat length]. rewrite length_app, (Hf 0%nat a) by (by left).
  rewrite IH; [lia|]. intros i a' Ha'. apply Hf. by right.
Qed.

Section OlderRationalize.
Context `{Collaborators}.

Lemma rationalize_ancestors_general (idx : gmap NodeRef nat) (store : LeafStore)
    (channels : nat) (x_i : Image) (leaf : NodeRef) (d_i : list DistMap)
    (p_i : Patches) (ref : nat) (qs : list NodeRef)
    (heap : list (list ImageProtoSimilarity)) (rs : list Prototree.LeafRationalization) :
  map_Forall (λ _ i, (i < channels)%nat) idx → (channels <= length d_i)%nat →
  (∀ q, q ∈ qs → is_Some (idx !! q)) →
  ∃ sims,
    Prototree.rationalize_ancestors idx store x_i leaf d_i p_i ref qs (heap, rs)
      = inr (alter (λ l, l ++ sims) ref heap,
             rs ++ replicate (length qs)
                     (Prototree.mkRationalization ref
                        (predicted_label (dist_params (store leaf))))) ∧
    map internal_node sims = qs.
Proof.
  intros Hbound Hlen. revert heap rs.
  induction qs as [|q qs IH]; intros heap rs Hall.
  - exists []. split; [|done]. cbn [Prototree.rationalize_ancestors ret length replicate].
    rewrite app_nil_r. do 2 f_equal. symmetry.
    apply list_alter_id. intros l. apply app_nil_r.
  - destruct (Hall q) as [i Hi]; [by left|].
    pose proof (Hbound _ _ Hi) as Hlt. simpl in Hlt.
    destruct (lookup_lt_is_Some_2 d_i i) as [d Hd]; [lia|].
    cbn [Prototree.rationalize_ancestors].
    rewrite (proj2 (dict_get_inr _ _ _) Hi). cbn [mbind exn_bind].
    rewrite (proj2 (seq_get_inr _ _ _) Hd). cbn [mbind exn_bind].
    destruct (IH (Prototree.list_append ref (img_proto_similarity q x_i d p_i) heap)
                 (rs ++ [Prototree.mkRationalization ref
                           (predicted_label (dist_params (store leaf)))]))
      as (sims & Hrun & Hsims); [intros q' Hq'; apply Hall; by right|].
    exists (img_proto_similarity q x_i d p_i :: sims). split; [|simpl; by rewrite Hsims].
    rewrite Hrun. f_equal. f_equal.
    + unfold Prototree.list_append. rewrite list_alter_alter_eq.
      apply list_alter_ext; [|done]. intros l _. unfold compose.
      by rewrite <- app_assoc.
    + by rewrite <- app_assoc.
Qed.

Lemma rationalize_batch_general (idx : gmap NodeRef nat) (store : LeafStore)
    (channels : nat) (batch : list (Image * NodeRef * list DistMap * Patches))
    (heap : list (list ImageProtoSimilarity)) (rs : list Prototree.LeafRationalization) :
  map_Forall (λ _ i, (i < channels)%nat) idx →
  Forall (λ b, (channels <= length b.1.2)%nat ∧
               ∀ q, q ∈ ancestors b.1.1.2 → is_Some (idx !! q)) batch →
  ∃ lists,
    Prototree.rationalize_batch idx store batch (heap, rs)
      = inr (heap ++ lists,
             rs ++ concat (imap (λ i b,
                     replicate (length b.1.1.2)
                       (Prototree.mkRationalization (length heap + i)
                          (predicted_label (dist_params (store b.1.1.2))))) batch)) ∧
    Forall2 (λ b sims, map internal_node sims = ancestors b.1.1.2) batch lists.
Proof.
  intros Hbound. revert heap rs.
  induction batch as [|[[[x_i leaf] d_i] p_i] batch IH]; intros heap rs Hall.
  - exists []. split; [|constructor]. simpl. by rewrite !app_nil_r.
  - apply Forall_cons in Hall as [[Hlen Hidx] Hall]. cbn [fst snd] in Hlen, Hidx.
    cbn [Prototree.rationalize_batch Prototree.new_list].
    destruct (rationalize_ancestors_general idx store channels x_i leaf d_i p_i
                (length heap) (ancestors leaf) (heap ++ [[]]) rs Hbound Hlen Hidx)
      as (sims & Hrun & Hsims).
    rewrite Hrun. cbn [mbind exn_bind].
    rewrite alter_app_r_alt, Nat.sub_diag by done. cbn [alter list_alter app].
    destruct (IH (heap ++ [sims])
                 (rs ++ replicate (length (ancestors leaf))
                          (Prototree.mkRationalization (length heap)
                             (predicted_label (dist_params (store leaf)))))
                 Hall) as (lists & Hrest & Hlists).
    exists (sims :: lists). split; [|by constructor].
    rewrite Hrest. f_equal. f_equal.
    + by rewrite <- app_assoc.
    + rewrite <- app_assoc. f_equal. cbn [imap concat fst snd].
      rewrite Nat.add_0_r, length_ancestors. f_equal. f_equal.
      apply imap_ext. intros i b _. unfold compose.
      rewrite length_app. cbn [length]. do 2 f_equal. lia.
Qed.

Lemma prototree_rationalize_general (idx : gmap NodeRef nat)
    (store : LeafStore) (channels : nat) (x : list Image)
    (predicting_leaves : list NodeRef) (distances : list (list DistMap))
    (patches : list Patches) :
  map_Forall (λ _ i, (i < channels)%nat) idx →
  Forall (λ d, (channels <= length d)%nat) distances →
  (∀ leaf q, leaf ∈ predicting_leaves → q ∈ ancestors leaf → is_Some (idx !! q)) →
  length predicting_leaves = length x → length distances = length x →
  length patches = length x →
  ∃ heap rationalizations,
    Prototree.rationalize idx store x predicting_leaves distances patches
      = inr (heap, rationalizations) ∧
    rationalizations
      = concat (imap (λ i leaf,
          replicate (length (ancestors leaf))
            (Prototree.mkRationalization i
               (predicted_label (dist_params (store leaf))))) predicting_leaves) ∧
    length heap = length x ∧
    (∀ i leaf, predicting_leaves !! i = Some leaf →
       map internal_node (Prototree.deref heap i) = ancestors leaf).
Proof.
  intros Hbound Hdists Hidx Hpl Hd Hp. unfold Prototree.rationalize.
  set (batch := zip (zip (zip x predicting_leaves) distances) patches).
  assert (Hleaves : (λ b, b.1.1.2) <$> batch = predicting_leaves).
  { apply list_eq. intros i. rewrite list_lookup_fmap.
    destruct (predicting_leaves !! i) as [leaf|] eqn:Hleaf.
    - pose proof (lookup_lt_Some _ _ _ Hleaf) as Hi.
      destruct (lookup_lt_is_Some_2 x i) as [x_i Hxi]; [lia|].
      destruct (lookup_lt_is_Some_2 distances i) as [d_i Hdi]; [lia|].
      destruct (lookup_lt_is_Some_2 patches i) as [p_i Hpi]; [lia|].
      assert (batch !! i = Some (x_i, leaf, d_i, p_i)) as ->; [|done].
      unfold batch. by repeat (apply lookup_zip_Some; split).
    - apply lookup_ge_None in Hleaf.
      rewrite (lookup_ge_None_2 batch); [done|].
      unfold batch. rewrite !length_zip. lia. }
  destruct (rationalize_batch_general idx store channels batch [] [] Hbound)
    as (lists & Hrun & Hlists).
  { apply Forall_lookup. intros i [[[x_i leaf] d_i] p_i] Hi. unfold batch in Hi.
    apply lookup_zip_Some in Hi as [Hi _].
    apply lookup_zip_Some in Hi as [Hi Hdi].
    apply lookup_zip_Some in Hi as [_ Hli]. cbn [fst snd]. split.
    - by apply (Forall_lookup_1 _ _ _ _ Hdists Hdi).
    - intros q Hq. apply (Hidx leaf q); [|done]. by eapply list_elem_of_lookup_2. }
  cbn [app length Nat.add] in Hrun.
  assert (Hrs : concat (imap (λ i b,
              replicate (length b.1.1.2)
                (Prototree.mkRationalization i
                   (predicted_label (dist_params (store b.1.1.2))))) batch)
            = concat (imap (λ i leaf,
                replicate (length (ancestors leaf))
                  (Prototree.mkRationalization i
                     (predicted_label (dist_params (store leaf)))))
                predicting_leaves)).
  { rewrite <- Hleaves, imap_fmap. f_equal. apply imap_ext. intros i b _.
    unfold compose. by rewrite length_ancestors. }
  assert (Hlen : length lists = length x).
  { apply Forall2_length in Hlists. rewrite <- Hlists. unfold batch.
    rewrite !length_zip. lia. }
  exists lists, (concat (imap (λ i leaf,
      replicate (length (ancestors leaf))
        (Prototree.mkRationalization i
           (predicted_label (dist_params (store leaf))))) predicting_leaves)).
  split; [by rewrite Hrun, Hrs|]. split; [done|]. split; [done|].
  intros i leaf Hleaf.
  rewrite <- Hleaves, list_lookup_fmap in Hleaf.
  destruct (batch !! i) as [b|] eqn:Hb; [|done]. injection Hleaf as <-.
  destruct (Forall2_lookup_l _ _ _ _ _ Hlists Hb) as (sims & Hsims & Hmap).
  unfold Prototree.deref. by rewrite (nth_lookup_Some _ _ _ _ Hsims).
Qed.

(** X16. [ProtoTree.rationalize] of [src/prototree/models.py] builds its
    rationalizations inside the loop over the ancestors: for [n] (image, leaf)
    pairs it returns, pair after pair, as many rationalizations as the leaf
    has ancestors, all of which hold the same list object, and that list holds
    in the end the similarities of all ancestors of the leaf from the root
    down; for leaves of depth [depth] these are [n * depth]
    rationalizations. *)
Theorem prototree_rationalize_per_ancestor (idx : gmap NodeRef nat)
    (store : LeafStore) (channels depth : nat) (x : list Image)
    (predicting_leaves : list NodeRef) (distances : list (list DistMap))
    (patches : list Patches) :
  map_Forall (λ _ i, (i < channels)%nat) idx →
  Forall (λ d, (channels <= length d)%nat) distances →
  (∀ leaf q, leaf ∈ predicting_leaves → q ∈ ancestors leaf → is_Some (idx !! q)) →
  length predicting_leaves = length x → length distances = length x →
  length patches = length x →
  ∃ heap rationalizations,
    Prototree.rationalize idx store x predicting_leaves distances patches
      = inr (heap, rationalizations) ∧
    rationalizations
      = concat (imap (λ i leaf,
          replicate (length (ancestors leaf))
            (Prototree.mkRationalization i
               (predicted_label (dist_params (store leaf))))) predicting_leaves) ∧
    length heap = length x ∧
    (∀ i leaf, predicting_leaves !! i = Some leaf →
       map internal_node (Prototree.deref heap i) = ancestors leaf) ∧
    ((∀ leaf, leaf ∈ predicting_leaves → length leaf = depth) →
     length rationalizations = (length x * depth)%nat).
Proof.
  intros Hbound Hdists Hidx Hpl Hd Hp.
  destruct (prototree_rationalize_general idx store channels x predicting_leaves
              distances patches Hbound Hdists Hidx Hpl Hd Hp)
    as (heap & rs & Hrun & Hrs & Hheap & Hlists).
  exists heap, rs. split; [done|]. split; [done|]. split; [done|]. split; [done|].
  intros Hdepth. rewrite Hrs, <- Hpl. apply length_concat_imap.
  intros i leaf Hleaf. rewrite length_replicate, length_ancestors. by apply Hdepth.
Qed.

(** X17. In inference mode and under a single-leaf strategy, [ProtoTree.explain]
    of [src/prototree/models.py] on a non-empty batch of [n] images returns,
    for a tree of depth [depth], the result of [forward] with [n * depth]
    rationalizations over [n] lists of ancestor similarities. *)
Theorem prototree_explain_per_ancestor (self : Prototree.ProtoTree)
    (store : LeafStore) (similarities : Tensor2) (x : list Image)
    (distances : list (list DistMap)) (patches : list Patches) (strategy : string)
    (depth : nat) :
  Prototree.training self = false →
  strategy = "sample_max"%string ∨ strategy = "greedy"%string →
  (1 <= depth)%nat →
  Prototree.tree_root self = mkNode [] (perfect depth) →
  indexed (Prototree.tree_root self) (Prototree.node_to_proto_idx self)
    (n_cols similarities) →
  (∀ leaf, leaf ∈ leaves (Prototree.tree_root self) →
     length (y_logits (dist_params (store leaf))) = Prototree.num_classes self) →
  (1 <= length x)%nat →
  length (rows similarities) = length x → length distances = length x →
  length patches = length x →
  Forall (λ d, (n_cols similarities <= length d)%nat) distances →
  ∃ logits node_to_probs predicting_leaves heap rationalizations,
    Prototree.forward self store similarities strategy
      = inr (logits, node_to_probs, Some predicting_leaves) ∧
    Prototree.explain self store similarities x distances patches strategy
      = inr (logits, node_to_probs, Some predicting_leaves,
             (heap, rationalizations)) ∧
    length predicting_leaves = length x ∧
    length heap = length x ∧
    length rationalizations = (length x * depth)%nat.
Proof.
  intros Hmode Hstrategy Hdepth Hroot Hidx Hstore Hx Hrows Hdists Hpatches Hchannels.
  destruct (older_forward_agrees self store similarities strategy 0 0)
    as [_ Hforward].
  destruct (forward_hard (as_proto self 0 0) store similarities strategy)
    as (ntp & pl & _ & _ & _ & Hfwd & Hlen & Hin); try done.
  { cbn. rewrite Hroot. destruct depth; [lia | done]. }
  { intros Hnil. rewrite Hnil in Hrows. simpl in Hrows. lia. }
  cbn [as_proto Proto.tree_section Proto.tree_root Proto.num_classes] in Hfwd, Hin.
  rewrite <- Hforward in Hfwd.
  assert (Hleaf : ∀ leaf, leaf ∈ pl → leaf ∈ leaves_at (perfect depth) []).
  { intros leaf Hleaf. pose proof (proj1 (Forall_forall _ _) Hin leaf Hleaf) as Hl.
    simpl in Hl. unfold leaves in Hl. by rewrite Hroot in Hl. }
  destruct (prototree_rationalize_general (Prototree.node_to_proto_idx self) store
              (n_cols similarities) x pl distances patches)
    as (heap & rs & Hrun & Hrs & Hheap & _); try done; try lia.
  { by destruct Hidx. }
  { intros leaf q Hl Hq. destruct Hidx as [Hcover _].
    destruct (ancestors_internal _ _ _ q (Hleaf leaf Hl) Hq) as (n & Hn & <- & Hint).
    { apply suffix_nil. }
    apply Hcover. apply list_elem_of_filter. split; [done|].
    unfold descendants. by rewrite Hroot. }
  eexists _, ntp, pl, heap, rs. split; [exact Hfwd|]. split.
  - unfold Prototree.explain. rewrite Hfwd. cbn [mbind exn_bind]. by rewrite Hrun.
  - split; [lia|]. split; [done|].
    rewrite Hrs, <- Hrows, <- Hlen. apply length_concat_imap.
    intros i leaf Hl. rewrite length_replicate, length_ancestors.
    apply Hleaf, leaves_at_perfect_length in Hl. simpl in Hl. lia.
Qed.

End OlderRationalize.

(** ** Evaluation *)

Lemma tensor_sum_le (t : list bool) : (tensor_sum t <= length t)%nat.
Proof. unfold tensor_sum. apply length_filter. Qed.

Lemma tensor_sum_refl (l : list nat) : tensor_sum (zip_with Nat.eqb l l) = length l.
Proof.
  unfold tensor_sum. induction l as [|a l IH]; [done|]. cbn [zip_with].
  rewrite Nat.eqb_refl, filter_cons_True by done. cbn [length]. by rewrite IH.
Qed.

Lemma accuracy_bounds (y_pred y : list nat) :
  length y_pred = length y → (1 <= length y)%nat → 0 <= accuracy y_pred y <= 1.
Proof.
  intros Hlen Hy. unfold accuracy.
  pose proof (tensor_sum_le (zip_with Nat.eqb y_pred y)) as Hle.
  rewrite length_zip_with, Hlen, Nat.min_id in Hle.
  apply le_INR in Hle. pose proof (pos_INR (tensor_sum (zip_with Nat.eqb y_pred y))).
  assert (0 < INR (length y)) by (apply lt_0_INR; lia).
  pose proof (Rinv_0_lt_compat _ H0) as Hinv. unfold Rdiv. split.
  - apply Rmult_le_pos; lra.
  - rewrite <- (Rinv_r (INR (length y))) by lra.
    apply Rmult_le_compat_r; lra.
Qed.

Lemma batch_accuracy_equal_length (y_pred y : list nat) :
  length y_pred = length y → (1 <= length y)%nat →
  CoreEval.batch_accuracy y_pred y = inr (accuracy y_pred y).
Proof.
  intros Hlen Hy. unfold CoreEval.batch_accuracy, tensor_eq.
  rewrite decide_True by done. cbn.
  destruct (decide (length y = 0%nat)); [lia | done].
Qed.

Lemma Rsum_bounds (l : list R) :
  Forall (λ a, 0 <= a <= 1) l → 0 <= Rsum l <= INR (length l).
Proof.
  induction 1 as [|a l Ha _ IH]; [simpl; lra|].
  cbn [Rsum foldr length]. fold (Rsum l). rewrite S_INR. lra.
Qed.

Section Evaluation.
Context `{Collaborators}.

Lemma predict_inr (model : Proto.ProtoTree) (store : LeafStore) (x : Tensor2)
    (strategy : string) (preds : list nat) :
  Proto.predict model store x strategy = inr preds →
  ∃ logits ntp pl,
    Proto.forward model store x strategy = inr (logits, ntp, pl) ∧
    for_each argmax (rows logits) = inr preds.
Proof.
  unfold Proto.predict, Proto.predict_logits.
  destruct (Proto.forward model store x strategy) as [e|[[logits ntp] pl]]; [done|].
  intros Hrun. by exists logits, ntp, pl.
Qed.

Lemma prototree_loop_spec (model : Proto.ProtoTree) (store : LeafStore)
    (strategy : string) (n k : nat) (samples : list CoreEval.Sample)
    (predss : list (list nat)) (total : R) (avg : option R) (df : list CoreEval.Row) :
  Forall2 (λ sample preds,
     Proto.predict model store (CoreEval.sample_x sample) strategy = inr preds ∧
     length preds = length (CoreEval.sample_y sample) ∧
     (1 <= length (CoreEval.sample_y sample))%nat) samples predss →
  (k + length samples)%nat = n →
  CoreEval.prototree_loop model store strategy false n k samples total avg df
    = inr (match samples with
           | [] => avg
           | _ => Some ((total + Rsum (zip_with accuracy predss
                                         (map CoreEval.sample_y samples))) / INR n)
           end, df).
Proof.
  intros Hall. revert k total avg.
  induction Hall as [|sample preds samples predss (Hpred & Hlen & Hy) Hall IH];
    intros k total avg Hn; [done|].
  apply predict_inr in Hpred as (logits & ntp & pl & Hfwd & Hargmax).
  cbn [CoreEval.prototree_loop]. rewrite Hfwd. cbn [CoreEval.lift mbind CoreEval.error_bind].
  unfold CoreEval.explain_batch. cbn [mbind CoreEval.error_bind].
  rewrite Hargmax. cbn [CoreEval.lift mbind CoreEval.error_bind].
  unfold CoreEval.account. rewrite (batch_accuracy_equal_length _ _ Hlen Hy).
  cbn [mbind CoreEval.error_bind length] in *.
  destruct (decide (Z.of_nat k = (Z.of_nat n - 1)%Z)) as [Hlast | Hmore].
  - assert (samples = []) as -> by (apply length_zero_iff_nil; lia).
    inversion Hall; subst. cbn. do 3 f_equal. lra.
  - cbn [mbind CoreEval.error_bind]. rewrite (IH (S k)) by lia.
    destruct samples as [|sample' samples]; [simpl in Hn; lia|].
    do 3 f_equal. unfold Rsum. cbn [map zip_with foldr].
    set (more := foldr Rplus 0 _). lra.
Qed.

(** X18. Without explanations, [eval_prototree_model] puts the model into
    evaluation mode and returns the mean, over the batches of the loader, of
    the fraction of labels that [predict] hits in the batch, a number between 0
    and 1; on a loader without batches it raises [UnboundLocalError], with or
    without explanations. *)
Theorem eval_prototree_model_mean_accuracy (model : Proto.ProtoTree)
    (store : LeafStore) (data_loader : list CoreEval.Sample) (strategy : string)
    (predss : list (list nat)) :
  Forall2 (λ sample preds,
     Proto.predict (CoreEval.eval_mode model) store (CoreEval.sample_x sample) strategy
       = inr preds ∧
     length preds = length (CoreEval.sample_y sample) ∧
     (1 <= length (CoreEval.sample_y sample))%nat) data_loader predss →
  (data_loader = [] →
   ∀ explain, CoreEval.eval_prototree_model model store data_loader strategy explain
              = inl CoreEval.UnboundLocalError) ∧
  (data_loader ≠ [] →
   ∃ acc,
     CoreEval.eval_prototree_model model store data_loader strategy false
       = inr (acc, None) ∧
     acc = Rsum (zip_with accuracy predss (map CoreEval.sample_y data_loader))
           / INR (length data_loader) ∧
     0 <= acc <= 1).
Proof.
  intros Hall. split; [by intros -> explain|]. intros Hne.
  unfold CoreEval.eval_prototree_model.
  rewrite (prototree_loop_spec _ _ _ (length data_loader) 0 _ predss 0 None []
             Hall eq_refl).
  destruct data_loader as [|sample rest] eqn:Hloader; [done|]. rewrite <- Hloader in *.
  cbn [mbind CoreEval.error_bind CoreEval.result]. rewrite Rplus_0_l.
  eexists. split; [done|]. split; [done|].
  assert (Hbounds : Forall (λ a, 0 <= a <= 1)
            (zip_with accuracy predss (map CoreEval.sample_y data_loader))).
  { apply Forall_lookup. intros i a Ha.
    apply lookup_zip_with_Some in Ha as (preds & y & -> & Hp & Hy).
    rewrite list_lookup_fmap in Hy.
    destruct (data_loader !! i) as [sample'|] eqn:Hs; [|done]. injection Hy as <-.
    destruct (Forall2_lookup_l _ _ _ _ _ Hall Hs) as (preds' & Hp' & _ & Hlen & Hy).
    assert (preds' = preds) as -> by congruence.
    by apply accuracy_bounds. }
  apply Rsum_bounds in Hbounds.
  rewrite length_zip_with, length_map in Hbounds.
  rewrite <- (Forall2_length _ _ _ Hall), Nat.min_id in Hbounds.
  assert (0 < INR (length data_loader)).
  { apply lt_0_INR. rewrite Hloader. simpl. lia. }
  pose proof (Rinv_0_lt_compat _ H0) as Hinv. unfold Rdiv. split.
  - apply Rmult_le_pos; lra.
  - rewrite <- (Rinv_r (INR (length data_loader))) by lra.
    apply Rmult_le_compat_r; lra.
Qed.

Lemma quotient_bounds (k l n : nat) :
  (k <= l)%nat → (1 <= l)%nat → (1 <= n)%nat →
  CoreEval.float_div k (l * n) = CoreEval.Real (INR k / INR (l * n)) ∧
  0 <= INR k / INR (l * n) <= 1 / INR n ∧
  (k = l → INR k / INR (l * n) = 1 / INR n).
Proof.
  intros Hk Hl Hn. unfold CoreEval.float_div.
  rewrite decide_False by nia. split; [done|].
  rewrite mult_INR.
  assert (0 < INR l) by (apply lt_0_INR; lia).
  assert (0 < INR n) by (apply lt_0_INR; lia).
  pose proof (pos_INR k). apply le_INR in Hk.
  replace (INR k / (INR l * INR n)) with ((INR k / INR l) * / INR n)
    by (field; lra).
  pose proof (Rinv_0_lt_compat _ H0) as Hil.
  pose proof (Rinv_0_lt_compat _ H1) as Hin.
  assert (0 <= INR k / INR l <= 1) as [Hq0 Hq1].
  { unfold Rdiv. split; [apply Rmult_le_pos; lra|].
    rewrite <- (Rinv_r (INR l)) by lra. apply Rmult_le_compat_r; lra. }
  split.
  - split; [apply Rmult_le_pos; lra|]. unfold Rdiv. rewrite Rmult_1_l.
    rewrite <- (Rmult_1_l (/ INR n)) at 2. apply Rmult_le_compat_r; lra.
  - intros ->. field. lra.
Qed.

Lemma fidelity_loop_spec (tree : Proto.ProtoTree) (store : LeafStore)
    (test_strategy ref_strategy : string) (n : nat) (samples : list CoreEval.Sample)
    (f0 : R) :
  (1 <= n)%nat →
  Forall (λ sample, ∃ p_ref p_test,
     Proto.predict tree store (CoreEval.sample_x sample) ref_strategy = inr p_ref ∧
     Proto.predict tree store (CoreEval.sample_x sample) test_strategy = inr p_test ∧
     length p_ref = length (CoreEval.sample_y sample) ∧
     length p_test = length (CoreEval.sample_y sample) ∧
     (1 <= length (CoreEval.sample_y sample))%nat) samples →
  ∃ f, CoreEval.fidelity_loop tree store test_strategy ref_strategy n samples
         (CoreEval.Real f0) = inr (CoreEval.Real f) ∧
       f0 <= f <= f0 + INR (length samples) / INR n ∧
       (test_strategy = ref_strategy → f = f0 + INR (length samples) / INR n).
Proof.
  intros Hn Hall. revert f0.
  induction Hall as [|sample samples (p_ref & p_test & Href & Htest & Hlr & Hlt & Hy)
                       Hall IH]; intros f0.
  - exists f0. split; [done|]. cbn [length INR]. unfold Rdiv. rewrite Rmult_0_l.
    split; [lra|]. intros _. lra.
  - cbn [CoreEval.fidelity_loop]. rewrite Href, Htest.
    cbn [CoreEval.lift mbind CoreEval.error_bind]. unfold tensor_eq.
    rewrite decide_True by congruence. cbn [ret CoreEval.lift mbind CoreEval.error_bind].
    destruct (quotient_bounds (tensor_sum (zip_with Nat.eqb p_ref p_test))
                (length (CoreEval.sample_y sample)) n) as (-> & [Hq0 Hq1] & Hq); try done.
    { pose proof (tensor_sum_le (zip_with Nat.eqb p_ref p_test)) as Hle.
      rewrite length_zip_with in Hle. lia. }
    cbn [CoreEval.float_add].
    destruct (IH (f0 + INR (tensor_sum (zip_with Nat.eqb p_ref p_test))
                       / INR (length (CoreEval.sample_y sample) * n)))
      as (f & Hrun & [Hf0 Hf1] & Hf).
    exists f. split; [done|].
    assert (Hsucc : INR (length (sample :: samples)) / INR n
                    = INR (length samples) / INR n + 1 / INR n).
    { cbn [length]. rewrite S_INR. field.
      assert (0 < INR n) by (apply lt_0_INR; lia). lra. }
    rewrite Hsucc. split; [lra|]. intros Heq. rewrite (Hf Heq), Hq; [lra|].
    subst test_strategy. assert (p_test = p_ref) as -> by congruence.
    rewrite tensor_sum_refl. done.
Qed.

(** X19. Where [predict] returns one label per sample of every (non-empty)
    batch under both strategies, [eval_fidelity] returns a number between 0
    and 1; it is 0 for a loader without batches, and 1 for a strategy compared
    with itself on a loader with batches. *)
Theorem eval_fidelity_bounds (tree : Proto.ProtoTree) (store : LeafStore)
    (data_loader : list CoreEval.Sample) (test_strategy ref_strategy : string) :
  Forall (λ sample, ∃ p_ref p_test,
     Proto.predict (CoreEval.eval_mode tree) store (CoreEval.sample_x sample) ref_strategy
       = inr p_ref ∧
     Proto.predict (CoreEval.eval_mode tree) store (CoreEval.sample_x sample) test_strategy
       = inr p_test ∧
     length p_ref = length (CoreEval.sample_y sample) ∧
     length p_test = length (CoreEval.sample_y sample) ∧
     (1 <= length (CoreEval.sample_y sample))%nat) data_loader →
  ∃ f,
    CoreEval.eval_fidelity tree store data_loader test_strategy ref_strategy
      = inr (CoreEval.Real f) ∧
    0 <= f <= 1 ∧
    (data_loader = [] → f = 0) ∧
    (data_loader ≠ [] → test_strategy = ref_strategy → f = 1).
Proof.
  intros Hall. unfold CoreEval.eval_fidelity.
  destruct data_loader as [|sample rest] eqn:Hloader.
  - exists 0. split; [done|]. split; [lra|]. split; [done|]. by intros Hne.
  - rewrite <- Hloader in *.
    assert (Hn : (1 <= length data_loader)%nat) by (rewrite Hloader; simpl; lia).
    destruct (fidelity_loop_spec (CoreEval.eval_mode tree) store test_strategy
                ref_strategy (length data_loader) data_loader 0 Hn Hall)
      as (f & Hrun & [Hf0 Hf1] & Hf).
    assert (Hone : INR (length data_loader) / INR (length data_loader) = 1).
    { field. assert (0 < INR (length data_loader)) by (apply lt_0_INR; lia). lra. }
    rewrite Hone in Hf1, Hf.
    exists f. split; [done|]. split; [lra|]. split.
    + intros Hnil. rewrite Hnil in Hloader. discriminate.
    + intros _ Heq. rewrite (Hf Heq). lra.
Qed.

End Evaluation.

(** ** Explanations by modified images *)

Lemma concat_replicate_singleton {A} (n : nat) (a : A) :
  concat (replicate n [a]) = replicate n a.
Proof. induction n as [|n IH]; [done|]. simpl. by rewrite IH. Qed.

Lemma lookup_concat_uniform {A} (blocks : list (list A)) (n j i : nat) (b : list A) :
  Forall (λ b, length b = n) blocks → blocks !! j = Some b → (i < n)%nat →
  concat blocks !! (j * n + i)%nat = b !! i.
Proof.
  intros Hall. revert j. induction Hall as [|b0 blocks Hb0 _ IH]; intros j Hj Hi;
    [done|].
  destruct j as [|j]; cbn [concat].
  - injection Hj as ->. simpl. apply lookup_app_l. lia.
  - rewrite lookup_app_r by (rewrite Hb0; lia).
    replace (S j * n + i - length b0)%nat with (j * n + i)%nat by (rewrite Hb0; lia).
    by apply IH.
Qed.

Lemma length_concat_uniform {A} (blocks : list (list A)) (n : nat) :
  Forall (λ b, length b = n) blocks → length (concat blocks) = (length blocks * n)%nat.
Proof.
  induction 1 as [|b blocks Hb _ IH]; [done|].
  cbn [concat length]. rewrite length_app, Hb, IH. lia.
Qed.

Lemma explanation_columns_spec (dists_row : Tensor) (n : nat) (p : string)
    (x_mods : list (string * Tensor2)) (data : CoreEval.Columns) :
  length dists_row = n →
  Forall (λ m, n_cols m.2 = n ∧ ∃ r, rows m.2 = [r] ∧ length r = n) x_mods →
  CoreEval.explanation_columns dists_row n [p] x_mods data
    = inr (CoreEval.mkColumns
        (CoreEval.col_image data ++ replicate (length x_mods * n) p)
        (CoreEval.col_prototype data ++ concat (replicate (length x_mods) (seq 0 n)))
        (CoreEval.col_modification data
           ++ concat (map (λ m, replicate n m.1) x_mods))
        (CoreEval.col_delta data
           ++ concat (map (λ m, zip_with (λ a b, Rabs (a - b)) dists_row
                                  (nth 0 (rows m.2) [])) x_mods))
        (CoreEval.col_orig_similarity data
           ++ concat (replicate (length x_mods) dists_row))).
Proof.
  intros Hlen Hall. revert data.
  induction Hall as [|[name t] x_mods (Hcols & r & Hrows & Hr) _ IH]; intros data.
  - destruct data. cbn. by rewrite !app_nil_r.
  - cbn [CoreEval.explanation_columns fst snd] in *.
    unfold CoreEval.abs_difference. rewrite decide_True by done.
    cbn [mbind CoreEval.error_bind]. rewrite IH.
    cbn [CoreEval.col_image CoreEval.col_prototype CoreEval.col_modification
         CoreEval.col_delta CoreEval.col_orig_similarity].
    rewrite Hrows. cbn [map concat replicate length nth fst snd].
    change (S (length x_mods) * n)%nat with (n + length x_mods * n)%nat.
    rewrite concat_replicate_singleton, app_nil_r, replicate_add, <- !app_assoc.
    by rewrite Hrows.
Qed.

(** X20. [prototypes_explanation] raises [AssertionError] unless the batch
    holds one image.  For one image with one path, and modified images of one
    row each over the same prototypes, it returns one row per modification and
    prototype, in this order: the path, the prototype, the modification, the
    absolute difference of the two distances, and the distance of the
    original image. *)
Theorem prototypes_explanation_rows (dists : Tensor2) (path : list string)
    (x_mods : list (string * Tensor2)) :
  (length (rows dists) ≠ 1%nat →
   CoreEval.prototypes_explanation dists path x_mods = inl CoreEval.AssertionError) ∧
  (∀ dists_row p,
     rows dists = [dists_row] → length dists_row = n_cols dists → path = [p] →
     Forall (λ m, n_cols m.2 = n_cols dists ∧
                  ∃ r, rows m.2 = [r] ∧ length r = n_cols dists) x_mods →
     ∃ frame,
       CoreEval.prototypes_explanation dists path x_mods = inr frame ∧
       length frame = (length x_mods * n_cols dists)%nat ∧
       ∀ j i name t r,
         x_mods !! j = Some (name, t) → rows t = [r] → (i < n_cols dists)%nat →
         frame !! (j * n_cols dists + i)%nat
           = Some (CoreEval.mkRow p i name
                     (Rabs (nth i dists_row 0 - nth i r 0)) (nth i dists_row 0))).
Proof.
  split.
  - intros Hrows. unfold CoreEval.prototypes_explanation.
    destruct (rows dists) as [|row [|row' more]]; done.
  - intros dists_row p Hrows Hlen -> Hmods.
    unfold CoreEval.prototypes_explanation. rewrite Hrows.
    rewrite (explanation_columns_spec _ _ _ _ _ Hlen Hmods).
    cbn [mbind CoreEval.error_bind CoreEval.col_image CoreEval.col_prototype
         CoreEval.col_modification CoreEval.col_delta CoreEval.col_orig_similarity app].
    set (n := n_cols dists) in *. set (m := length x_mods).
    set (c_prototype := concat (replicate m (seq 0 n))).
    set (c_modification := concat (map (λ m, replicate n m.1) x_mods)).
    set (c_delta := concat (map (λ m, zip_with (λ a b, Rabs (a - b)) dists_row
                                        (nth 0 (rows m.2) [])) x_mods)).
    set (c_orig := concat (replicate m dists_row)).
    assert (Hb_prototype : Forall (λ b, length b = n) (replicate m (seq 0 n))).
    { apply Forall_replicate. apply length_seq. }
    assert (Hb_modification : Forall (λ b, length b = n)
                                (map (λ m, replicate n m.1) x_mods)).
    { apply Forall_forall. intros b Hb.
      apply list_elem_of_In, List.in_map_iff in Hb as (x & <- & _).
      apply length_replicate. }
    assert (Hb_delta : Forall (λ b, length b = n)
              (map (λ m, zip_with (λ a b, Rabs (a - b)) dists_row
                           (nth 0 (rows m.2) [])) x_mods)).
    { apply Forall_forall. intros b Hb.
      apply list_elem_of_In, List.in_map_iff in Hb as (x & <- & Hx).
      apply list_elem_of_In in Hx.
      destruct (proj1 (Forall_forall _ _) Hmods x Hx) as (_ & r & -> & Hr).
      cbn [nth]. rewrite length_zip_with. lia. }
    assert (Hb_orig : Forall (λ b, length b = n) (replicate m dists_row)).
    { by apply Forall_replicate. }
    assert (Hl_prototype : length c_prototype = (m * n)%nat).
    { unfold c_prototype. rewrite (length_concat_uniform _ n) by done.
      by rewrite length_replicate. }
    assert (Hl_modification : length c_modification = (m * n)%nat).
    { unfold c_modification. rewrite (length_concat_uniform _ n) by done.
      by rewrite length_map. }
    assert (Hl_delta : length c_delta = (m * n)%nat).
    { unfold c_delta. rewrite (length_concat_uniform _ n) by done.
      by rewrite length_map. }
    assert (Hl_orig : length c_orig = (m * n)%nat).
    { unfold c_orig. rewrite (length_concat_uniform _ n) by done.
      by rewrite length_replicate. }
    unfold CoreEval.data_frame.
    cbn [CoreEval.col_image CoreEval.col_prototype CoreEval.col_modification
         CoreEval.col_delta CoreEval.col_orig_similarity].
    rewrite decide_True by (rewrite length_replicate; done).
    eexists. split; [done|]. split.
    { rewrite length_zip_with, !length_zip, length_replicate. lia. }
    intros j i name t r Hj Ht Hi.
    assert (Hjm : (j < m)%nat) by (by eapply lookup_lt_Some).
    assert (Hji : (j * n + i < m * n)%nat) by nia.
    apply lookup_zip_with_Some.
    exists (p, i, name, Rabs (nth i dists_row 0 - nth i r 0)), (nth i dists_row 0).
    split; [done|]. split.
    + repeat (apply lookup_zip_Some; split).
      * by apply lookup_replicate_2.
      * unfold c_prototype.
        rewrite (lookup_concat_uniform _ n j i (seq 0 n)); [| done | | done].
        -- by apply lookup_seq.
        -- by apply lookup_replicate_2.
      * unfold c_modification.
        rewrite (lookup_concat_uniform _ n j i (replicate n name)); [| done | | done].
        -- by apply lookup_replicate_2.
        -- by rewrite list_lookup_fmap, Hj.
      * unfold c_delta.
        rewrite (lookup_concat_uniform _ n j i
                   (zip_with (λ a b, Rabs (a - b)) dists_row r)); [| done | | done].
        -- destruct (proj1 (Forall_forall _ _) Hmods (name, t)) as (_ & r' & Hr' & Hlr).
           { by eapply list_elem_of_lookup_2. }
           cbn [snd] in Hr'. assert (r' = r) as -> by congruence.
           apply lookup_zip_with_Some. eexists _, _. split; [done|].
           split; apply nth_lookup_total; lia.
        -- rewrite list_lookup_fmap, Hj. cbn [fmap option_fmap option_map snd].
           by rewrite Ht.
    + unfold c_orig.
      rewrite (lookup_concat_uniform _ n j i dists_row); [| done | | done].
      * apply nth_lookup_total. lia.
      * by apply lookup_replicate_2.
Qed.

Lemma pnet_predict_argmax (self : Proto.ProtoPNet) (all_dists : Tensor2) :
  Proto.pnet_predict self all_dists
    = for_each argmax (rows (Proto.classifier self all_dists)).
Proof.
  unfold Proto.pnet_predict, Proto.pnet_predict_probs, Proto.pnet_forward.
  cbn [rows n_cols]. rewrite !for_each_map. apply for_each_ext. intros row.
  by rewrite argmax_softmax, argmax_log_softmax.
Qed.

Lemma protopnet_loop_spec (model : Proto.ProtoPNet) (explain : bool) (n k : nat)
    (samples : list CoreEval.Sample) (predss : list (list nat))
    (frames : list (list CoreEval.Row)) (total : R) (avg : option R)
    (df : list CoreEval.Row) :
  Forall2 (λ sample preds,
     Proto.pnet_predict model (CoreEval.sample_x sample) = inr preds ∧
     length preds = length (CoreEval.sample_y sample) ∧
     (1 <= length (CoreEval.sample_y sample))%nat) samples predss →
  (explain = true →
   Forall2 (λ sample frame,
      CoreEval.prototypes_explanation (CoreEval.sample_x sample)
        (CoreEval.sample_path sample) (CoreEval.sample_x_mods sample) = inr frame)
     samples frames) →
  (k + length samples)%nat = n →
  CoreEval.protopnet_loop model explain n k samples total avg df
    = inr (match samples with
           | [] => avg
           | _ => Some ((total + Rsum (zip_with accuracy predss
                                         (map CoreEval.sample_y samples))) / INR n)
           end, if explain then df ++ concat frames else df).
Proof.
  intros Hall. revert k total avg df frames.
  induction Hall as [|sample preds samples predss (Hpred & Hlen & Hy) Hall IH];
    intros k total avg df frames Hframes Hn.
  - cbn. destruct explain; [|done].
    specialize (Hframes eq_refl). inversion Hframes. by rewrite app_nil_r.
  - cbn [CoreEval.protopnet_loop].
    assert (Hpred' : (if explain
              then for_each argmax (map softmax (map log_softmax
                     (rows (Proto.classifier model (CoreEval.sample_x sample)))))
              else Proto.pnet_predict model (CoreEval.sample_x sample)) = inr preds).
    { by destruct explain. }
    rewrite Hpred'. clear Hpred'.
    assert (Hexplain : ∃ frames',
      CoreEval.explain_batch explain sample df
        = inr (if explain then df ++ hd [] frames else df) ∧
      (explain = true → frames = hd [] frames :: frames' ∧
         Forall2 (λ sample frame,
           CoreEval.prototypes_explanation (CoreEval.sample_x sample)
             (CoreEval.sample_path sample) (CoreEval.sample_x_mods sample)
             = inr frame) samples frames')).
    { unfold CoreEval.explain_batch. destruct explain; [|by exists []].
      specialize (Hframes eq_refl).
      apply Forall2_cons_inv_l in Hframes as (frame & frames' & Hframe & Hrest & ->).
      exists frames'. rewrite Hframe. cbn. done. }
    destruct Hexplain as (frames' & -> & Hrest).
    cbn [CoreEval.lift mbind CoreEval.error_bind].
    unfold CoreEval.account. rewrite (batch_accuracy_equal_length _ _ Hlen Hy).
    cbn [mbind CoreEval.error_bind length] in *.
    destruct (decide (Z.of_nat k = (Z.of_nat n - 1)%Z)) as [Hlast | Hmore].
    + assert (samples = []) as -> by (apply length_zero_iff_nil; lia).
      inversion Hall; subst. cbn. f_equal. f_equal; [do 2 f_equal; lra|].
      destruct explain; [|done]. destruct (Hrest eq_refl) as [-> Hnil].
      inversion Hnil. cbn. by rewrite app_nil_r.
    + cbn [mbind CoreEval.error_bind].
      rewrite (IH (S k) _ _ _ frames'); [| by intros He; apply Hrest | lia].
      destruct samples as [|sample' samples]; [simpl in Hn; lia|].
      f_equal. f_equal.
      * do 2 f_equal. unfold Rsum. cbn [map zip_with foldr].
        set (more := foldr Rplus 0 _). lra.
      * destruct explain; [|done]. destruct (Hrest eq_refl) as [-> _].
        cbn. by rewrite app_assoc.
Qed.

Section EvaluationOfNets.
Context `{Collaborators}.

(** X21. [eval_protopnet_model] returns the mean, over the batches of a
    non-empty loader, of the fraction of labels that [ProtoPNet.predict] hits
    in the batch, a number between 0 and 1; with explanations it returns the
    same accuracy together with the rows of [prototypes_explanation] for all
    batches in order; [eval_model] does this for a [ProtoPNet] whatever the
    strategy, and raises [TypeError] for a model that is neither a [ProtoPNet]
    nor a [ProtoTree]. *)
Theorem eval_protopnet_model_mean_accuracy (model : Proto.ProtoPNet)
    (data_loader : list CoreEval.Sample) (predss : list (list nat)) :
  Forall2 (λ sample preds,
     Proto.pnet_predict model (CoreEval.sample_x sample) = inr preds ∧
     length preds = length (CoreEval.sample_y sample) ∧
     (1 <= length (CoreEval.sample_y sample))%nat) data_loader predss →
  data_loader ≠ [] →
  let acc := Rsum (zip_with accuracy predss (map CoreEval.sample_y data_loader))
             / INR (length data_loader) in
  0 <= acc <= 1 ∧
  CoreEval.eval_protopnet_model model data_loader false = inr (acc, None) ∧
  (∀ frames,
     Forall2 (λ sample frame,
        CoreEval.prototypes_explanation (CoreEval.sample_x sample)
          (CoreEval.sample_path sample) (CoreEval.sample_x_mods sample) = inr frame)
       data_loader frames →
     CoreEval.eval_protopnet_model model data_loader true
       = inr (acc, Some (concat frames))) ∧
  (∀ strategy explain,
     CoreEval.eval_model (CoreEval.IsProtoPNet model) data_loader strategy explain
       = CoreEval.eval_protopnet_model model data_loader explain ∧
     CoreEval.eval_model CoreEval.IsOther data_loader strategy explain
       = inl (CoreEval.Raised TypeError)).
Proof.
  intros Hall Hne acc.
  assert (Hbounds : Forall (λ a, 0 <= a <= 1)
            (zip_with accuracy predss (map CoreEval.sample_y data_loader))).
  { apply Forall_lookup. intros i a Ha.
    apply lookup_zip_with_Some in Ha as (preds & y & -> & Hp & Hy).
    rewrite list_lookup_fmap in Hy.
    destruct (data_loader !! i) as [sample'|] eqn:Hs; [|done]. injection Hy as <-.
    destruct (Forall2_lookup_l _ _ _ _ _ Hall Hs) as (preds' & Hp' & _ & Hlen & Hy).
    assert (preds' = preds) as -> by congruence.
    by apply accuracy_bounds. }
  apply Rsum_bounds in Hbounds.
  rewrite length_zip_with, length_map in Hbounds.
  rewrite <- (Forall2_length _ _ _ Hall), Nat.min_id in Hbounds.
  assert (Hpos : 0 < INR (length data_loader)).
  { apply lt_0_INR. destruct data_loader; [done | simpl; lia]. }
  pose proof (Rinv_0_lt_compat _ Hpos) as Hinv.
  split.
  { unfold acc, Rdiv. split.
    - apply Rmult_le_pos; lra.
    - rewrite <- (Rinv_r (INR (length data_loader))) by lra.
      apply Rmult_le_compat_r; lra. }
  split.
  { unfold CoreEval.eval_protopnet_model.
    rewrite (protopnet_loop_spec _ false (length data_loader) 0 _ predss [] 0 None []
               Hall); [|done|done].
    destruct data_loader; [done|].
    cbn [mbind CoreEval.error_bind CoreEval.result]. by rewrite Rplus_0_l. }
  split; [|done].
  intros frames Hframes. unfold CoreEval.eval_protopnet_model.
  rewrite (protopnet_loop_spec _ true (length data_loader) 0 _ predss frames 0 None []
             Hall); [|done|done].
  destruct data_loader; [done|].
  cbn [mbind CoreEval.error_bind CoreEval.result app]. by rewrite Rplus_0_l.
Qed.

End EvaluationOfNets.

(** ** Feature networks *)

(** X22. [num_out_channels] of [src/util/net.py] and
    [get_add_on_layer_in_channels] of [util/net.py] return the same number of
    channels for the same network, and fail on the same networks: with
    [IndexError] both when the network has no layer of the kind they look for,
    and on a name that is none of VGG, RES and DENSE the one with [ValueError],
    the other with a plain [Exception]. *)
Theorem add_on_channels_agree (net : Net.ConvNet) :
  (∀ n, Net.num_out_channels net = inr n ↔
        LegacyNet.get_add_on_layer_in_channels net = inr n) ∧
  (Net.num_out_channels net = inl IndexError ↔
   LegacyNet.get_add_on_layer_in_channels net = inl (LegacyNet.Raised IndexError)) ∧
  (Net.num_out_channels net = inl ValueError ↔
   LegacyNet.get_add_on_layer_in_channels net = inl LegacyNet.Exception) ∧
  (Net.num_out_channels net = inl ValueError ↔
   Net.startswith (Net.upper_name net) "VGG" = false ∧
   Net.startswith (Net.upper_name net) "RES" = false ∧
   Net.startswith (Net.upper_name net) "DENSE" = false).
Proof.
  unfold Net.num_out_channels, LegacyNet.get_add_on_layer_in_channels, Net.last_item.
  destruct (Net.startswith (Net.upper_name net) "VGG");
    destruct (Net.startswith (Net.upper_name net) "RES");
    destruct (Net.startswith (Net.upper_name net) "DENSE"); cbn [orb];
    try destruct (last (Net.conv_out_channels (Net.modules net)));
    try destruct (last (Net.batch_norm_num_features (Net.modules net)));
    cbn; repeat split; try intros [? [? ?]]; try congruence; try done;
    intros [=]; by subst.
Qed.

Lemma freeze_step (freeze_epochs : Z) (params : list bool) (epochs : nat) :
  (0 < freeze_epochs)%Z →
  LegacyNet.freeze (Z.of_nat (S (S epochs)))
    (map (λ _, bool_decide (freeze_epochs < Z.of_nat (S epochs))%Z) params)
    freeze_epochs
  = map (λ _, bool_decide (freeze_epochs < Z.of_nat (S (S epochs)))%Z) params.
Proof.
  intros Hpos. unfold LegacyNet.freeze.
  rewrite decide_True by lia. rewrite decide_False by lia.
  destruct (decide (Z.of_nat (S (S epochs)) = freeze_epochs + 1)%Z) as [Heq | Hne].
  - rewrite List.map_map. apply List.map_ext. intros _.
    symmetry. apply bool_decide_eq_true. lia.
  - apply List.map_ext. intros _. apply bool_decide_ext. lia.
Qed.

(** X23. Called once per epoch for the epochs 1, 2, ... in turn, [freeze] with
    a positive [freeze_epochs] keeps the parameters frozen during the first
    [freeze_epochs] epochs and trainable afterwards; with [freeze_epochs] not
    positive it never touches them. *)
Theorem freeze_schedule (freeze_epochs : Z) (params : list bool) (epochs : nat) :
  let run := foldl (λ ps e, LegacyNet.freeze (Z.of_nat e) ps freeze_epochs) params
                   (seq 1 epochs) in
  ((freeze_epochs <= 0)%Z → run = params) ∧
  ((0 < freeze_epochs)%Z → (1 <= epochs)%nat →
   run = map (λ _, bool_decide (freeze_epochs < Z.of_nat epochs)%Z) params).
Proof.
  split.
  - intros Hle. generalize 1%nat. intros start. revert start.
    induction epochs as [|epochs IH]; intros start; [done|].
    cbn [seq foldl]. unfold LegacyNet.freeze at 2.
    rewrite decide_False by lia. apply IH.
  - intros Hpos Hepochs. destruct epochs as [|epochs]; [lia|]. clear Hepochs.
    induction epochs as [|epochs IH].
    + cbn [seq foldl]. unfold LegacyNet.freeze.
      rewrite decide_True by lia. rewrite decide_True by done.
      apply List.map_ext. intros _. symmetry. apply bool_decide_eq_false. lia.
    + rewrite seq_S, foldl_app, IH. cbn [foldl Nat.add].
      by apply freeze_step.
Qed.

Lemma Forall_exists_Forall2 {A B} (P : A → B → Prop) (l : list A) :
  Forall (λ a, ∃ b, P a b) l → ∃ k, Forall2 P l k.
Proof.
  induction 1 as [|a l [b Hb] _ [k Hk]]; [by exists []|].
  exists (b :: k). by constructor.
Qed.

Lemma mean_bounds (accs : list R) (n : nat) :
  Forall (λ a, 0 <= a <= 1) accs → length accs = n → (1 <= n)%nat →
  0 <= Rsum accs / INR n <= 1.
Proof.
  intros Hall Hlen Hn. apply Rsum_bounds in Hall. rewrite Hlen in Hall.
  assert (Hpos : 0 < INR n) by (apply lt_0_INR; lia).
  pose proof (Rinv_0_lt_compat _ Hpos) as Hinv. unfold Rdiv. split.
  - apply Rmult_le_pos; lra.
  - rewrite <- (Rinv_r (INR n)) by lra. apply Rmult_le_compat_r; lra.
Qed.

Section SingleLeaf.
Context `{Collaborators}.

(** X24. [single_leaf_eval] raises [UnboundLocalError] on a loader without
    batches; on a loader with batches, where [predict] returns one label per
    sample of every (non-empty) batch under ["sample_max"] and under
    ["distributed"], it reports for ["sample_max"] an accuracy and a fidelity
    to ["distributed"] that both lie between 0 and 1. *)
Theorem single_leaf_eval_reports (tree : Proto.ProtoTree) (store : LeafStore)
    (test_loader : list CoreEval.Sample) :
  (test_loader = [] →
   CoreEval.single_leaf_eval tree store test_loader = inl CoreEval.UnboundLocalError) ∧
  (test_loader ≠ [] →
   Forall (λ sample, ∃ p_ref p_test,
      Proto.predict (CoreEval.eval_mode tree) store (CoreEval.sample_x sample)
        "distributed" = inr p_ref ∧
      Proto.predict (CoreEval.eval_mode tree) store (CoreEval.sample_x sample)
        "sample_max" = inr p_test ∧
      length p_ref = length (CoreEval.sample_y sample) ∧
      length p_test = length (CoreEval.sample_y sample) ∧
      (1 <= length (CoreEval.sample_y sample))%nat) test_loader →
   ∃ acc fidelity,
     CoreEval.single_leaf_eval tree store test_loader
       = inr [(acc, CoreEval.Real fidelity)] ∧
     0 <= acc <= 1 ∧ 0 <= fidelity <= 1).
Proof.
  split; [by intros ->|]. intros Hne Hall.
  assert (Hn : (1 <= length test_loader)%nat).
  { destruct test_loader; [done | simpl; lia]. }
  destruct (Forall_exists_Forall2
    (λ sample preds,
       Proto.predict (CoreEval.eval_mode tree) store (CoreEval.sample_x sample)
         "sample_max" = inr preds ∧
       length preds = length (CoreEval.sample_y sample) ∧
       (1 <= length (CoreEval.sample_y sample))%nat) test_loader) as [predss Hpredss].
  { eapply Forall_impl; [exact Hall|].
    intros sample (p_ref & p_test & _ & Htest & _ & Hlen & Hy). by exists p_test. }
  destruct (fidelity_loop_spec (CoreEval.eval_mode tree) store "sample_max"
              "distributed" (length test_loader) test_loader 0 Hn Hall)
    as (f & Hfid & [Hf0 Hf1] & _).
  assert (Hone : INR (length test_loader) / INR (length test_loader) = 1).
  { field. assert (0 < INR (length test_loader)) by (apply lt_0_INR; lia). lra. }
  rewrite Hone in Hf1.
  exists (Rsum (zip_with accuracy predss (map CoreEval.sample_y test_loader))
          / INR (length test_loader)), f.
  split; [|split; [|lra]].
  - unfold CoreEval.single_leaf_eval, CoreEval.eval_model,
      CoreEval.eval_prototree_model, CoreEval.eval_fidelity.
    rewrite (prototree_loop_spec _ _ _ (length test_loader) 0 _ predss 0 None []
               Hpredss eq_refl).
    rewrite Hfid. destruct test_loader; [done|].
    cbn [mbind CoreEval.error_bind CoreEval.result]. by rewrite Rplus_0_l.
  - apply mean_bounds; [| |done].
    + apply Forall_lookup. intros i a Ha.
      apply lookup_zip_with_Some in Ha as (preds & y & -> & Hp & Hy).
      rewrite list_lookup_fmap in Hy.
      destruct (test_loader !! i) as [sample'|] eqn:Hs; [|done]. injection Hy as <-.
      destruct (Forall2_lookup_l _ _ _ _ _ Hpredss Hs) as (preds' & Hp' & _ & Hlen & Hy).
      assert (preds' = preds) as -> by congruence.
      by apply accuracy_bounds.
    + rewrite length_zip_with, length_map, <- (Forall2_length _ _ _ Hpredss). lia.
Qed.

End SingleLeaf.

(** ** A new model *)

Section NewModel.
Context `{Collaborators}.

(** X25. A [ProtoTree] as [__init__] returns it is in training mode: on every
    batch of similarities with [2 ** depth - 1] channels, [forward] under its
    default strategy returns the distributed prediction without predicting
    leaves, and [predict], [predict_probs] and [explain] under their default
    strategy raise [ValueError]. *)
Theorem new_model_is_in_training_mode (num_classes depth : nat) (threshold alpha : R)
    (model : Proto.ProtoTree) (store : LeafStore) (similarities : Tensor2)
    (x : list Image) (dists : list (list DistMap)) (patches : list Patches) :
  Proto.new_proto_tree num_classes depth threshold alpha = inr model →
  n_cols similarities = Proto.num_prototypes depth →
  (∃ logits node_to_probs,
     Proto.forward model store similarities Proto.forward_default
       = inr (logits, node_to_probs, None)) ∧
  Proto.predict model store similarities Proto.predict_default = inl ValueError ∧
  Proto.predict_probs model store similarities Proto.predict_default
    = inl ValueError ∧
  Proto.explain model store similarities x dists patches Proto.explain_default
    = inl ValueError.
Proof.
  intros Hnew Hcols. unfold Proto.new_proto_tree in Hnew.
  apply bind_inr in Hnew as (ts & Hts & Hmodel). injection Hmodel as <-.
  destruct (new_tree_section_indexed _ _ _ _ _ Hts) as (_ & Hroot & Hint & Hidx).
  assert (Hlen : length (descendant_internal_nodes (Proto.tree_root ts))
                 = n_cols similarities).
  { rewrite Hroot, Hcols. apply internal_nodes_perfect_length. }
  rewrite Hlen in Hidx.
  destruct (get_node_to_probs_spec ts similarities Hint Hidx)
    as (ntp & m & _ & Hrun & _ & _).
  split.
  - eexists _, ntp. by apply forward_distributed.
  - assert (Hfwd : Proto.forward (Proto.mkProtoTree ts true) store similarities
                     "sample_max" = inl ValueError).
    { unfold Proto.forward. cbn [Proto.tree_section Proto.training].
      rewrite Hrun. reflexivity. }
    unfold Proto.explain, Proto.predict, Proto.predict_probs, Proto.predict_logits,
      Proto.explain_default, Proto.predict_default.
    by rewrite Hfwd.
Qed.

End NewModel.

(** ** Failures of the leaf update *)

Section UpdateFailures.
Context `{Collaborators}.

Lemma update_each_missing (ts : Proto.TreeSection) (store : LeafStore)
    (ls : list NodeRef) (ntp : gmap NodeRef NodeProbabilities) (logits : Tensor2)
    (ytl : list (list LogVal)) :
  (∃ leaf, leaf ∈ ls ∧ ntp !! leaf = None) →
  Proto.update_each ts store ls ntp logits ytl = inl KeyError.
Proof.
  revert store. induction ls as [|leaf ls IH]; intros store (missing & Hin & Hnone);
    [by inversion Hin|].
  cbn [Proto.update_each].
  destruct (ntp !! leaf) as [np|] eqn:Hleaf.
  - rewrite (leaf_update_spec _ _ _ _ _ _ np Hleaf). cbn [mbind exn_bind].
    apply IH. exists missing. split; [|done].
    apply elem_of_cons in Hin as [-> | Hin]; [congruence | done].
  - unfold Proto._update_leaf_distribution, dict_get. by rewrite Hleaf.
Qed.

(** X26. [update_leaf_distributions] raises [RuntimeError] when a label of the
    batch is not below the number of classes (the one-hot encoding fails
    before any leaf is touched), and, for valid labels and operands of fitting
    shapes at every leaf that has an entry, [KeyError] when the given
    probabilities lack an entry for a leaf of the tree. *)
Theorem update_leaf_distributions_failures (ts : Proto.TreeSection)
    (store : LeafStore) (y_true : list nat) (logits : Tensor2)
    (ntp : gmap NodeRef NodeProbabilities) :
  ((∃ label, label ∈ y_true ∧ (n_cols logits <= label)%nat) →
   Proto.update_leaf_distributions ts store y_true logits ntp = inl RuntimeError) ∧
  (Forall (λ label, (label < n_cols logits)%nat) y_true →
   (∀ leaf np, leaf ∈ leaves (Proto.tree_root ts) → ntp !! leaf = Some np →
      leaf_shaped (store leaf) np (label_logits y_true (n_cols logits)) logits) →
   (∃ leaf, leaf ∈ leaves (Proto.tree_root ts) ∧ ntp !! leaf = None) →
   Proto.update_leaf_distributions ts store y_true logits ntp = inl KeyError).
Proof.
  unfold Proto.update_leaf_distributions. split.
  - intros (label & Hin & Hlabel). unfold one_hot.
    rewrite (for_each_fails _ _ RuntimeError); [done | |].
    + intros l _. destruct (decide (l < n_cols logits)%nat); [right | by left].
      by eexists.
    + exists label. split; [done|]. by rewrite decide_False by lia.
  - intros Hvalid _ Hmissing.
    destruct (one_hot_logits y_true (n_cols logits) Hvalid) as (encoded & -> & _).
    cbn [mbind exn_bind]. by apply update_each_missing.
Qed.

End UpdateFailures.
(** Instances at small inputs use the one-point collaborators. *)
#[local] Existing Instance plain_collaborators.

Lemma forward_rejects_invalid_strategy_witness :
  Proto.forward (stump_model false) flat_store one_image "majority" = inl ValueError ∧
  Proto.forward (stump_model true) flat_store one_image "greedy" = inl ValueError ∧
  ∃ logits ntp, Proto.forward (stump_model true) flat_store one_image "distributed"
                = inr (logits, ntp, None).
Proof.
  destruct (stump_probs one_image eq_refl) as [ntp Hntp].
  split; [|split].
  - destruct (forward_rejects_invalid_strategy (stump_model false) flat_store one_image
                "majority" ntp Hntp) as (Hunknown & _ & _).
    apply Hunknown; intros Heq; discriminate Heq.
  - destruct (forward_rejects_invalid_strategy (stump_model true) flat_store one_image
                "greedy" ntp Hntp) as (_ & Htraining & _).
    apply Htraining; [reflexivity | right; reflexivity].
  - destruct (forward_rejects_invalid_strategy (stump_model true) flat_store one_image
                "distributed" ntp Hntp) as (_ & _ & Hd).
    destruct (Hd eq_refl) as [logits Hlogits]. exists logits, ntp. exact Hlogits.
Defined.

(** C6 on the empty batch.  In inference mode, for a batch without samples,
    the selection of either strategy returns the list of [0] leaves that the
    claim asks for, and [forward] raises [RuntimeError] on the concatenation of
    the empty list of leaf logits instead of returning it. *)
Theorem forward_raises_on_empty_batch :
  length (rows no_image) = 0%nat ∧
  Proto.training (stump_model false) = false ∧
  (∃ ntp,
     Proto.get_node_to_probs stump_section no_image = inr ntp ∧
     Proto.get_predicting_leaves stump ntp "greedy" = inr [] ∧
     Proto.forward (stump_model false) flat_store no_image "greedy"
       = inl RuntimeError) ∧
  (∃ ntp,
     Proto.get_node_to_probs stump_section no_image = inr ntp ∧
     Proto.get_predicting_leaves stump ntp "sample_max" = inr [] ∧
     Proto.forward (stump_model false) flat_store no_image "sample_max"
       = inl RuntimeError).
Proof.
  split; [reflexivity|]. split; [reflexivity|]. split.
  - apply (forward_hard_empty (stump_model false) flat_store no_image "greedy");
      [reflexivity | by right | reflexivity | exact stump_indexed | reflexivity].
  - apply (forward_hard_empty (stump_model false) flat_store no_image "sample_max");
      [reflexivity | by left | reflexivity | exact stump_indexed | reflexivity].
Qed.

Lemma forward_returns_one_leaf_per_sample_witness :
  ∃ logits ntp predicting_leaves,
    Proto.forward (stump_model false) flat_store one_image "greedy"
      = inr (logits, ntp, Some predicting_leaves) ∧
    length predicting_leaves = 1%nat ∧
    (∀ leaf, leaf ∈ predicting_leaves → leaf ∈ leaves stump) ∧
    rows logits
      = map (λ leaf, y_logits (dist_params (flat_store leaf))) predicting_leaves.
Proof.
  destruct (forward_returns_one_leaf_per_sample (stump_model false) flat_store
              one_image "greedy") as [_ Hhard].
  - reflexivity.
  - apply stump_indexed.
  - destruct Hhard as (logits & ntp & pl & Hfwd & Hlen & Hmem & Hrows & _).
    + reflexivity.
    + right. reflexivity.
    + simpl. lia.
    + intros leaf _. reflexivity.
    + exists logits, ntp, pl. repeat split; assumption.
Defined.

Lemma sure_update :
  Proto.dist_update_of [0] [0; 0] class_0_logits zero_logits = [1; 0].
Proof.
  unfold Proto.dist_update_of, Proto.logsumexp_dim0, Proto.log_contributions. simpl.
  rewrite !exp_logsumexp. simpl.
  replace (0 + 0 + 0 - 0) with 0 by lra. rewrite exp_0.
  f_equal; [lra | f_equal; lra].
Qed.

Lemma half_alpha : Rmax (1 / INR 2) (/ 2) = / 2.
Proof. simpl. rewrite Rmax_left; lra. Qed.

Lemma sure_shaped (s : LeafState) :
  length (dist_params s) = 2%nat →
  leaf_shaped s (mkProbs [0] None) class_0_logits zero_logits.
Proof.
  intros Hlen. split; [|done]. repeat split; simpl; try done; repeat constructor.
Qed.

(** C1, as stated, fails: a leaf with parameters [0; 0] and one earlier update
    has [alpha = 1/2]; with the update vector [1; 0] the rule
    [dist_params * (1 - alpha) + update_vector * alpha] gives [1/2; 0], and the
    program leaves [1; 0] in the leaf. *)
Lemma leaf_update_is_not_scaled_by_alpha :
  ∃ store',
    Proto._update_leaf_distribution stump_section flat_store [false] sure_probs
      zero_logits class_0_logits = inr store' ∧
    dist_params (store' [false]) = [1; 0] ∧
    let alpha := Rmax (1 / INR 2) (/ 2) in
    let update_vector :=
      Proto.dist_update_of [0] (y_logits [0; 0]) class_0_logits zero_logits in
    zip_with (λ d u, d * (1 - alpha) + u * alpha) [0; 0] update_vector = [/ 2; 0] ∧
    dist_params (store' [false])
      ≠ zip_with (λ d u, d * (1 - alpha) + u * alpha) [0; 0] update_vector.
Proof.
  eexists. split.
  { apply (leaf_update_spec stump_section flat_store [false] sure_probs zero_logits
             class_0_logits (mkProbs [0] None)).
    unfold sure_probs. apply lookup_insert_eq. }
  rewrite fn_lookup_insert. unfold flat_store.
  cbn [dist_params dist_param_update_count log_p_arrival].
  change (y_logits [0; 0]) with [0; 0]. rewrite sure_update.
  unfold next_alpha.
  cbn [dist_param_update_count Proto.leaf_opt_ewma_alpha stump_section].
  rewrite half_alpha. simpl.
  assert (0 * (1 - / 2) + 1 = 1) as -> by lra.
  assert (0 * (1 - / 2) + 0 = 0) as -> by lra.
  assert (0 * (1 - / 2) + 1 * / 2 = / 2) as -> by lra.
  assert (0 * (1 - / 2) + 0 * / 2 = 0) as -> by lra.
  split; [done|]. split; [done|]. intros [= Heq]. lra.
Qed.

Lemma leaf_update_adds_update_vector_witness :
  ∃ store' update_vector,
    Proto._update_leaf_distribution stump_section flat_store [false] sure_probs
      zero_logits class_0_logits = inr store' ∧
    length update_vector = 2%nat ∧
    dist_params (store' [false])
      = zip_with (λ d u, d * (1 - Rmax (1 / INR 2) (/ 2)) + u) [0; 0] update_vector ∧
    dist_param_update_count (store' [false]) = 2%nat.
Proof.
  destruct (leaf_update_adds_update_vector stump_section flat_store [false] sure_probs
              zero_logits class_0_logits (mkProbs [0] None))
    as (store' & update_vector & Hrun & Hlen & _ & Hparams & Hcount & _).
  - unfold sure_probs. apply lookup_insert_eq.
  - apply sure_shaped. reflexivity.
  - exists store', update_vector. repeat split; assumption.
Defined.

Lemma first_leaf_update_is_raw_update_witness :
  ∃ store',
    Proto._update_leaf_distribution stump_section fresh_store [false] sure_probs
      zero_logits class_0_logits = inr store' ∧
    dist_params (store' [false])
      = Proto.dist_update_of [0] (y_logits [3; 4]) class_0_logits zero_logits.
Proof.
  destruct (first_leaf_update_is_raw_update stump_section fresh_store [false]
              sure_probs zero_logits class_0_logits (mkProbs [0] None))
    as (store' & Hrun & _ & Hparams).
  - unfold sure_probs. apply lookup_insert_eq.
  - apply sure_shaped. reflexivity.
  - reflexivity.
  - simpl. lra.
  - exists store'. split; assumption.
Defined.

Lemma sure_probs_cover_leaves (store : LeafStore) :
  (∀ leaf, length (dist_params (store leaf)) = 2%nat) →
  ∀ leaf, leaf ∈ leaves stump →
    ∃ np, sure_probs !! leaf = Some np ∧
          leaf_shaped (store leaf) np (label_logits [0%nat] 2) zero_logits.
Proof.
  intros Hlen leaf Hleaf. exists (mkProbs [0] None). split.
  - unfold leaves in Hleaf. simpl in Hleaf.
    apply elem_of_cons in Hleaf as [-> | Hleaf].
    + unfold sure_probs. by rewrite lookup_insert_eq.
    + apply list_elem_of_singleton in Hleaf as ->.
      unfold sure_probs. rewrite lookup_insert_ne by done.
      by rewrite lookup_singleton_eq.
  - apply sure_shaped, Hlen.
Qed.

Lemma every_leaf_is_updated_witness :
  ∃ store',
    Proto.update_leaf_distributions stump_section fresh_store [0%nat] zero_logits
      sure_probs = inr store' ∧
    dist_param_update_count (store' [false]) = 1%nat ∧
    dist_param_update_count (store' [true]) = 1%nat.
Proof.
  destruct (every_leaf_is_updated stump_section fresh_store [0%nat] zero_logits
              sure_probs) as (store' & Hrun & Hleaves & _).
  - repeat constructor.
  - apply sure_probs_cover_leaves. reflexivity.
  - exists store'. split; [exact Hrun|]. split.
    + apply (Hleaves [false] (mkProbs [0] None)).
      * unfold leaves. simpl. apply elem_of_cons. by left.
      * unfold sure_probs. apply lookup_insert_eq.
    + apply (Hleaves [true] (mkProbs [0] None)).
      * unfold leaves. simpl. apply elem_of_cons. right. by apply list_elem_of_singleton.
      * unfold sure_probs. rewrite lookup_insert_ne by done.
        apply lookup_singleton_eq.
Defined.

(** C2 on [src/prototree/models.py]: for the tree of depth 2, one image and
    the leftmost leaf, [rationalize] returns two rationalizations for the one
    (image, leaf) pair, one per ancestor, which share one list of ancestor
    similarities. *)
Theorem prototree_rationalize_repeats_per_ancestor :
  Prototree.rationalize sapling_idx flat_store [tt] [[false; false]] [[tt; tt; tt]] [tt]
    = inr ([[img_proto_similarity [] tt tt tt; img_proto_similarity [false] tt tt tt]],
           [Prototree.mkRationalization 0 0; Prototree.mkRationalization 0 0]).
Proof. vm_compute. reflexivity. Qed.

(** * Further instances at small inputs *)

Lemma get_node_to_log_p_right_cases_witness :
  (∃ m, Proto.get_node_to_log_p_right stump_section one_image = inr m ∧
        m !! [] = Some [-1]) ∧
  Proto.get_node_to_log_p_right stump_section (mkTensor2 0 [[]]) = inl IndexError.
Proof.
  destruct (get_node_to_log_p_right_cases stump_section one_image) as [Hok _].
  destruct (get_node_to_log_p_right_cases stump_section (mkTensor2 0 [[]]))
    as [_ Hfail].
  split.
  - destruct Hok as (m & Hrun & Hm).
    + apply map_Forall_singleton. simpl. lia.
    + exists m. split; [exact Hrun|]. rewrite Hm. simpl.
      rewrite lookup_singleton_eq. reflexivity.
  - apply (Hfail [] 0%nat).
    + simpl. apply lookup_singleton_eq.
    + simpl. lia.
Defined.

Lemma new_tree_section_prototypes_witness :
  ∃ ts, Proto.new_tree_section 2 2 0 (/ 2) = inr ts ∧
        (∃ p, Proto.node_to_proto_idx ts !! p = Some 2%nat) ∧
        ∃ ntp, Proto.get_node_to_probs ts (mkTensor2 3 [[1; 2; 3]]) = inr ntp.
Proof.
  eexists. split; [reflexivity|].
  destruct (new_tree_section_prototypes 2 2 0 (/ 2) _ eq_refl)
    as (_ & _ & Hsurj & Hrun).
  split.
  - destruct (Hsurj 2%nat) as (p & Hp & _).
    + unfold Proto.num_prototypes. simpl. lia.
    + by exists p.
  - destruct (Hrun (mkTensor2 3 [[1; 2; 3]]) eq_refl) as (ntp & Hntp & _).
    by exists ntp.
Defined.

Lemma one_image_positive :
  Forall (λ row, ∀ j, (j < n_cols one_image)%nat → 0 < nth j row 0) (rows one_image).
Proof.
  constructor; [|constructor].
  intros [|j] Hj; simpl in *; [lra | lia].
Qed.

Lemma arrival_probabilities_sum_to_one_witness :
  ∃ node_to_probs,
    Proto.get_node_to_probs stump_section one_image = inr node_to_probs ∧
    Rsum (map (λ leaf, exp (arrival_at node_to_probs leaf 0)) (leaves stump)) = 1.
Proof.
  destruct (arrival_probabilities_sum_to_one stump_section one_image)
    as (ntp & Hrun & Hsum).
  - reflexivity.
  - exact stump_indexed.
  - exact one_image_positive.
  - exists ntp. split; [exact Hrun|]. apply (Hsum 0%nat). simpl. lia.
Defined.

Lemma hard_leaves_are_likely_witness :
  ∃ node_to_probs greedy best,
    Proto.get_node_to_probs stump_section one_image = inr node_to_probs ∧
    Proto.get_predicting_leaves stump node_to_probs "greedy" = inr greedy ∧
    Proto.get_predicting_leaves stump node_to_probs "sample_max" = inr best ∧
    length greedy = 1%nat ∧ length best = 1%nat.
Proof.
  destruct (hard_leaves_are_likely stump_section one_image)
    as (ntp & greedy & best & Hrun & Hg & Hb & Hgl & Hbl & _).
  - reflexivity.
  - exact stump_indexed.
  - exact one_image_positive.
  - exists ntp, greedy, best. repeat split; assumption.
Defined.

Lemma flat_store_shaped :
  ∀ leaf, leaf ∈ leaves stump →
    length (y_logits (dist_params (flat_store leaf))) = Proto.num_classes stump_section.
Proof. intros leaf _. reflexivity. Qed.

Lemma stump_forward_greedy :
  ∃ ntp predicting_leaves,
    Proto.forward (stump_model false) flat_store one_image "greedy"
      = inr (mkTensor2 2 (map (λ _, [0; 0]) predicting_leaves), ntp,
             Some predicting_leaves) ∧
    length predicting_leaves = 1%nat ∧
    Forall (λ leaf, leaf ∈ leaves stump) predicting_leaves.
Proof.
  destruct (forward_hard (stump_model false) flat_store one_image "greedy")
    as (ntp & pl & _ & _ & _ & Hfwd & Hlen & Hin);
    [reflexivity | by right | reflexivity | exact stump_indexed | done
    | exact flat_store_shaped |].
  by exists ntp, pl.
Qed.

Lemma predict_is_argmax_of_predict_probs_witness :
  ∃ probs,
    Proto.predict_probs (stump_model false) flat_store one_image "greedy" = inr probs ∧
    Proto.predict (stump_model false) flat_store one_image "greedy"
      = for_each argmax (rows probs) ∧
    ∀ row, row ∈ rows probs → Rsum row = 1.
Proof.
  destruct stump_forward_greedy as (ntp & pl & Hfwd & _ & _).
  destruct (predict_is_argmax_of_predict_probs (stump_model false) flat_store
              one_image "greedy") as [Heq Hdist].
  assert (Hprobs : Proto.predict_probs (stump_model false) flat_store one_image "greedy"
                   = inr (mkTensor2 2 (map softmax (map (λ _, [0; 0]) pl)))).
  { unfold Proto.predict_probs, Proto.predict_logits. rewrite Hfwd. reflexivity. }
  eexists. split; [exact Hprobs|]. split.
  - rewrite Heq, Hprobs. reflexivity.
  - intros row Hrow. apply (Hdist _ row Hprobs Hrow).
    simpl in Hrow. rewrite List.map_map in Hrow.
    apply list_elem_of_In, List.in_map_iff in Hrow as (leaf & <- & _).
    discriminate.
Defined.

Lemma explain_needs_predicting_leaves_witness :
  Proto.explain (stump_model false) flat_store one_image one_photo one_photo_dists
    one_photo_patches "distributed" = inl TypeError ∧
  Proto.explain (stump_model true) flat_store one_image one_photo one_photo_dists
    one_photo_patches "sample_max" = inl ValueError ∧
  Proto.predict (stump_model true) flat_store one_image "sample_max" = inl ValueError.
Proof.
  destruct (stump_probs one_image eq_refl) as [ntp Hntp].
  split.
  - apply (explain_needs_predicting_leaves (stump_model false) flat_store one_image
             one_photo one_photo_dists one_photo_patches ntp Hntp).
  - apply (explain_needs_predicting_leaves (stump_model true) flat_store one_image
             one_photo one_photo_dists one_photo_patches ntp Hntp). reflexivity.
Defined.

Lemma explain_rationalizes_predicting_leaves_witness :
  ∃ logits node_to_probs predicting_leaves leaf_explanations,
    Proto.explain (stump_model false) flat_store one_image one_photo one_photo_dists
      one_photo_patches "greedy"
      = inr (logits, node_to_probs, Some predicting_leaves, leaf_explanations) ∧
    length leaf_explanations = 1%nat.
Proof.
  destruct (explain_rationalizes_predicting_leaves (stump_model false) flat_store
              one_image one_photo one_photo_dists one_photo_patches "greedy" 1)
    as (logits & ntp & pl & rs & _ & Hexplain & Hlen & _).
  - reflexivity.
  - right. reflexivity.
  - lia.
  - reflexivity.
  - exact stump_indexed.
  - exact flat_store_shaped.
  - simpl. lia.
  - reflexivity.
  - reflexivity.
  - reflexivity.
  - constructor; [simpl; lia | constructor].
  - exists logits, ntp, pl, rs. split; [exact Hexplain | exact Hlen].
Defined.

Lemma left_leaf_of_stump : [false] ∈ leaves stump.
Proof. unfold leaves. simpl. apply elem_of_cons. by left. Qed.

Lemma leaf_update_in_linear_space_witness :
  ∃ store',
    Proto.update_leaf_distributions stump_section fresh_store [0%nat] zero_logits
      sure_probs = inr store' ∧
    dist_params (store' [false]) !! 1%nat
      = Some (4 * (1 - next_alpha stump_section (fresh_store [false]))).
Proof.
  destruct (leaf_update_in_linear_space stump_section fresh_store [0%nat] zero_logits
              sure_probs) as (store' & Hrun & Hleaves).
  - repeat constructor.
  - apply sure_probs_cover_leaves. reflexivity.
  - exists store'. split; [exact Hrun|].
    destruct (Hleaves [false] (mkProbs [0] None) 1%nat 4) as [_ Habsent].
    + exact left_leaf_of_stump.
    + unfold sure_probs. apply lookup_insert_eq.
    + reflexivity.
    + apply Habsent. intros Hin. apply list_elem_of_singleton in Hin. discriminate Hin.
Defined.

Lemma leaf_update_keeps_parameters_nonnegative_witness :
  ∃ store',
    Proto.update_leaf_distributions stump_section fresh_store [0%nat] zero_logits
      sure_probs = inr store' ∧
    length (dist_params (store' [false])) = 2%nat ∧
    Forall (λ d, 0 <= d) (dist_params (store' [false])).
Proof.
  destruct (leaf_update_keeps_parameters_nonnegative stump_section fresh_store [0%nat]
              zero_logits sure_probs) as (store' & Hrun & Hleaves).
  - simpl. lra.
  - repeat constructor.
  - apply sure_probs_cover_leaves. reflexivity.
  - exists store'. split; [exact Hrun|].
    destruct (Hleaves [false] left_leaf_of_stump) as [Hlen Hpos].
    split; [exact Hlen|]. apply Hpos. simpl.
    repeat (constructor; [lra|]). constructor.
Defined.

Lemma sure_probs_cover_mixed :
  ∀ leaf, leaf ∈ leaves stump →
    ∃ np, sure_probs !! leaf = Some np ∧
          leaf_shaped (fresh_store leaf) np (label_logits [0%nat] 2) mixed_logits.
Proof.
  intros leaf Hleaf. exists (mkProbs [0] None). split.
  - unfold leaves in Hleaf. simpl in Hleaf.
    apply elem_of_cons in Hleaf as [-> | Hleaf].
    + unfold sure_probs. by rewrite lookup_insert_eq.
    + apply list_elem_of_singleton in Hleaf as ->.
      unfold sure_probs. rewrite lookup_insert_ne by done.
      by rewrite lookup_singleton_eq.
  - split; [|done]. repeat split; simpl; try done; repeat constructor.
Qed.

Lemma mixed_logits_are_distributed (b c : nat) :
  (b < length (rows mixed_logits))%nat → (c < n_cols mixed_logits)%nat →
  exp (nth c (nth b (rows mixed_logits) []) 0)
    = Rsum (map (λ leaf, exp (arrival_at sure_probs leaf b
                             + nth c (y_logits (dist_params (fresh_store leaf))) 0))
                (leaves stump)).
Proof.
  intros Hb Hc. simpl in Hb, Hc.
  assert (b = 0%nat) as -> by lia.
  unfold leaves, arrival_at, sure_probs. simpl.
  rewrite lookup_insert_eq, lookup_insert_ne, lookup_singleton_eq by done. simpl.
  destruct c as [|[|c]]; [| |lia]; simpl;
    rewrite exp_plus, exp_ln, Rplus_0_l by lra; lra.
Qed.

Lemma leaf_updates_share_the_labels_witness :
  ∃ store',
    Proto.update_leaf_distributions stump_section fresh_store [0%nat] mixed_logits
      sure_probs = inr store' ∧
    Rsum (map (λ leaf, nth 0 (dist_params (store' leaf)) 0) (leaves stump))
      = Rsum (map (λ leaf, nth 0 (dist_params (fresh_store leaf)) 0
                           * (1 - next_alpha stump_section (fresh_store leaf)))
                  (leaves stump))
        + INR (length (filter (λ label, label = 0%nat) [0%nat])).
Proof.
  destruct (leaf_updates_share_the_labels stump_section fresh_store [0%nat]
              mixed_logits sure_probs) as (store' & Hrun & Hsum).
  - repeat constructor.
  - exact sure_probs_cover_mixed.
  - exact mixed_logits_are_distributed.
  - exists store'. split; [exact Hrun|]. apply (Hsum 0%nat). simpl. lia.
Defined.

Lemma rationalize_pairs_up_to_shortest_witness :
  (∃ rationalizations,
     Proto.rationalize stump_section (one_photo ++ one_photo) [[false]]
       one_photo_dists one_photo_patches = inr rationalizations ∧
     length rationalizations = 1%nat) ∧
  Proto.rationalize stump_section one_photo [[false; false]]
    one_photo_dists one_photo_patches = inl KeyError.
Proof.
  assert (Hbound : map_Forall (λ (_ : NodeRef) (i : nat), (i < 1)%nat)
                     (Proto.node_to_proto_idx stump_section)).
  { apply map_Forall_singleton. lia. }
  assert (Hdists : Forall (λ d : list DistMap, (1 <= length d)%nat) one_photo_dists).
  { constructor; [simpl; lia | constructor]. }
  split.
  - destruct (rationalize_pairs_up_to_shortest stump_section 1
                (one_photo ++ one_photo) [[false]] one_photo_dists one_photo_patches
                Hbound Hdists) as [Hok _].
    destruct Hok as (rs & Hrun & Hlen & _).
    + intros leaf q Hleaf Hq. apply list_elem_of_singleton in Hleaf. subst leaf.
      simpl in Hq. apply list_elem_of_singleton in Hq. subst q.
      simpl. rewrite lookup_singleton_eq. by eexists.
    + exists rs. split; [exact Hrun | exact Hlen].
  - destruct (rationalize_pairs_up_to_shortest stump_section 1
                one_photo [[false; false]] one_photo_dists one_photo_patches
                Hbound Hdists) as [_ Hfail].
    apply (Hfail 0%nat [false; false] [false]); simpl; try lia; try reflexivity.
    apply elem_of_cons. right. by apply list_elem_of_singleton.
Defined.

Lemma sapling_idx_bound : map_Forall (λ (_ : NodeRef) (i : nat), (i < 3)%nat) sapling_idx.
Proof.
  unfold sapling_idx. repeat (apply map_Forall_insert_2; [lia|]).
  apply map_Forall_empty.
Qed.

Lemma prototree_rationalize_per_ancestor_witness :
  ∃ heap rationalizations,
    Prototree.rationalize sapling_idx flat_store one_photo [[false; false]]
      sapling_dists one_photo_patches = inr (heap, rationalizations) ∧
    length heap = 1%nat ∧ length rationalizations = 2%nat.
Proof.
  destruct (prototree_rationalize_per_ancestor sapling_idx flat_store 3 2 one_photo
              [[false; false]] sapling_dists one_photo_patches)
    as (heap & rs & Hrun & _ & Hheap & _ & Hlen).
  - exact sapling_idx_bound.
  - constructor; [simpl; lia | constructor].
  - intros leaf q Hleaf Hq. apply list_elem_of_singleton in Hleaf. subst leaf.
    simpl in Hq. apply elem_of_cons in Hq as [-> | Hq].
    + by eexists.
    + apply list_elem_of_singleton in Hq. subst q. by eexists.
  - reflexivity.
  - reflexivity.
  - reflexivity.
  - exists heap, rs. split; [exact Hrun|]. split; [exact Hheap|].
    apply Hlen. intros leaf Hleaf. apply list_elem_of_singleton in Hleaf.
    subst leaf. reflexivity.
Defined.

Lemma sapling_indexed : indexed sapling sapling_idx 3.
Proof.
  split; [|exact sapling_idx_bound].
  intros n Hn. unfold descendant_internal_nodes, descendants in Hn. simpl in Hn.
  repeat (apply elem_of_cons in Hn as [-> | Hn]; [by eexists|]).
  inversion Hn.
Qed.

Lemma prototree_explain_per_ancestor_witness :
  ∃ logits node_to_probs predicting_leaves heap rationalizations,
    Prototree.explain older_sapling flat_store sapling_image one_photo sapling_dists
      one_photo_patches "greedy"
      = inr (logits, node_to_probs, Some predicting_leaves, (heap, rationalizations)) ∧
    length predicting_leaves = 1%nat ∧
    length rationalizations = 2%nat.
Proof.
  destruct (prototree_explain_per_ancestor older_sapling flat_store sapling_image
              one_photo sapling_dists one_photo_patches "greedy" 2)
    as (logits & ntp & pl & heap & rs & _ & Hexplain & Hpl & _ & Hrs).
  - reflexivity.
  - right. reflexivity.
  - lia.
  - reflexivity.
  - exact sapling_indexed.
  - intros leaf _. reflexivity.
  - simpl. lia.
  - reflexivity.
  - reflexivity.
  - reflexivity.
  - constructor; [simpl; lia | constructor].
  - exists logits, ntp, pl, heap, rs. split; [exact Hexplain|].
    split; [exact Hpl | exact Hrs].
Defined.

Lemma stump_predict_greedy :
  Proto.predict (CoreEval.eval_mode (stump_model true)) flat_store one_image "greedy"
    = inr [0%nat].
Proof.
  destruct stump_forward_greedy as (ntp & pl & Hfwd & Hlen & _).
  change (CoreEval.eval_mode (stump_model true)) with (stump_model false).
  unfold Proto.predict, Proto.predict_logits. rewrite Hfwd.
  destruct pl as [|leaf [|leaf' pl]]; try discriminate Hlen.
  cbn. destruct (Rgt_dec 0 0) as [Hgt|_]; [lra | reflexivity].
Qed.

Lemma eval_prototree_model_mean_accuracy_witness :
  (∃ acc,
     CoreEval.eval_prototree_model (stump_model true) flat_store [one_sample] "greedy"
       false = inr (acc, None) ∧
     0 <= acc <= 1) ∧
  CoreEval.eval_prototree_model (stump_model true) flat_store [] "greedy" true
    = inl CoreEval.UnboundLocalError.
Proof.
  split.
  - destruct (eval_prototree_model_mean_accuracy (stump_model true) flat_store
                [one_sample] "greedy" [[0%nat]]) as [_ Hmean].
    + constructor; [|constructor]. split; [exact stump_predict_greedy|].
      split; [reflexivity | simpl; lia].
    + destruct Hmean as (acc & Hrun & _ & Hbounds); [discriminate|].
      exists acc. split; [exact Hrun | exact Hbounds].
  - destruct (eval_prototree_model_mean_accuracy (stump_model true) flat_store
                [] "greedy" []) as [Hempty _].
    + constructor.
    + apply Hempty. reflexivity.
Defined.

Lemma eval_fidelity_bounds_witness :
  ∃ f,
    CoreEval.eval_fidelity (stump_model true) flat_store [one_sample] "greedy" "greedy"
      = inr (CoreEval.Real f) ∧
    f = 1.
Proof.
  destruct (eval_fidelity_bounds (stump_model true) flat_store [one_sample]
              "greedy" "greedy") as (f & Hrun & _ & _ & Hself).
  - constructor; [|constructor]. exists [0%nat], [0%nat].
    split; [exact stump_predict_greedy|]. split; [exact stump_predict_greedy|].
    split; [reflexivity|]. split; [reflexivity | simpl; lia].
  - exists f. split; [exact Hrun|]. apply Hself; [discriminate | reflexivity].
Defined.

Lemma prototypes_explanation_rows_witness :
  CoreEval.prototypes_explanation no_image ["img"%string] one_modification
    = inl CoreEval.AssertionError ∧
  ∃ frame,
    CoreEval.prototypes_explanation one_image ["img"%string] one_modification
      = inr frame ∧
    length frame = 1%nat ∧
    frame !! 0%nat = Some (CoreEval.mkRow "img" 0 "blur" (Rabs (1 - 3)) 1).
Proof.
  split.
  - destruct (prototypes_explanation_rows no_image ["img"%string] one_modification)
      as [Hassert _].
    apply Hassert. simpl. lia.
  - destruct (prototypes_explanation_rows one_image ["img"%string] one_modification)
      as [_ Hrows].
    destruct (Hrows [1] "img"%string) as (frame & Hrun & Hlen & Hrow).
    + reflexivity.
    + reflexivity.
    + reflexivity.
    + constructor; [|constructor]. split; [reflexivity|].
      exists [3]. split; reflexivity.
    + exists frame. split; [exact Hrun|]. split; [exact Hlen|].
      apply (Hrow 0%nat 0%nat "blur"%string (mkTensor2 1 [[3]]) [3]).
      * reflexivity.
      * reflexivity.
      * simpl. lia.
Defined.

Lemma identity_net_predicts_level_sample :
  Proto.pnet_predict identity_net (CoreEval.sample_x level_sample) = inr [0%nat].
Proof.
  rewrite pnet_predict_argmax. cbn.
  destruct (Rgt_dec 0 0) as [Hgt|_]; [lra | reflexivity].
Qed.

Lemma eval_protopnet_model_mean_accuracy_witness :
  ∃ acc,
    CoreEval.eval_protopnet_model identity_net [level_sample] false = inr (acc, None) ∧
    CoreEval.eval_protopnet_model identity_net [level_sample] true
      = inr (acc, Some []) ∧
    0 <= acc <= 1.
Proof.
  destruct (eval_protopnet_model_mean_accuracy identity_net [level_sample]
              [[0%nat]]) as (Hbounds & Hplain & Hexplain & _).
  - constructor; [|constructor]. split; [exact identity_net_predicts_level_sample|].
    split; [reflexivity | simpl; lia].
  - discriminate.
  - eexists. split; [exact Hplain|]. split; [|exact Hbounds].
    apply (Hexplain [[]]). constructor; [reflexivity | constructor].
Defined.

Lemma add_on_channels_agree_witness :
  LegacyNet.get_add_on_layer_in_channels small_resnet = inr 512%nat ∧
  LegacyNet.get_add_on_layer_in_channels unknown_net = inl LegacyNet.Exception.
Proof.
  split.
  - apply (add_on_channels_agree small_resnet). reflexivity.
  - apply (add_on_channels_agree unknown_net). reflexivity.
Defined.

Lemma freeze_schedule_witness :
  foldl (λ ps e, LegacyNet.freeze (Z.of_nat e) ps 2) [true; true] (seq 1 2)
    = [false; false] ∧
  foldl (λ ps e, LegacyNet.freeze (Z.of_nat e) ps 2) [true; true] (seq 1 3)
    = [true; true] ∧
  foldl (λ ps e, LegacyNet.freeze (Z.of_nat e) ps 0) [true; true] (seq 1 3)
    = [true; true].
Proof.
  split; [|split].
  - destruct (freeze_schedule 2 [true; true] 2) as [_ Hrun].
    rewrite Hrun by lia. reflexivity.
  - destruct (freeze_schedule 2 [true; true] 3) as [_ Hrun].
    rewrite Hrun by lia. reflexivity.
  - destruct (freeze_schedule 0 [true; true] 3) as [Hrun _].
    apply Hrun. lia.
Defined.

Lemma level_predictions :
  @Proto.predict level_collaborators (CoreEval.eval_mode (stump_model true)) flat_store
    one_image "distributed" = inr [0%nat] ∧
  @Proto.predict level_collaborators (CoreEval.eval_mode (stump_model true)) flat_store
    one_image "sample_max" = inr [0%nat].
Proof.
  change (CoreEval.eval_mode (stump_model true)) with (stump_model false).
  split.
  - destruct (get_node_to_probs_spec stump_section one_image eq_refl stump_indexed)
      as (ntp & m & _ & Hrun & Huniform & Hprop).
    unfold Proto.predict, Proto.predict_logits.
    rewrite (@forward_distributed level_collaborators (stump_model false) flat_store
               one_image ntp Hrun).
    destruct (propagated_is_Some m ntp stump) as [np Hnp].
    { apply Hprop. apply descendants_at_self. }
    destruct (Huniform _ _ Hnp) as [Hlen _].
    cbn. simpl in Hnp. rewrite Hnp.
    destruct (log_p_arrival np) as [|a [|b l]]; try discriminate Hlen.
    cbn. destruct (Rgt_dec 0 0) as [Hgt|_]; [lra | reflexivity].
  - destruct (@forward_hard level_collaborators (stump_model false) flat_store
                one_image "sample_max")
      as (ntp & pl & _ & _ & _ & Hfwd & Hlen & _);
      [reflexivity | by left | reflexivity | exact stump_indexed | done
      | intros leaf _; reflexivity |].
    unfold Proto.predict, Proto.predict_logits. rewrite Hfwd.
    destruct pl as [|leaf [|leaf' pl]]; try discriminate Hlen.
    cbn. destruct (Rgt_dec 0 0) as [Hgt|_]; [lra | reflexivity].
Qed.

Lemma single_leaf_eval_reports_witness :
  @CoreEval.single_leaf_eval level_collaborators (stump_model true) flat_store []
    = inl CoreEval.UnboundLocalError ∧
  ∃ acc fidelity,
    @CoreEval.single_leaf_eval level_collaborators (stump_model true) flat_store
      [one_sample] = inr [(acc, CoreEval.Real fidelity)] ∧
    0 <= acc <= 1 ∧ 0 <= fidelity <= 1.
Proof.
  split.
  - apply (@single_leaf_eval_reports level_collaborators). reflexivity.
  - apply (@single_leaf_eval_reports level_collaborators); [discriminate|].
    constructor; [|constructor]. exists [0%nat], [0%nat].
    destruct level_predictions as [Href Htest].
    split; [exact Href|]. split; [exact Htest|].
    split; [reflexivity|]. split; [reflexivity | simpl; lia].
Defined.

Lemma new_model_is_in_training_mode_witness :
  ∃ model,
    Proto.new_proto_tree 2 2 0 (/ 2) = inr model ∧
    (∃ logits node_to_probs,
       Proto.forward model flat_store sapling_image "distributed"
         = inr (logits, node_to_probs, None)) ∧
    Proto.predict model flat_store sapling_image "sample_max" = inl ValueError.
Proof.
  eexists. split; [reflexivity|].
  destruct (new_model_is_in_training_mode 2 2 0 (/ 2) _ flat_store sapling_image
              one_photo sapling_dists one_photo_patches eq_refl eq_refl)
    as (Hforward & Hpredict & _ & _).
  split; [exact Hforward | exact Hpredict].
Defined.

Lemma update_leaf_distributions_failures_witness :
  Proto.update_leaf_distributions stump_section fresh_store [2%nat] zero_logits
    sure_probs = inl RuntimeError ∧
  Proto.update_leaf_distributions stump_section fresh_store [0%nat] zero_logits
    left_only_probs = inl KeyError.
Proof.
  split.
  - apply (update_leaf_distributions_failures stump_section fresh_store [2%nat]
             zero_logits sure_probs).
    exists 2%nat. split; [by apply list_elem_of_singleton | simpl; lia].
  - apply (update_leaf_distributions_failures stump_section fresh_store [0%nat]
             zero_logits left_only_probs).
    + repeat constructor.
    + intros leaf np Hleaf Hnp. unfold leaves in Hleaf. simpl in Hleaf.
      apply elem_of_cons in Hleaf as [-> | Hleaf].
      * unfold left_only_probs in Hnp. rewrite lookup_singleton_eq in Hnp.
        injection Hnp as <-. apply sure_shaped. reflexivity.
      * apply list_elem_of_singleton in Hleaf. subst leaf.
        unfold left_only_probs in Hnp. rewrite lookup_singleton_ne in Hnp by done.
        discriminate Hnp.
    + exists [true]. split; [|reflexivity].
      unfold leaves. simpl. apply elem_of_cons. right.
      by apply list_elem_of_singleton.
Defined.
